(** * DLList<T>: a shallow embedding of [src/cpp/ds/dllist.cpp]

    The doubly linked list of the library is modelled over an explicit
    memory: a finite map from node addresses to [_node] records (the
    free store managed by [new]/[delete]) and a finite map from object
    addresses to [DLList] records (the list objects themselves, so that
    two references may alias).  Member functions are computations in a
    small state-and-error monad; [CHECK_THROW] becomes [Throw], a null or
    dangling dereference becomes [Undefined], and every [while] loop
    carries a fuel argument.  A [new] never fails: the free store is
    unbounded.

    The file has three parts: the model of every member function of the
    class, the facts about it that the proofs share, and the theorems,
    first those numbered [C1] to [C10], then further properties of the
    member functions, numbered [X1] onwards. *)

From stdpp Require Import gmap strings pretty list fin_maps sorting.
From Stdlib Require Import ZArith Lia.

Local Open Scope Z_scope.
Set Warnings "-clear-no-such-hyp".

(** ** Machine integers *)

(** [size_t] is a 64-bit unsigned integer, [int64_t] a 64-bit signed one. *)
Definition wrap64 (z : Z) : Z := z mod 2 ^ 64.

(** The cast [(int64_t)x] of a [size_t]. *)
Definition to_int64 (z : Z) : Z :=
  let w := wrap64 z in if w <? 2 ^ 63 then w else w - 2 ^ 64.

(** Unary minus on [int64_t]. *)
Definition neg64 (z : Z) : Z := to_int64 (- z).

(** ** Exceptions and outcomes *)

(** [CHECK_THROW(expr)] throws a [std::runtime_error] whose message starts
    with the text of [expr]; the [FILE=]/[LINE=] suffix is left out. *)
Inductive exn : Type := runtime_error (what : string).

(** The error kinds of the specification.  The code has one exception type
    only; the kind is read off the failed check. *)
Inductive error_kind : Type :=
| InvalidArgument | OutOfRange | EmptyContainerError
| DereferenceError | InvalidIterator.

Definition chk_siz_nonneg : string := "siz >= 0".
Definition chk_siz_bound : string := "siz < (1LL << 48)".
Definition chk_index : string := "i < (int64_t)_size && i >= -(int64_t)_size".
Definition chk_head : string := "_head".
Definition chk_tail : string := "_tail".
Definition chk_ptr : string := "_ptr".
Definition chk_not_end : string := "itr != end()".

Definition kind_of (e : exn) : option error_kind :=
  match e with
  | runtime_error s =>
      if bool_decide (s = chk_siz_nonneg) || bool_decide (s = chk_siz_bound)
      then Some InvalidArgument
      else if bool_decide (s = chk_index) then Some OutOfRange
      else if bool_decide (s = chk_head) || bool_decide (s = chk_tail)
      then Some EmptyContainerError
      else if bool_decide (s = chk_ptr) then Some DereferenceError
      else if bool_decide (s = chk_not_end) then Some InvalidIterator
      else None
  end.

Inductive outcome (S A : Type) : Type :=
| Ok (a : A) (s : S)      (* normal return *)
| Throw (e : exn) (s : S) (* exception, with the state at the throw *)
| Undefined               (* null or dangling dereference *)
| Timeout.                (* fuel exhausted *)
Arguments Ok {S A} a s.
Arguments Throw {S A} e s.
Arguments Undefined {S A}.
Arguments Timeout {S A}.

(** ** Memory *)

Abbreviation loc := positive.
Abbreviation ptr := (option positive).
Abbreviation ref := positive.

Section DLList.

Context {T : Type}.

Record _node : Type := Node { _val : T; _prev : ptr; _next : ptr }.

Record DLList : Type := List { _head : ptr; _tail : ptr; _size : Z }.

Record _iter : Type := Iter { _ptr : ptr; _list : ref }.

Record mem : Type := Mem { nodes : gmap loc _node; lists : gmap ref DLList }.

Definition M (A : Type) : Type := mem → outcome mem A.

Definition ret {A} (a : A) : M A := λ m, Ok a m.

Definition bind {A B} (c : M A) (k : A → M B) : M B := λ m,
  match c m with
  | Ok a m' => k a m'
  | Throw e m' => Throw e m'
  | Undefined => Undefined
  | Timeout => Timeout
  end.

Definition throw {A} (e : exn) : M A := λ m, Throw e m.
Definition undefined {A} : M A := λ _, Undefined.
Definition timeout {A} : M A := λ _, Timeout.

Definition CHECK_THROW (expr : string) (b : bool) : M unit :=
  if b then ret tt else throw (runtime_error expr).

End DLList.

Arguments _node : clear implicits.
Arguments DLList : clear implicits.
Arguments mem : clear implicits.
Arguments M : clear implicits.

#[global] Instance M_ret {T} : MRet (M T) := @ret T.
#[global] Instance M_bind {T} : MBind (M T) := λ A B k c, bind c k.

Section Primitives.

Context {T : Type}.
Implicit Types (m : mem T) (p q : ptr) (a : loc) (this : ref).

(** *** Nodes on the free store *)

(** Reading through a node pointer: [p->...]. *)
Definition load (p : ptr) : M T (_node T) := λ m,
  match p with
  | None => Undefined
  | Some a =>
      match nodes m !! a with
      | None => Undefined
      | Some nd => Ok nd m
      end
  end.

(** Writing through a node pointer. *)
Definition store (p : ptr) (nd : _node T) : M T unit := λ m,
  match p with
  | None => Undefined
  | Some a =>
      match nodes m !! a with
      | None => Undefined
      | Some _ => Ok tt (Mem (<[a := nd]> (nodes m)) (lists m))
      end
  end.

Definition get_val (p : ptr) : M T T := nd ← load p; mret (_val nd).
Definition get_prev (p : ptr) : M T ptr := nd ← load p; mret (_prev nd).
Definition get_next (p : ptr) : M T ptr := nd ← load p; mret (_next nd).

Definition set_prev (p q : ptr) : M T unit :=
  nd ← load p; store p (Node (_val nd) q (_next nd)).
Definition set_next (p q : ptr) : M T unit :=
  nd ← load p; store p (Node (_val nd) (_prev nd) q).

(** [new _node(val,prev,next)]: a node at an address not in use. *)
Definition new_node (val : T) (prev next : ptr) : M T ptr := λ m,
  let a := fresh (dom (nodes m)) in
  Ok (Some a) (Mem (<[a := Node val prev next]> (nodes m)) (lists m)).

(** [delete n]. *)
Definition delete_node (p : ptr) : M T unit := λ m,
  match p with
  | None => Ok tt m
  | Some a =>
      match nodes m !! a with
      | None => Undefined
      | Some _ => Ok tt (Mem (delete a (nodes m)) (lists m))
      end
  end.

(** *** List objects *)

Definition obj (this : ref) : M T (DLList) := λ m,
  match lists m !! this with
  | None => Undefined
  | Some L => Ok L m
  end.

Definition set_obj (this : ref) (L : DLList) : M T unit := λ m,
  Ok tt (Mem (nodes m) (<[this := L]> (lists m))).

Definition get_head this : M T ptr := L ← obj this; mret (_head L).
Definition get_tail this : M T ptr := L ← obj this; mret (_tail L).
Definition get_size this : M T Z := L ← obj this; mret (_size L).

Definition set_head this (p : ptr) : M T unit :=
  L ← obj this; set_obj this (List p (_tail L) (_size L)).
Definition set_tail this (p : ptr) : M T unit :=
  L ← obj this; set_obj this (List (_head L) p (_size L)).
Definition set_size this (z : Z) : M T unit :=
  L ← obj this; set_obj this (List (_head L) (_tail L) z).

(** The storage of an object under construction.  Its fields are
    indeterminate until the constructor writes them (modelled as null and
    0; no constructor reads a field before writing it).  An exception
    thrown by the checks at the start of a constructor leaves no object
    behind, so the storage enters the memory after those checks. *)
Definition storage this : M T unit := set_obj this (List None None 0).

(** A pointer used as a condition: [if (p)], [while (p)]. *)
Definition nonnull (p : ptr) : bool :=
  match p with Some _ => true | None => false end.

(** [n->_val] returned as [T&]: the node that holds the element, together
    with the value found there. *)
Definition ref_val (p : ptr) : M T (loc * T) := λ m,
  match p with
  | None => Undefined
  | Some a =>
      match nodes m !! a with
      | None => Undefined
      | Some nd => Ok (a, _val nd) m
      end
  end.

End Primitives.

(** ** The member functions of [DLList<T>] *)

Section Operations.

Context {T : Type}.
Implicit Types (m : mem T) (p q : ptr) (this other : ref) (val : T).

(** *** Private helpers *)

Fixpoint _clear_loop (fuel : nat) this : M T unit :=
  match fuel with
  | O => timeout
  | S fuel =>
      hd ← get_head this;
      if nonnull hd then
        let n := hd in
        nx ← get_next hd;
        set_head this nx;;
        delete_node n;;
        _clear_loop fuel this
      else mret tt
  end.

(** delete all nodes, does not touch [_size] *)
Definition _clear (fuel : nat) this : M T unit :=
  _clear_loop fuel this;;
  set_tail this None.

Fixpoint _copy_ll_loop (fuel : nat) this (n : ptr) : M T unit :=
  match fuel with
  | O => timeout
  | S fuel =>
      nx ← get_next n;
      if nonnull nx then
        let n := nx in
        v ← get_val n;
        tl ← get_tail this;
        nw ← new_node v tl None;
        set_next tl nw;;
        tl ← get_tail this;
        tn ← get_next tl;
        set_tail this tn;;
        _copy_ll_loop fuel this n
      else mret tt
  end.

(** duplicate linked list, does not clear existing data *)
Definition _copy_ll (fuel : nat) this (n : ptr) : M T unit :=
  if nonnull n then
    v ← get_val n;
    nw ← new_node v None None;
    set_tail this nw;;
    set_head this nw;;
    _copy_ll_loop fuel this n
  else
    set_tail this None;;
    set_head this None.

(** *** Sorting: in place merge sort, stable *)

Section Sort.

Variable comp : T → T → bool.

(** The two-pointer walk to the middle of [beg .. end]. *)
Fixpoint _sort_split (fuel : nat) (m1 m2 : ptr) : M T (ptr * ptr) :=
  match fuel with
  | O => timeout
  | S fuel =>
      n1 ← get_next m1;
      if bool_decide (n1 = m2) then mret (m1, m2)
      else
        let m1 := n1 in
        p2 ← get_prev m2;
        if bool_decide (p2 = m1) then mret (m1, m2)
        else
          let m2 := p2 in
          _sort_split fuel m1 m2
  end.

(** [while (left && right)]: the state is [(left, right, ret_tail)]. *)
Fixpoint _sort_merge (fuel : nat) (left right ret_tail : ptr)
  : M T (ptr * ptr * ptr) :=
  match fuel with
  | O => timeout
  | S fuel =>
      if nonnull left && nonnull right then
        rv ← get_val right;
        lv ← get_val left;
        if comp rv lv then
          set_prev right ret_tail;;
          set_next ret_tail right;;
          right' ← get_next right;
          ret_tail' ← get_next ret_tail;
          _sort_merge fuel left right' ret_tail'
        else
          set_prev left ret_tail;;
          set_next ret_tail left;;
          left' ← get_next left;
          ret_tail' ← get_next ret_tail;
          _sort_merge fuel left' right ret_tail'
      else mret (left, right, ret_tail)
  end.

Fixpoint _sort (fuel : nat) (beg end_ : ptr) : M T (ptr * ptr) :=
  match fuel with
  | O => timeout
  | S fuel' =>
      if bool_decide (beg = end_) then mret (beg, end_)
      else
        '(m1, m2) ← _sort_split fuel beg end_;
        set_next m1 None;;
        set_prev m2 None;;
        sorted_left ← _sort fuel' beg m1;
        sorted_right ← _sort fuel' m2 end_;
        let left := sorted_left.1 in
        let right := sorted_right.1 in
        (* first node, ensuring stable order *)
        rv ← get_val right;
        lv ← get_val left;
        '(ret_head, ret_tail, left, right) ←
          (if comp rv lv then
             right' ← get_next right; mret (right, right, left, right')
           else
             left' ← get_next left; mret (left, left, left', right));
        '(left, right, ret_tail) ← _sort_merge fuel left right ret_tail;
        if nonnull left then
          set_prev left ret_tail;;
          set_next ret_tail left;;
          mret (ret_head, sorted_left.2)
        else
          set_prev right ret_tail;;
          set_next ret_tail right;;
          mret (ret_head, sorted_right.2)
  end.

(** sort driver function *)
Definition _sort_init (fuel : nat) this : M T unit :=
  hd ← get_head this;
  tl ← get_tail this;
  sorted ← _sort fuel hd tl;
  set_head this sorted.1;;
  set_tail this sorted.2.

Definition sort (fuel : nat) this : M T unit :=
  hd ← get_head this;
  if nonnull hd then _sort_init fuel this else mret tt.

End Sort.

(** [sort()] without a comparator uses [a < b], the [operator<] of [T]. *)
Definition sort_default (T_lt : T → T → bool) (fuel : nat) this : M T unit :=
  sort (λ x y, T_lt x y) fuel this.

(** *** Constructors and assignment *)

(** [DLList()] *)
Definition DLList_default this : M T unit :=
  set_obj this (List None None 0).

(** [while (--siz)] of the count-and-fill constructor. *)
Fixpoint DLList_fill_loop (fuel : nat) this (siz : Z) val : M T unit :=
  match fuel with
  | O => timeout
  | S fuel =>
      let siz := to_int64 (siz - 1) in
      if bool_decide (siz ≠ 0) then
        tl ← get_tail this;
        nw ← new_node val tl None;
        set_next tl nw;;
        tl ← get_tail this;
        tn ← get_next tl;
        set_tail this tn;;
        DLList_fill_loop fuel this siz val
      else mret tt
  end.

(** [DLList(siz,val)] *)
Definition DLList_fill (fuel : nat) this (siz : Z) val : M T unit :=
  CHECK_THROW chk_siz_nonneg (bool_decide (siz >= 0));;
  CHECK_THROW chk_siz_bound (bool_decide (siz < 1 ≪ 48));;
  storage this;;
  set_size this (wrap64 siz);;
  if bool_decide (siz = 0) then
    set_tail this None;;
    set_head this None
  else
    nw ← new_node val None None;
    set_tail this nw;;
    set_head this nw;;
    DLList_fill_loop fuel this siz val.

(** The body of the range-for of the initializer-list constructor. *)
Definition DLList_init_step this val : M T unit :=
  tl ← get_tail this;
  if nonnull tl then
    nw ← new_node val tl None;
    set_next tl nw;;
    tl ← get_tail this;
    tn ← get_next tl;
    set_tail this tn
  else
    nw ← new_node val None None;
    set_tail this nw;;
    set_head this nw.

Fixpoint DLList_init_loop this (vals : list T) : M T unit :=
  match vals with
  | [] => mret tt
  | val :: vals => DLList_init_step this val;; DLList_init_loop this vals
  end.

(** [DLList({val0,val1,...})] *)
Definition DLList_init this (vals : list T) : M T unit :=
  storage this;;
  set_tail this None;;
  set_head this None;;
  DLList_init_loop this vals;;
  set_size this (wrap64 (Z.of_nat (length vals))).

(** [DLList(const DLList<T>& list)] *)
Definition DLList_copy (fuel : nat) this other : M T unit :=
  storage this;;
  hd ← get_head other;
  _copy_ll fuel this hd;;
  sz ← get_size other;
  set_size this sz.

(** [DLList(DLList<T>&& list)] *)
Definition DLList_move this other : M T unit :=
  storage this;;
  hd ← get_head other;
  set_head this hd;;
  tl ← get_tail other;
  set_tail this tl;;
  sz ← get_size other;
  set_size this sz;;
  set_tail other None;;
  set_head other None.

(** [operator=(const DLList<T>& list)] *)
Definition assign_copy (fuel : nat) this other : M T unit :=
  _clear fuel this;;
  hd ← get_head other;
  _copy_ll fuel this hd;;
  sz ← get_size other;
  set_size this sz.

(** [operator=(DLList<T>&& list)] *)
Definition assign_move (fuel : nat) this other : M T unit :=
  _clear fuel this;;
  hd ← get_head other;
  set_head this hd;;
  tl ← get_tail other;
  set_tail this tl;;
  sz ← get_size other;
  set_size this sz;;
  set_tail other None;;
  set_head other None.

(** *** Observers *)

Definition begin this : M T _iter := hd ← get_head this; mret (Iter hd this).
Definition end_ this : M T _iter := mret (Iter None this).
Definition size this : M T Z := get_size this.
Definition empty this : M T bool := sz ← get_size this; mret (bool_decide (sz = 0)).

Section Equality.

(** [operator!=] of the element type. *)
Variable T_ne : T → T → bool.

Fixpoint eq_loop (fuel : nat) (n1 n2 : ptr) : M T bool :=
  match fuel with
  | O => timeout
  | S fuel =>
      if nonnull n1 then
        v1 ← get_val n1;
        v2 ← get_val n2;
        if T_ne v1 v2 then mret false
        else
          n1' ← get_next n1;
          n2' ← get_next n2;
          eq_loop fuel n1' n2'
      else mret true
  end.

(** [operator==(const DLList<T>& list)] *)
Definition eq_op (fuel : nat) this other : M T bool :=
  s1 ← get_size this;
  s2 ← get_size other;
  if bool_decide (s1 ≠ s2) then mret false
  else
    n1 ← get_head this;
    n2 ← get_head other;
    eq_loop fuel n1 n2.

End Equality.

(** *** Indexed access *)

(** [while (++j < _size) n = n->_prev;] *)
Fixpoint get_back (fuel : nat) (j sz : Z) (n : ptr) : M T ptr :=
  match fuel with
  | O => timeout
  | S fuel =>
      let j := wrap64 (j + 1) in
      if j <? sz then
        n' ← get_prev n;
        get_back fuel j sz n'
      else mret n
  end.

(** [while (j--) n = n->_next;] *)
Fixpoint get_fwd (fuel : nat) (j : Z) (n : ptr) : M T ptr :=
  match fuel with
  | O => timeout
  | S fuel =>
      if bool_decide (j ≠ 0) then
        let j := wrap64 (j - 1) in
        n' ← get_next n;
        get_fwd fuel j n'
      else mret n
  end.

(** [get(i)] *)
Definition get (fuel : nat) this (i : Z) : M T (loc * T) :=
  sz ← get_size this;
  CHECK_THROW chk_index
    ((i <? to_int64 sz) && (i >=? neg64 (to_int64 sz)));;
  let j := if i >=? 0 then wrap64 i else wrap64 (sz + i) in
  if j >=? sz `div` 2 then
    n ← get_tail this;
    n ← get_back fuel j sz n;
    ref_val n
  else
    n ← get_head this;
    n ← get_fwd fuel j n;
    ref_val n.

(** *** Mutation primitives *)

Definition push_front this val : M T unit :=
  hd ← get_head this;
  (if nonnull hd then
     nw ← new_node val None hd;
     set_prev hd nw;;
     hd ← get_head this;
     hp ← get_prev hd;
     set_head this hp
   else
     nw ← new_node val None None;
     set_tail this nw;;
     set_head this nw);;
  sz ← get_size this;
  set_size this (wrap64 (sz + 1)).

Definition push_back this val : M T unit :=
  hd ← get_head this;
  (if nonnull hd then
     tl ← get_tail this;
     nw ← new_node val tl None;
     set_next tl nw;;
     tl ← get_tail this;
     tn ← get_next tl;
     set_tail this tn
   else
     nw ← new_node val None None;
     set_tail this nw;;
     set_head this nw);;
  sz ← get_size this;
  set_size this (wrap64 (sz + 1)).

Definition pop_front this : M T T :=
  hd ← get_head this;
  CHECK_THROW chk_head (nonnull hd);;
  r ← get_val hd;
  let n := hd in
  nx ← get_next hd;
  set_head this nx;;
  delete_node n;;
  hd ← get_head this;
  (if nonnull hd then set_prev hd None else set_tail this None);;
  sz ← get_size this;
  set_size this (wrap64 (sz - 1));;
  mret r.

Definition pop_back this : M T T :=
  tl ← get_tail this;
  CHECK_THROW chk_tail (nonnull tl);;
  r ← get_val tl;
  let n := tl in
  pv ← get_prev tl;
  set_tail this pv;;
  delete_node n;;
  tl ← get_tail this;
  (if nonnull tl then set_next tl None else set_head this None);;
  sz ← get_size this;
  set_size this (wrap64 (sz - 1));;
  mret r.

Definition clear (fuel : nat) this : M T unit :=
  _clear fuel this;;
  set_size this 0.

(** [operator+=(DLList<T>&& list)] *)
Definition append_move this other : M T unit :=
  hd ← get_head this;
  if negb (nonnull hd) then (* this is empty so move *)
    ohd ← get_head other;
    set_head this ohd;;
    otl ← get_tail other;
    set_tail this otl;;
    osz ← get_size other;
    set_size this osz;;
    set_tail other None;;
    set_head other None
  else
    ohd ← get_head other;
    if nonnull ohd then (* both nonempty *)
      tl ← get_tail this;
      set_next tl ohd;;
      ohd ← get_head other;
      tl ← get_tail this;
      set_prev ohd tl;;
      otl ← get_tail other;
      set_tail this otl;;
      set_tail other None;;
      set_head other None;;
      sz ← get_size this;
      osz ← get_size other;
      set_size this (wrap64 (sz + osz))
    else mret tt.

Fixpoint reverse_loop (fuel : nat) (n : ptr) : M T unit :=
  match fuel with
  | O => timeout
  | S fuel =>
      if nonnull n then
        (* std::swap(n->_next,n->_prev) *)
        nx ← get_next n;
        pv ← get_prev n;
        set_next n pv;;
        set_prev n nx;;
        n' ← get_next n;
        reverse_loop fuel n'
      else mret tt
  end.

Definition reverse (fuel : nat) this : M T unit :=
  (* std::swap(_head,_tail) *)
  hd ← get_head this;
  tl ← get_tail this;
  set_head this tl;;
  set_tail this hd;;
  n ← get_head this;
  reverse_loop fuel n.

(** *** Iterators *)

Definition iter_eq (i1 i2 : _iter) : bool := bool_decide (_ptr i1 = _ptr i2).

(** [operator*] *)
Definition iter_deref (it : _iter) : M T (loc * T) :=
  CHECK_THROW chk_ptr (nonnull (_ptr it));;
  ref_val (_ptr it).

(** [operator++] *)
Definition iter_incr (it : _iter) : M T _iter :=
  if nonnull (_ptr it) then
    nx ← get_next (_ptr it); mret (Iter nx (_list it))
  else
    hd ← get_head (_list it); mret (Iter hd (_list it)).

(** [operator--] *)
Definition iter_decr (it : _iter) : M T _iter :=
  if nonnull (_ptr it) then
    pv ← get_prev (_ptr it); mret (Iter pv (_list it))
  else
    tl ← get_tail (_list it); mret (Iter tl (_list it)).

(** [n] applications of an iterator step. *)
Fixpoint iter_times (n : nat) (step : _iter → M T _iter) (it : _iter)
  : M T _iter :=
  match n with
  | O => mret it
  | S n => it' ← step it; iter_times n step it'
  end.

(** *** Insert and erase *)

Definition insert this (itr : _iter) val : M T _iter :=
  b ← begin this;
  if iter_eq itr b then
    push_front this val;;
    begin this
  else
    e ← end_ this;
    if iter_eq itr e then
      push_back this val;;
      tl ← get_tail this;
      mret (Iter tl this)
    else
      sz ← get_size this;
      set_size this (wrap64 (sz + 1));;
      pv ← get_prev (_ptr itr);
      n ← new_node val pv (_ptr itr);
      pv ← get_prev (_ptr itr);
      set_next pv n;;
      set_prev (_ptr itr) n;;
      mret (Iter n this).

Definition erase this (itr : _iter) : M T _iter :=
  e ← end_ this;
  CHECK_THROW chk_not_end (negb (iter_eq itr e));;
  b ← begin this;
  if iter_eq itr b then
    pop_front this;;
    begin this
  else
    sz ← get_size this;
    set_size this (wrap64 (sz - 1));;
    tl ← get_tail this;
    if bool_decide (_ptr itr = tl) then
      pv ← get_prev (_ptr itr);
      set_tail this pv;;
      tl ← get_tail this;
      set_next tl None;;
      delete_node (_ptr itr);;
      end_ this
    else
      pv ← get_prev (_ptr itr);
      nx ← get_next (_ptr itr);
      set_next pv nx;;
      nx ← get_next (_ptr itr);
      pv ← get_prev (_ptr itr);
      set_prev nx pv;;
      nx ← get_next (_ptr itr);
      let ret := Iter nx this in
      delete_node (_ptr itr);;
      mret ret.

End Operations.

(** ** The remaining member functions *)

Section MoreOperations.

Context {T : Type}.
Implicit Types (m : mem T) (p q : ptr) (this other : ref) (val : T).

(** The end of the lifetime of the object [this]. *)
Definition end_obj this : M T unit := λ m,
  Ok tt (Mem (nodes m) (delete this (lists m))).

(** [~DLList()]: the nodes are freed, and the object is gone. *)
Definition destroy (fuel : nat) this : M T unit :=
  _clear fuel this;;
  end_obj this.

(** [operator!=(const DLList<T>& list)] *)
Definition ne_op (T_ne : T → T → bool) (fuel : nat) this other : M T bool :=
  b ← eq_op T_ne fuel this other;
  mret (negb b).

(** [_iter::operator!=] and [_iter::operator bool]; [_citer] has the same
    members, so the iterators of a const list are modelled by [_iter]
    too. *)
Definition iter_ne (i1 i2 : _iter) : bool := bool_decide (_ptr i1 ≠ _ptr i2).
Definition iter_bool (it : _iter) : bool := nonnull (_ptr it).

(** [operator+=(const T& val)] and [operator-=(const T& val)] *)
Definition append_val this val : M T unit := push_back this val.
Definition prepend_val this val : M T unit := push_front this val.

(** The range-for of [operator+=(const DLList<T>& list)]: [__begin] and
    [__end] are taken once, before the first step. *)
Fixpoint append_copy_loop (fuel : nat) this (itr e : _iter) : M T unit :=
  match fuel with
  | O => timeout
  | S fuel =>
      if iter_ne itr e then
        c ← iter_deref itr;
        append_val this c.2;;
        itr ← iter_incr itr;
        append_copy_loop fuel this itr e
      else mret tt
  end.

(** [operator+=(const DLList<T>& list)] *)
Definition append_copy (fuel : nat) this other : M T unit :=
  b ← begin other;
  e ← end_ other;
  append_copy_loop fuel this b e.

(** [for (size_t i = 0; i < n; ++i) ret += func(i);] *)
Fixpoint fromFunc_loop (fuel : nat) ret (i n : Z) (func : Z → T) : M T unit :=
  match fuel with
  | O => timeout
  | S fuel =>
      if i <? n then
        append_val ret (func i);;
        fromFunc_loop fuel ret (wrap64 (i + 1)) n func
      else mret tt
  end.

(** [fromFunc(n,func)], with the local list [ret] built in the storage of
    the returned object (the copy of [return ret;] is elided). *)
Definition fromFunc (fuel : nat) ret (n : Z) (func : Z → T) : M T unit :=
  DLList_default ret;;
  fromFunc_loop fuel ret 0 n func.

Section Printing.

(** [os << val] for the element type: the text it writes. *)
Variable show : T → string.

(** [while (itr != list.end()) { os << "," << *itr; ++itr; }] *)
Fixpoint print_loop (fuel : nat) (os : string) list (itr : _iter) : M T string :=
  match fuel with
  | O => timeout
  | S fuel =>
      e ← end_ list;
      if iter_ne itr e then
        c ← iter_deref itr;
        let os := os +:+ "," +:+ show c.2 in
        itr ← iter_incr itr;
        print_loop fuel os list itr
      else mret os
  end.

(** [operator<<(std::ostream& os, const DLList<T>& list)]: the stream is
    the text written so far, and the result is the text after the call.
    (A throw of [*itr] loses the text written before it.) *)
Definition print (fuel : nat) (os : string) list : M T string :=
  let os := os +:+ "DLList[" in
  sz ← size list;
  os ← (if 0 <? sz then
          itr ← begin list;
          c ← iter_deref itr;
          let os := os +:+ show c.2 in
          itr ← iter_incr itr;
          print_loop fuel os list itr
        else mret os);
  mret (os +:+ "]").

End Printing.

End MoreOperations.

(** ** Representation: a chain of nodes as a sequence of cells *)

Section Representation.

Context {T : Type}.
Implicit Types (h : gmap loc (_node T)) (m : mem T) (p n : ptr)
  (c : loc * T) (cs : list (loc * T)) (this : ref).

(** The pointer to the first cell of [cs], or [n] when there is none. *)
Definition first_ptr cs n : ptr :=
  match cs with
  | [] => n
  | c :: _ => Some c.1
  end.

(** The pointer to the last cell of [cs], or [p] when there is none. *)
Definition last_ptr p cs : ptr :=
  match last cs with
  | Some c => Some c.1
  | None => p
  end.

(** The position with index [k]: the node of the [k]-th cell, and the
    sentinel (null) past the last one. *)
Definition pos_at cs (k : nat) : ptr := fst <$> cs !! k.

(** The predecessor of position [k]. *)
Definition prev_pos cs (k : nat) : ptr :=
  match k with
  | O => None
  | S k' => pos_at cs k'
  end.

(** [dseg h p cs n]: in [h] the cells [cs] are linked in both directions;
    the first one has [p] as its predecessor and the last one [n] as its
    successor. *)
Fixpoint dseg h p cs n : Prop :=
  match cs with
  | [] => True
  | c :: cs' =>
      h !! c.1 = Some (Node c.2 p (first_ptr cs' n)) ∧ dseg h (Some c.1) cs' n
  end.

(** [dll m this cs]: the object [this] is a well-formed list whose nodes,
    from head to tail, are the cells [cs]. *)
Definition dll m this cs : Prop :=
  ∃ L, lists m !! this = Some L ∧
       _head L = first_ptr cs None ∧
       _tail L = last_ptr None cs ∧
       _size L = Z.of_nat (length cs) ∧
       Z.of_nat (length cs) < 2 ^ 63 ∧
       NoDup cs.*1 ∧
       dseg (nodes m) None cs None.

(** A position of the list: one of its nodes or the sentinel. *)
Definition valid_pos this cs (it : _iter) : Prop :=
  _list it = this ∧ ∃ k, (k ≤ length cs)%nat ∧ _ptr it = pos_at cs k.

(** What [std::swap(n->_next,n->_prev)] does to a node. *)
Definition swap_links (nd : _node T) : _node T :=
  Node (_val nd) (_next nd) (_prev nd).

(** [h'] is [h] with the links of the nodes of [cs] swapped. *)
Definition swapped_on cs h h' : Prop :=
  ∀ a, h' !! a = if decide (a ∈ cs.*1) then swap_links <$> h !! a else h !! a.

(** The state of the merge loop: the merged cells [acc ++ [t]] ([t] is
    [ret_tail], whose next link is not yet meaningful) and what remains
    of the two halves. *)
Definition merge_inv h acc t l r : Prop :=
  ∃ nx pl pr,
    dseg h None acc (Some t.1) ∧
    h !! t.1 = Some (Node t.2 (last_ptr None acc) nx) ∧
    dseg h pl l None ∧ dseg h pr r None ∧
    NoDup (acc ++ t :: l ++ r).*1.

(** A computation that never throws (it may still be undefined). *)
Definition no_throw {A} (c : M T A) : Prop := ∀ m e m', c m ≠ Throw e m'.

End Representation.

Arguments no_throw {T A} c.

(** ** Shapes and frames *)

Section Frames.

Context {T : Type}.
Implicit Types (m : mem T) (cs : list (loc * T)) (this : ref).

(** [shape m this cs sz]: the object [this] heads the chain of the cells
    [cs] and its [_size] field holds [sz], whatever that is. *)
Definition shape m this cs (sz : Z) : Prop :=
  lists m !! this = Some (List (first_ptr cs None) (last_ptr None cs) sz) ∧
  NoDup cs.*1 ∧
  dseg (nodes m) None cs None.

(** [m'] differs from [m] at most in the object [this], in the nodes of
    [cs], and in nodes that [m] did not have. *)
Definition modifies_only this cs m m' : Prop :=
  (∀ r, r ≠ this → lists m' !! r = lists m !! r) ∧
  (∀ a, a ∈ dom (nodes m) → a ∉ cs.*1 → nodes m' !! a = nodes m !! a).

(** [m'] is [m] after the list [this], of cells [cs], has got the new
    cells [new] linked behind its tail; its [_size] field then holds
    [sz']. *)
Definition grown this cs new (sz' : Z) m m' : Prop :=
  shape m' this (cs ++ new) sz' ∧
  modifies_only this cs m m' ∧
  (∀ a, a ∈ new.*1 → a ∉ dom (nodes m)) ∧
  dom (nodes m') = dom (nodes m) ∪ list_to_set new.*1.

(** [m'] is [m] with a new well-formed list [this] of cells [cs], all on
    nodes that [m] did not have and that are the only ones allocated; no
    node and no other object of [m] is changed. *)
Definition constructed this cs m m' : Prop :=
  dll m' this cs ∧
  (∀ a, a ∈ cs.*1 → a ∉ dom (nodes m)) ∧
  dom (nodes m') = dom (nodes m) ∪ list_to_set cs.*1 ∧
  (∀ a, a ∈ dom (nodes m) → nodes m' !! a = nodes m !! a) ∧
  (∀ r, r ≠ this → lists m' !! r = lists m !! r).

(** A computation that writes no list object other than [this]. *)
Definition keeps_objects_but this {A} (c : M T A) : Prop :=
  ∀ m a m', c m = Ok a m' → ∀ r, r ≠ this → lists m' !! r = lists m !! r.

(** A computation that allocates and frees no node. *)
Definition keeps_nodes_in_use {A} (c : M T A) : Prop :=
  ∀ m a m', c m = Ok a m' → dom (nodes m') = dom (nodes m).

End Frames.

(** ** Checking well-formedness by computation *)

Section Check.

Context {T : Type} `{EqDecision T}.
Implicit Types (h : gmap loc (_node T)) (m : mem T) (p n : ptr)
  (c : loc * T) (cs : list (loc * T)) (this : ref).

#[global] Instance _node_eq_dec : EqDecision (_node T).
Proof. solve_decision. Defined.

#[global] Instance DLList_eq_dec : EqDecision DLList.
Proof. solve_decision. Defined.

Fixpoint dseg_check h p cs n : bool :=
  match cs with
  | [] => true
  | c :: cs' =>
      bool_decide (h !! c.1 = Some (Node c.2 p (first_ptr cs' n)))
      && dseg_check h (Some c.1) cs' n
  end.

Definition dll_check m this cs : bool :=
  bool_decide (lists m !! this
               = Some (List (first_ptr cs None) (last_ptr None cs)
                         (Z.of_nat (length cs))))
  && bool_decide (Z.of_nat (length cs) < 2 ^ 63)
  && bool_decide (NoDup cs.*1)
  && dseg_check (nodes m) None cs None.

End Check.

(** ** A concrete memory *)

(** The list object [1] with the nodes [1] (30), [2] (10) and [3] (20). *)
Definition demo_cells : list (loc * Z) :=
  [(1%positive, 30); (2%positive, 10); (3%positive, 20)].

Definition demo_mem : mem Z :=
  Mem (list_to_map
         [(1%positive, Node 30 None (Some 2%positive));
          (2%positive, Node 10 (Some 1%positive) (Some 3%positive));
          (3%positive, Node 20 (Some 2%positive) None)])
      (list_to_map
         [(1%positive, List (Some 1%positive) (Some 3%positive) 3)]).

Definition empty_mem : mem Z := Mem ∅ ∅.

(** The list object [1] as in [demo_mem], and the list object [2] with
    the nodes [4] (7) and [5] (8). *)
Definition other_cells : list (loc * Z) := [(4%positive, 7); (5%positive, 8)].

Definition two_mem : mem Z :=
  Mem (list_to_map
         [(1%positive, Node 30 None (Some 2%positive));
          (2%positive, Node 10 (Some 1%positive) (Some 3%positive));
          (3%positive, Node 20 (Some 2%positive) None);
          (4%positive, Node 7 None (Some 5%positive));
          (5%positive, Node 8 (Some 4%positive) None)])
      (list_to_map
         [(1%positive, List (Some 1%positive) (Some 3%positive) 3);
          (2%positive, List (Some 4%positive) (Some 5%positive) 2)]).

(** The empty list object [1]. *)
Definition nil_mem : mem Z := Mem ∅ (list_to_map [(1%positive, List None None 0)]).

(** What a computation returns, its final memory left aside. *)
Definition result_of {S A} (o : outcome S A) : option A :=
  match o with
  | Ok a _ => Some a
  | _ => None
  end.

(** The whole memory, for observation. *)
Definition snapshot {T} : M T (mem T) := λ m, Ok m m.

(** [operator!=] and [operator<] of the element type [Z]. *)
Definition Z_ne (a b : Z) : bool := negb (a =? b).
Definition Z_lt (a b : Z) : bool := a <? b.

(** ** Vocabulary of the sorting claims *)

Section SortVocabulary.

Context {T : Type}.
Variable comp : T → T → bool.
Implicit Types (x y z k : T) (c : loc * T) (cs l r : list (loc * T)).

(** A strict weak ordering: irreflexive, transitive, and with a transitive
    incomparability relation. *)
Definition incomparable x y : Prop := comp x y = false ∧ comp y x = false.

Record strict_weak_order : Prop := {
  swo_irrefl : ∀ x, comp x x = false;
  swo_trans : ∀ x y z, comp x y = true → comp y z = true → comp x z = true;
  swo_incomp_trans : ∀ x y z, incomparable x y → incomparable y z → incomparable x z
}.

(** Ascending order: no later cell is less than an earlier one. *)
Definition ascending cs : Prop :=
  StronglySorted (λ c1 c2, comp c2.2 c1.2 = false) cs.

(** [c1] occurs somewhere before [c2] in [cs]. *)
Definition before cs c1 c2 : Prop := [c1; c2] `sublist_of` cs.

(** Cells with incomparable values keep their relative order. *)
Definition stable cs cs' : Prop :=
  ∀ c1 c2, incomparable c1.2 c2.2 → before cs c1 c2 → before cs' c1 c2.

(** The cells whose value is incomparable with [k]. *)
Definition same_key k c : Prop := incomparable k c.2.

Global Instance same_key_dec k c : Decision (same_key k c).
Proof. unfold same_key, incomparable. apply _. Defined.

(** The merge of the loops of [_sort]: take from the right only when
    [comp(right,left)]. *)
Fixpoint merge l : list (loc * T) → list (loc * T) :=
  fix merge_right r :=
    match l, r with
    | [], _ => r
    | _, [] => l
    | x :: l', y :: r' =>
        if comp y.2 x.2 then y :: merge_right r' else x :: merge l' r
    end.

(** What one call of [_sort] achieves on the cells [cs]. *)
Definition sorted_of cs cs' : Prop :=
  cs' ≡ₚ cs ∧ ascending cs' ∧ ∀ k, filter (same_key k) cs' = filter (same_key k) cs.

End SortVocabulary.

Arguments swo_irrefl {T comp} _ x.
Arguments swo_trans {T comp} _ x y z _ _.
Arguments swo_incomp_trans {T comp} _ x y z _ _.

(** The index reached by advancing, and by receding, on the cycle of the
    [len] nodes and the sentinel (index [len]). *)
Definition next_idx (len k : nat) : nat := if decide (k = len) then 0%nat else S k.
Definition prev_idx (len k : nat) : nat := match k with O => len | S k' => k' end.

(** ** Facts about segments *)

Section RepresentationFacts.

Context {T : Type}.
Implicit Types (h : gmap loc (_node T)) (m : mem T) (p n : ptr)
  (c : loc * T) (cs : list (loc * T)) (this : ref).

Lemma last_ptr_nil p : last_ptr p ([] : list (loc * T)) = p.
Proof. done. Qed.

Lemma last_ptr_snoc p cs c : last_ptr p (cs ++ [c]) = Some c.1.
Proof. unfold last_ptr. by rewrite last_snoc. Qed.

Lemma last_ptr_cons p c cs : last_ptr p (c :: cs) = last_ptr (Some c.1) cs.
Proof.
  unfold last_ptr. destruct cs as [|c' cs]; [done|].
  change (last (c :: c' :: cs)) with (last (c' :: cs)).
  by destruct (last (c' :: cs)) eqn:E; [|apply last_None in E].
Qed.

Lemma last_ptr_app p cs1 cs2 :
  last_ptr p (cs1 ++ cs2) = last_ptr (last_ptr p cs1) cs2.
Proof.
  revert p. induction cs1 as [|c cs1 IH]; intros p; [done|].
  rewrite <-app_comm_cons, !last_ptr_cons. apply IH.
Qed.

Lemma first_ptr_app cs1 cs2 n :
  first_ptr (cs1 ++ cs2) n = first_ptr cs1 (first_ptr cs2 n).
Proof. by destruct cs1. Qed.

Lemma pos_at_0 cs : pos_at cs 0 = first_ptr cs None.
Proof. by destruct cs. Qed.

Lemma pos_at_length cs : pos_at cs (length cs) = None.
Proof. unfold pos_at. by rewrite lookup_ge_None_2. Qed.

Lemma pos_at_last cs : pos_at cs (pred (length cs)) = last_ptr None cs.
Proof.
  unfold pos_at, last_ptr. rewrite last_lookup. by destruct (cs !! _).
Qed.

Lemma dseg_app h p cs1 cs2 n :
  dseg h p (cs1 ++ cs2) n ↔
  dseg h p cs1 (first_ptr cs2 n) ∧ dseg h (last_ptr p cs1) cs2 n.
Proof.
  revert p. induction cs1 as [|c cs1 IH]; intros p; simpl.
  - rewrite last_ptr_nil. tauto.
  - rewrite IH, first_ptr_app, last_ptr_cons. tauto.
Qed.

Lemma dseg_snoc h p cs c n :
  dseg h p (cs ++ [c]) n ↔
  dseg h p cs (Some c.1) ∧ h !! c.1 = Some (Node c.2 (last_ptr p cs) n).
Proof. rewrite dseg_app. simpl. tauto. Qed.

(** A segment only depends on the nodes it names. *)
Lemma dseg_frame h h' p cs n :
  (∀ a, a ∈ cs.*1 → h' !! a = h !! a) →
  dseg h p cs n → dseg h' p cs n.
Proof.
  revert p. induction cs as [|c cs IH]; intros p Hag; simpl; [done|].
  intros [Hc Hcs]. split.
  - rewrite Hag; [done|]. simpl. left.
  - apply IH; [|done]. intros a Ha. apply Hag. simpl. by right.
Qed.

(** The node of the [k]-th cell and its two links. *)
Lemma dseg_lookup h p cs n k c :
  dseg h p cs n → cs !! k = Some c →
  h !! c.1 = Some (Node c.2 (last_ptr p (take k cs)) (first_ptr (drop (S k) cs) n)).
Proof.
  intros Hseg Hk.
  rewrite <-(take_drop_middle cs k c Hk) in Hseg.
  apply dseg_app in Hseg as [_ Hseg]. simpl in Hseg. by destruct Hseg.
Qed.

Lemma dseg_is_Some h p cs n a :
  dseg h p cs n → a ∈ cs.*1 → is_Some (h !! a).
Proof.
  intros Hseg [c [-> Hc]]%list_elem_of_fmap.
  apply list_elem_of_lookup in Hc as [k Hk].
  rewrite (dseg_lookup _ _ _ _ _ _ Hseg Hk). eauto.
Qed.

Lemma first_ptr_drop cs k : first_ptr (drop k cs) None = pos_at cs k.
Proof.
  unfold pos_at. revert k. induction cs as [|c cs IH]; intros [|k]; simpl; done.
Qed.

Lemma last_ptr_take cs k :
  last_ptr None (take (S k) cs) = pos_at cs (k `min` pred (length cs)).
Proof.
  unfold pos_at, last_ptr. rewrite last_lookup, length_take.
  destruct (decide (S k ≤ length cs)%nat).
  - replace (pred (S k `min` length cs)) with k by lia.
    replace (k `min` pred (length cs))%nat with k by lia.
    rewrite lookup_take_lt by lia. by destruct (cs !! k).
  - replace (pred (S k `min` length cs)) with (pred (length cs)) by lia.
    replace (k `min` pred (length cs))%nat with (pred (length cs)) by lia.
    destruct cs as [|c0 cs0]; [done|].
    rewrite lookup_take_lt by (simpl in *; lia). by destruct (_ !! _).
Qed.

End RepresentationFacts.

(** ** Symbolic execution of the primitives *)

Section Exec.
Context {T : Type}.
Implicit Types (h : gmap loc (_node T)) (m : mem T) (p q n : ptr)
  (c : loc * T) (cs : list (loc * T)) (this : ref).

Lemma bind_Ok {A B} (c : M T A) (k : A → M T B) m a m' :
  c m = Ok a m' → (c ≫= k) m = k a m'.
Proof. intros H. unfold mbind, M_bind, bind. by rewrite H. Qed.

Lemma bind_Throw {A B} (c : M T A) (k : A → M T B) m e m' :
  c m = Throw e m' → (c ≫= k) m = Throw e m'.
Proof. intros H. unfold mbind, M_bind, bind. by rewrite H. Qed.

Lemma bind_assoc {A B C} (c : M T A) (k1 : A → M T B) (k2 : B → M T C) m :
  ((c ≫= k1) ≫= k2) m = (c ≫= λ x, k1 x ≫= k2) m.
Proof. unfold mbind, M_bind, bind. by destruct (c m). Qed.

Lemma ret_run {A} (x : A) m : (mret x : M T A) m = Ok x m.
Proof. done. Qed.

Lemma load_run m a nd : nodes m !! a = Some nd → load (Some a) m = Ok nd m.
Proof. intros H. unfold load. by rewrite H. Qed.

Lemma store_run m a nd nd' :
  nodes m !! a = Some nd →
  store (Some a) nd' m = Ok tt (Mem (<[a := nd']> (nodes m)) (lists m)).
Proof. intros H. unfold store. by rewrite H. Qed.

Lemma get_val_run m a nd :
  nodes m !! a = Some nd → get_val (Some a) m = Ok (_val nd) m.
Proof. intros H. unfold get_val. by rewrite (bind_Ok _ _ _ _ _ (load_run _ _ _ H)). Qed.

Lemma get_prev_run m a nd :
  nodes m !! a = Some nd → get_prev (Some a) m = Ok (_prev nd) m.
Proof. intros H. unfold get_prev. by rewrite (bind_Ok _ _ _ _ _ (load_run _ _ _ H)). Qed.

Lemma get_next_run m a nd :
  nodes m !! a = Some nd → get_next (Some a) m = Ok (_next nd) m.
Proof. intros H. unfold get_next. by rewrite (bind_Ok _ _ _ _ _ (load_run _ _ _ H)). Qed.

Lemma set_prev_run m a nd q :
  nodes m !! a = Some nd →
  set_prev (Some a) q m
  = Ok tt (Mem (<[a := Node (_val nd) q (_next nd)]> (nodes m)) (lists m)).
Proof.
  intros H. unfold set_prev. rewrite (bind_Ok _ _ _ _ _ (load_run _ _ _ H)).
  by apply store_run with nd.
Qed.

Lemma set_next_run m a nd q :
  nodes m !! a = Some nd →
  set_next (Some a) q m
  = Ok tt (Mem (<[a := Node (_val nd) (_prev nd) q]> (nodes m)) (lists m)).
Proof.
  intros H. unfold set_next. rewrite (bind_Ok _ _ _ _ _ (load_run _ _ _ H)).
  by apply store_run with nd.
Qed.

Lemma ref_val_run m a nd :
  nodes m !! a = Some nd → ref_val (Some a) m = Ok (a, _val nd) m.
Proof. intros H. unfold ref_val. by rewrite H. Qed.

Lemma new_node_run m v p n :
  new_node v p n m
  = Ok (Some (fresh (dom (nodes m))))
       (Mem (<[fresh (dom (nodes m)) := Node v p n]> (nodes m)) (lists m)).
Proof. done. Qed.

Lemma delete_node_run m a nd :
  nodes m !! a = Some nd →
  delete_node (Some a) m = Ok tt (Mem (delete a (nodes m)) (lists m)).
Proof. intros H. unfold delete_node. by rewrite H. Qed.

Lemma obj_run m this L : lists m !! this = Some L → obj this m = Ok L m.
Proof. intros H. unfold obj. by rewrite H. Qed.

Lemma set_obj_run m this L :
  set_obj this L m = Ok tt (Mem (nodes m) (<[this := L]> (lists m))).
Proof. done. Qed.

Lemma storage_run m this :
  storage this m = Ok tt (Mem (nodes m) (<[this := List None None 0]> (lists m))).
Proof. done. Qed.

Lemma get_head_run m this L :
  lists m !! this = Some L → get_head this m = Ok (_head L) m.
Proof. intros H. unfold get_head. by rewrite (bind_Ok _ _ _ _ _ (obj_run _ _ _ H)). Qed.

Lemma get_tail_run m this L :
  lists m !! this = Some L → get_tail this m = Ok (_tail L) m.
Proof. intros H. unfold get_tail. by rewrite (bind_Ok _ _ _ _ _ (obj_run _ _ _ H)). Qed.

Lemma get_size_run m this L :
  lists m !! this = Some L → get_size this m = Ok (_size L) m.
Proof. intros H. unfold get_size. by rewrite (bind_Ok _ _ _ _ _ (obj_run _ _ _ H)). Qed.

Lemma set_head_run m this L p :
  lists m !! this = Some L →
  set_head this p m
  = Ok tt (Mem (nodes m) (<[this := List p (_tail L) (_size L)]> (lists m))).
Proof. intros H. unfold set_head. by rewrite (bind_Ok _ _ _ _ _ (obj_run _ _ _ H)). Qed.

Lemma set_tail_run m this L p :
  lists m !! this = Some L →
  set_tail this p m
  = Ok tt (Mem (nodes m) (<[this := List (_head L) p (_size L)]> (lists m))).
Proof. intros H. unfold set_tail. by rewrite (bind_Ok _ _ _ _ _ (obj_run _ _ _ H)). Qed.

Lemma set_size_run m this L z :
  lists m !! this = Some L →
  set_size this z m
  = Ok tt (Mem (nodes m) (<[this := List (_head L) (_tail L) z]> (lists m))).
Proof. intros H. unfold set_size. by rewrite (bind_Ok _ _ _ _ _ (obj_run _ _ _ H)). Qed.

Lemma check_true_run s m : CHECK_THROW s true m = Ok tt m.
Proof. done. Qed.

Lemma check_false_run s m :
  CHECK_THROW s false m = Throw (runtime_error s) m.
Proof. done. Qed.

End Exec.

Ltac lookup_tac :=
  cbn [nodes lists];
  repeat first
    [ rewrite lookup_insert_eq
    | rewrite lookup_insert_ne by first [ done | set_solver ]
    | rewrite lookup_delete_ne by first [ done | set_solver ] ];
  first [ eassumption | reflexivity ].

Ltac run_with lem :=
  first [ erewrite bind_Ok; [| solve [ eapply lem; lookup_tac ] ]
        | erewrite lem by lookup_tac ].

Ltac run_step :=
  first
    [ run_with @ret_run | run_with @check_true_run
    | run_with @get_head_run | run_with @get_tail_run | run_with @get_size_run
    | run_with @set_head_run | run_with @set_tail_run | run_with @set_size_run
    | run_with @get_val_run | run_with @get_prev_run | run_with @get_next_run
    | run_with @set_prev_run | run_with @set_next_run
    | run_with @new_node_run | run_with @delete_node_run
    | run_with @ref_val_run | run_with @set_obj_run | run_with @storage_run ].

Ltac run_simpl :=
  cbn [nonnull negb fst snd _head _tail _size _val _prev _next _ptr _list
       nodes lists].

Ltac run := repeat (first [ rewrite bind_assoc | run_step ]; run_simpl).

(** ** Machine integers in range *)

Lemma wrap64_small z : 0 ≤ z < 2 ^ 64 → wrap64 z = z.
Proof. intros. unfold wrap64. by apply Z.mod_small. Qed.

Lemma to_int64_small z : 0 ≤ z < 2 ^ 63 → to_int64 z = z.
Proof.
  intros. unfold to_int64. rewrite wrap64_small by lia.
  destruct (Z.ltb_spec z (2 ^ 63)); lia.
Qed.

Lemma neg64_small z : 0 ≤ z < 2 ^ 63 → neg64 z = - z.
Proof.
  intros Hz. unfold neg64, to_int64, wrap64.
  destruct (decide (z = 0)) as [->|Hne]; [done|].
  replace ((- z) `mod` 2 ^ 64) with (2 ^ 64 - z).
  - destruct (Z.ltb_spec (2 ^ 64 - z) (2 ^ 63)); lia.
  - apply Z.mod_unique with (-1); lia.
Qed.

Ltac case_ltb :=
  match goal with |- context [?a <? ?b] => destruct (Z.ltb_spec a b) end.

(** ** Indexed access *)

Section GetFacts.
Context {T : Type}.
Implicit Types (h : gmap loc (_node T)) (m : mem T) (p n : ptr)
  (c : loc * T) (cs : list (loc * T)) (this : ref).

Lemma pos_at_Some cs k c : cs !! k = Some c → pos_at cs k = Some c.1.
Proof. intros H. unfold pos_at. by rewrite H. Qed.

Lemma last_ptr_take_S cs k :
  (k < length cs)%nat → last_ptr None (take (S k) cs) = pos_at cs k.
Proof.
  intros. rewrite last_ptr_take. f_equal. lia.
Qed.

Lemma node_at h cs k c :
  dseg h None cs None → cs !! k = Some c →
  h !! c.1 = Some (Node c.2 (prev_pos cs k) (pos_at cs (S k))).
Proof.
  intros Hseg Hk. rewrite (dseg_lookup _ _ _ _ _ _ Hseg Hk).
  rewrite first_ptr_drop. do 2 f_equal.
  destruct k as [|k]; [done|]. simpl prev_pos.
  apply last_ptr_take_S. apply lookup_lt_Some in Hk. lia.
Qed.

Lemma get_fwd_run m cs fuel (j k : nat) :
  dseg (nodes m) None cs None →
  (k + j ≤ length cs)%nat → (j < fuel)%nat → Z.of_nat j < 2 ^ 64 →
  get_fwd fuel (Z.of_nat j) (pos_at cs k) m = Ok (pos_at cs (k + j)) m.
Proof.
  intros Hseg. revert j k. induction fuel as [|fuel IH]; intros j k Hk Hf Hj; [lia|].
  simpl. destruct j as [|j].
  - simpl. by rewrite Nat.add_0_r.
  - rewrite bool_decide_true by lia.
    destruct (lookup_lt_is_Some_2 cs k) as [c Hc]; [lia|].
    pose proof (node_at _ _ _ _ Hseg Hc) as Hnd.
    rewrite (pos_at_Some _ _ _ Hc). run.
    rewrite wrap64_small by lia.
    replace (Z.of_nat (S j) - 1) with (Z.of_nat j) by lia.
    rewrite IH by lia. f_equal. f_equal. lia.
Qed.

Lemma get_back_run m cs fuel (d k : nat) :
  dseg (nodes m) None cs None →
  (d ≤ k < length cs)%nat → (d < fuel)%nat → Z.of_nat (length cs) < 2 ^ 64 →
  get_back fuel (Z.of_nat (length cs) - 1 - Z.of_nat d) (Z.of_nat (length cs))
    (pos_at cs k) m
  = Ok (pos_at cs (k - d)) m.
Proof.
  intros Hseg. revert d k. induction fuel as [|fuel IH]; intros d k Hk Hf Hj; [lia|].
  simpl. rewrite wrap64_small by lia. destruct d as [|d].
  - case_ltb; [lia|].
    by rewrite Nat.sub_0_r.
  - case_ltb; [|lia].
    destruct (lookup_lt_is_Some_2 cs k) as [c Hc]; [lia|].
    pose proof (node_at _ _ _ _ Hseg Hc) as Hnd.
    rewrite (pos_at_Some _ _ _ Hc). run.
    destruct k as [|k]; [lia|]. simpl prev_pos.
    replace (Z.of_nat (length cs) - 1 - Z.of_nat (S d) + 1) with (Z.of_nat (length cs) - 1 - Z.of_nat d) by lia.
    rewrite IH by lia. done.
Qed.

Lemma get_run m this cs fuel (k : nat) c i :
  dll m this cs → (length cs < fuel)%nat → cs !! k = Some c →
  i = Z.of_nat k ∨ i = Z.of_nat k - Z.of_nat (length cs) →
  get fuel this i m = Ok c m.
Proof.
  intros (L & HL & Hh & Ht & Hs & Hb & Hnd & Hseg) Hf Hk Hi.
  pose proof (lookup_lt_Some _ _ _ Hk) as Hlt.
  unfold get. run. rewrite Hs.
  rewrite to_int64_small, neg64_small by lia.
  replace ((i <? Z.of_nat (length cs)) && (i >=? - Z.of_nat (length cs)))
    with true by (symmetry; apply andb_true_iff; split; [apply Z.ltb_lt|apply Z.geb_ge]; lia).
  run.
  replace (if i >=? 0 then wrap64 i else wrap64 (Z.of_nat (length cs) + i))
    with (Z.of_nat k).
  2:{ destruct (Z.geb_spec i 0); rewrite wrap64_small; lia. }
  pose proof (node_at _ _ _ _ Hseg Hk) as Hnode.
  destruct (Z.geb_spec (Z.of_nat k) (Z.of_nat (length cs) `div` 2)).
  - run. rewrite Ht, <-pos_at_last.
    replace (Z.of_nat k) with (Z.of_nat (length cs) - 1 - Z.of_nat (length cs - 1 - k)) by lia.
    erewrite bind_Ok; [|apply get_back_run; [done|lia..]].
    replace (pred (length cs) - (length cs - 1 - k))%nat with k by lia.
    rewrite (pos_at_Some _ _ _ Hk). run. by destruct c.
  - run. rewrite Hh, <-pos_at_0.
    erewrite bind_Ok; [|apply get_fwd_run; [done|lia..]].
    change (0 + k)%nat with k.
    rewrite (pos_at_Some _ _ _ Hk). run. by destruct c.
Qed.

End GetFacts.

(** ** Iteration *)

Section IterFacts.
Context {T : Type}.
Implicit Types (h : gmap loc (_node T)) (m : mem T) (p n : ptr)
  (c : loc * T) (cs : list (loc * T)) (this : ref).

Lemma next_idx_le len k : (k ≤ len → next_idx len k ≤ len)%nat.
Proof. unfold next_idx. case_decide; lia. Qed.

Lemma prev_idx_le len k : (k ≤ len → prev_idx len k ≤ len)%nat.
Proof. destruct k; simpl; lia. Qed.

Lemma prev_next_idx len k : (k ≤ len)%nat → prev_idx len (next_idx len k) = k.
Proof. unfold next_idx. case_decide; simpl; lia. Qed.

Lemma next_prev_idx len k : (k ≤ len)%nat → next_idx len (prev_idx len k) = k.
Proof. unfold next_idx. destruct k; simpl; case_decide; lia. Qed.

Lemma iter_idx_le (f : nat → nat) len j k :
  (∀ i, i ≤ len → f i ≤ len)%nat → (k ≤ len → Nat.iter j f k ≤ len)%nat.
Proof. intros Hf Hk. induction j; simpl; auto. Qed.

Lemma iter_idx_round_trip (f g : nat → nat) len j k :
  (∀ i, i ≤ len → f i ≤ len)%nat → (∀ i, i ≤ len → g (f i) = i)%nat →
  (k ≤ len)%nat → Nat.iter j g (Nat.iter j f k) = k.
Proof.
  intros Hf Hgf. revert k. induction j as [|j IH]; intros k Hk; [done|].
  rewrite (Nat.iter_succ_r j _ f k). simpl. rewrite IH by auto. auto.
Qed.

Lemma iter_next_idx_from_0 len j : (j ≤ len)%nat → Nat.iter j (next_idx len) 0%nat = j.
Proof.
  induction j as [|j IH]; intros Hj; [done|].
  simpl. rewrite IH by lia. unfold next_idx. case_decide; lia.
Qed.

Lemma iter_incr_run m this cs k :
  dll m this cs → (k ≤ length cs)%nat →
  iter_incr (Iter (pos_at cs k) this) m
  = Ok (Iter (pos_at cs (next_idx (length cs) k)) this) m.
Proof.
  intros (L & HL & Hh & Ht & Hs & Hb & Hnd & Hseg) Hk.
  unfold iter_incr, next_idx. case_decide as Hlen.
  - subst k. rewrite pos_at_length. run_simpl. run. by rewrite Hh, pos_at_0.
  - destruct (lookup_lt_is_Some_2 cs k) as [c Hc]; [lia|].
    pose proof (node_at _ _ _ _ Hseg Hc).
    rewrite (pos_at_Some _ _ _ Hc). run_simpl. by run.
Qed.

Lemma iter_decr_run m this cs k :
  dll m this cs → (k ≤ length cs)%nat →
  iter_decr (Iter (pos_at cs k) this) m
  = Ok (Iter (pos_at cs (prev_idx (length cs) k)) this) m.
Proof.
  intros (L & HL & Hh & Ht & Hs & Hb & Hnd & Hseg) Hk.
  unfold iter_decr. destruct (decide (k = length cs)) as [->|Hlen].
  - rewrite pos_at_length. run_simpl. run. rewrite Ht, <-pos_at_last.
    unfold prev_idx. by destruct (length cs).
  - destruct (lookup_lt_is_Some_2 cs k) as [c Hc]; [lia|].
    pose proof (node_at _ _ _ _ Hseg Hc).
    rewrite (pos_at_Some _ _ _ Hc). run_simpl. run.
    destruct k; [|done]. simpl. by rewrite pos_at_length.
Qed.

Lemma iter_times_run m this cs (step : _iter → M T _iter) (f : nat → nat) j k :
  (∀ i, i ≤ length cs → f i ≤ length cs)%nat →
  (∀ i, (i ≤ length cs)%nat →
        step (Iter (pos_at cs i) this) m = Ok (Iter (pos_at cs (f i)) this) m) →
  (k ≤ length cs)%nat →
  iter_times j step (Iter (pos_at cs k) this) m
  = Ok (Iter (pos_at cs (Nat.iter j f k)) this) m.
Proof.
  intros Hf Hstep. revert k. induction j as [|j IH]; intros k Hk; [done|].
  rewrite Nat.iter_succ_r. simpl.
  rewrite (bind_Ok _ _ _ _ _ (Hstep k Hk)). apply IH, Hf, Hk.
Qed.

End IterFacts.

(** ** Pushing and popping at the ends *)

Ltac frame_tac :=
  let a := fresh "a" in
  let Ha := fresh "Ha" in
  intros a Ha; cbn [nodes];
  repeat first [ rewrite lookup_insert_ne by set_solver
               | rewrite lookup_delete_ne by set_solver ];
  done.

Ltac open_dll H :=
  let hd := fresh "hd" in
  let tl := fresh "tl" in
  let sz := fresh "sz" in
  destruct H as ([hd tl sz] & HL & Hh & Ht & Hs & Hb & Hnd & Hseg);
  cbn [_head _tail _size] in Hh, Ht, Hs; subst hd tl sz.

Ltac list_simpl :=
  cbn [first_ptr dseg length app] in *;
  rewrite ?fmap_cons, ?fmap_app, ?last_ptr_cons, ?last_ptr_snoc, ?last_ptr_nil,
    ?length_app in *;
  cbn [first_ptr dseg length app fst snd] in *.

Ltac nodup_norm :=
  repeat (progress
    (rewrite ?fmap_app, ?fmap_cons, ?fmap_nil,
       ?NoDup_app, ?NoDup_cons, ?NoDup_nil in *;
     cbn [fst app] in * )).

Ltac nodup_tac := nodup_norm; first [ naive_solver | set_solver ].

Ltac dseg_tac :=
  rewrite ?dseg_app; cbn [dseg]; list_simpl; split_and?;
  first [ done | lookup_tac
        | eapply dseg_frame; [|eassumption]; frame_tac ].

Ltac dll_intro :=
  eexists; split; [lookup_tac|];
  list_simpl; cbn [nodes lists _head _tail _size].

Section EndFacts.
Context {T : Type}.
Implicit Types (h : gmap loc (_node T)) (m : mem T) (p n : ptr)
  (c : loc * T) (cs : list (loc * T)) (this : ref).

Lemma dseg_dom h p cs n a : dseg h p cs n → a ∈ cs.*1 → a ∈ dom h.
Proof. intros. apply elem_of_dom. eauto using dseg_is_Some. Qed.

Lemma fresh_not_in_segment h p cs n :
  dseg h p cs n → fresh (dom h) ∉ cs.*1.
Proof. intros Hseg Hin. apply (is_fresh (dom h)). eapply dseg_dom; eauto. Qed.

Lemma push_front_run m this cs v :
  dll m this cs → Z.of_nat (length cs) + 1 < 2 ^ 63 →
  ∃ m', push_front this v m = Ok tt m' ∧
        dll m' this ((fresh (dom (nodes m)), v) :: cs) ∧
        dom (nodes m') = {[fresh (dom (nodes m))]} ∪ dom (nodes m).
Proof.
  intros Hdll Hlen. open_dll Hdll.
  pose proof (fresh_not_in_segment _ _ _ _ Hseg) as Hfresh.
  unfold push_front. run.
  destruct cs as [|c0 cs]; list_simpl; run_simpl.
  - run. eexists. split; [done|]. split.
    + dll_intro. rewrite wrap64_small by lia.
      split_and!; try done; try lia.
      * apply NoDup_singleton.
      * lookup_tac.
    + cbn [nodes]. by rewrite dom_insert_L.
  - destruct Hseg as [Hc0 Hseg].
    assert (fresh (dom (nodes m)) ≠ c0.1) as Hne by set_solver.
    apply NoDup_cons in Hnd as [Hc0nd Hnd].
    run. eexists. split; [done|]. split.
    + dll_intro. rewrite wrap64_small by lia.
      split_and!; try done; try lia.
      * apply NoDup_cons. split; [done|]. by apply NoDup_cons.
      * lookup_tac.
      * lookup_tac.
      * eapply dseg_frame; [|done]. frame_tac.
    + cbn [nodes]. rewrite !dom_insert_L.
      assert (c0.1 ∈ dom (nodes m)) by (apply elem_of_dom; eauto).
      set_solver.
Qed.

Lemma first_ptr_snoc_nonnull cs c n : nonnull (first_ptr (cs ++ [c]) n) = true.
Proof. by destruct cs. Qed.

Lemma push_back_run m this cs v :
  dll m this cs → Z.of_nat (length cs) + 1 < 2 ^ 63 →
  ∃ m', push_back this v m = Ok tt m' ∧
        dll m' this (cs ++ [(fresh (dom (nodes m)), v)]) ∧
        dom (nodes m') = {[fresh (dom (nodes m))]} ∪ dom (nodes m).
Proof.
  intros Hdll Hlen. open_dll Hdll.
  pose proof (fresh_not_in_segment _ _ _ _ Hseg) as Hfresh.
  unfold push_back. run.
  destruct cs as [|c0 cs _] using rev_ind.
  - list_simpl; run_simpl. run. eexists. split; [done|]. split.
    + dll_intro. rewrite wrap64_small by lia.
      split_and!; try done; try lia.
      * apply NoDup_singleton.
      * lookup_tac.
    + cbn [nodes]. by rewrite dom_insert_L.
  - rewrite first_ptr_snoc_nonnull. list_simpl.
    apply dseg_snoc in Hseg as [Hseg Hc0].
    assert (fresh (dom (nodes m)) ≠ c0.1) as Hne by set_solver.
    run. eexists. split; [done|]. split.
    + dll_intro. rewrite wrap64_small by lia.
      split_and!; try done; try lia.
      * by rewrite !first_ptr_app.
      * nodup_tac.
      * nodup_norm. dseg_tac.
    + cbn [nodes]. rewrite !dom_insert_L.
      assert (c0.1 ∈ dom (nodes m)) by (apply elem_of_dom; eauto).
      set_solver.
Qed.

Lemma pop_front_run m this c cs :
  dll m this (c :: cs) →
  ∃ m', pop_front this m = Ok c.2 m' ∧
        dll m' this cs ∧
        dom (nodes m') = dom (nodes m) ∖ {[c.1]}.
Proof.
  intros Hdll. open_dll Hdll. list_simpl. destruct Hseg as [Hc Hseg].
  nodup_norm. unfold pop_front. run.
  destruct cs as [|c1 cs]; list_simpl; run_simpl.
  - run. eexists. split; [done|]. split.
    + dll_intro. rewrite wrap64_small by lia.
      split_and!; try done; try lia. nodup_tac.
    + cbn [nodes]. by rewrite dom_delete_L.
  - destruct Hseg as [Hc1 Hseg]. nodup_norm.
    assert (c.1 ≠ c1.1) by set_solver.
    run. eexists. split; [done|]. split.
    + dll_intro. rewrite wrap64_small by lia.
      split_and!; try done; try lia.
      * nodup_tac.
      * lookup_tac.
      * dseg_tac.
    + cbn [nodes]. rewrite dom_insert_L, dom_delete_L.
      assert (c1.1 ∈ dom (nodes m)) by (apply elem_of_dom; eauto).
      set_solver.
Qed.

Lemma first_ptr_in cs a : first_ptr cs None = Some a → a ∈ cs.*1.
Proof. destruct cs; [done|]. intros [= <-]. rewrite fmap_cons. left. Qed.

Lemma last_ptr_in cs a : last_ptr None cs = Some a → a ∈ cs.*1.
Proof.
  destruct cs as [|c cs _] using rev_ind; [done|].
  rewrite last_ptr_snoc. intros [= <-]. rewrite fmap_app. set_solver.
Qed.

Lemma dll_lists m this cs :
  dll m this cs →
  lists m !! this
  = Some (List (first_ptr cs None) (last_ptr None cs) (Z.of_nat (length cs))).
Proof. intros Hdll. by open_dll Hdll. Qed.

End EndFacts.

(** ** Insert and erase *)

Section InsertEraseFacts.
Context {T : Type}.
Implicit Types (h : gmap loc (_node T)) (m : mem T) (p n : ptr)
  (c : loc * T) (cs : list (loc * T)) (this : ref).

Lemma NoDup_fst_delete cs1 c cs2 :
  NoDup (cs1 ++ c :: cs2).*1 → NoDup (cs1 ++ cs2).*1.
Proof.
  intros Hnd. refine (sublist_NoDup _ _ Hnd _).
  apply fmap_sublist, sublist_app; [done|]. by apply sublist_cons.
Qed.

Lemma NoDup_fst_insert cs1 c cs2 :
  c.1 ∉ (cs1 ++ cs2).*1 → NoDup (cs1 ++ cs2).*1 → NoDup (cs1 ++ c :: cs2).*1.
Proof.
  intros Hc Hnd.
  assert ((cs1 ++ c :: cs2).*1 ≡ₚ c.1 :: (cs1 ++ cs2).*1) as ->.
  { rewrite <-fmap_cons. apply fmap_Permutation. by rewrite Permutation_middle. }
  by apply NoDup_cons.
Qed.

(** On an empty list both pushes run the same statements. *)
Lemma push_back_on_empty m this v :
  dll m this [] → push_back this v m = push_front this v m.
Proof.
  intros Hdll. open_dll Hdll. list_simpl. unfold push_back, push_front. by run.
Qed.

Lemma insert_run m this pre suf v :
  dll m this (pre ++ suf) → Z.of_nat (length (pre ++ suf)) + 1 < 2 ^ 63 →
  ∃ m', insert this (Iter (first_ptr suf None) this) v m
        = Ok (Iter (Some (fresh (dom (nodes m)))) this) m' ∧
        dll m' this (pre ++ (fresh (dom (nodes m)), v) :: suf) ∧
        dom (nodes m') = {[fresh (dom (nodes m))]} ∪ dom (nodes m) ∧
        (pre = [] → push_front this v m = Ok tt m') ∧
        (suf = [] → push_back this v m = Ok tt m').
Proof.
  intros Hdll Hlen. unfold insert, begin, end_, iter_eq.
  destruct pre as [|c0 pre _] using rev_ind.
  { (* before the head *)
    destruct (push_front_run _ _ _ v Hdll Hlen) as (m' & Hrun & Hdll' & Hdom).
    pose proof (dll_lists _ _ _ Hdll) as HL.
    pose proof (dll_lists _ _ _ Hdll') as HL'.
    run. rewrite bool_decide_true by done.
    rewrite (bind_Ok _ _ _ _ _ Hrun). run.
    exists m'. split_and!; try done.
    intros ->. by rewrite push_back_on_empty. }
  destruct suf as [|c suf].
  { (* at the sentinel of a non-empty list *)
    rewrite app_nil_r in *.
    destruct (push_back_run _ _ _ v Hdll Hlen) as (m' & Hrun & Hdll' & Hdom).
    pose proof (dll_lists _ _ _ Hdll) as HL.
    pose proof (dll_lists _ _ _ Hdll') as HL'.
    run. list_simpl.
    rewrite bool_decide_false by (by destruct pre).
    run. rewrite bool_decide_true by done.
    rewrite (bind_Ok _ _ _ _ _ Hrun). run. list_simpl.
    exists m'. split_and!; try done.
    intros E. by destruct pre. }
  (* in the interior *)
  open_dll Hdll.
  pose proof (fresh_not_in_segment _ _ _ _ Hseg) as Hfresh.
  pose proof (NoDup_fst_insert _ (fresh (dom (nodes m)), v) _ Hfresh Hnd) as Hnd'.
  rewrite <-app_assoc in *. list_simpl.
  apply dseg_app in Hseg as [Hpre Hseg]. list_simpl.
  destruct Hseg as (Hc0 & Hc & Hsuf). nodup_norm.
  assert (first_ptr pre (Some c0.1) ≠ Some c.1).
  { destruct pre; list_simpl; intros [=]; set_solver. }
  run. rewrite bool_decide_false by (rewrite first_ptr_app; list_simpl; done).
  run. rewrite bool_decide_false by done.
  assert (c.1 ≠ c0.1) by set_solver.
  run. eexists. split; [done|]. split_and!.
  - dll_intro. rewrite wrap64_small by lia.
    split_and!; try done; try lia.
    + by rewrite !first_ptr_app.
    + by rewrite !last_ptr_app, !last_ptr_cons.
    + nodup_norm. assumption.
    + dseg_tac.
  - cbn [nodes]. rewrite !dom_insert_L.
    assert (c.1 ∈ dom (nodes m)) by (apply elem_of_dom; eauto).
    assert (c0.1 ∈ dom (nodes m)) by (apply elem_of_dom; eauto).
    set_solver.
  - intros E. by destruct pre.
  - done.
Qed.

Lemma erase_run m this pre c suf :
  dll m this (pre ++ c :: suf) →
  ∃ m', erase this (Iter (Some c.1) this) m
        = Ok (Iter (first_ptr suf None) this) m' ∧
        dll m' this (pre ++ suf) ∧
        dom (nodes m') = dom (nodes m) ∖ {[c.1]}.
Proof.
  intros Hdll. unfold erase, begin, end_, iter_eq. run_simpl. run.
  destruct pre as [|c0 pre _] using rev_ind.
  { (* the head *)
    list_simpl.
    destruct (pop_front_run _ _ _ _ Hdll) as (m' & Hrun & Hdll' & Hdom).
    pose proof (dll_lists _ _ _ Hdll) as HL.
    pose proof (dll_lists _ _ _ Hdll') as HL'.
    run. rewrite bool_decide_true by done.
    rewrite (bind_Ok _ _ _ _ _ Hrun). run. eauto. }
  open_dll Hdll.
  pose proof (NoDup_fst_delete _ _ _ Hnd) as Hnd'.
  rewrite <-app_assoc in *. list_simpl.
  apply dseg_app in Hseg as [Hpre Hseg]. list_simpl.
  destruct Hseg as (Hc0 & Hc & Hsuf). nodup_norm.
  assert (first_ptr pre (Some c0.1) ≠ Some c.1).
  { destruct pre; list_simpl; intros [=]; set_solver. }
  assert (c.1 ≠ c0.1) by set_solver.
  run. rewrite bool_decide_false by (rewrite first_ptr_app; list_simpl; done).
  run. destruct suf as [|c1 suf]; list_simpl.
  - (* the tail *)
    rewrite last_ptr_app. list_simpl.
    rewrite bool_decide_true by done.
    run. eexists. split; [done|]. split.
    + dll_intro. rewrite wrap64_small by lia.
      split_and!; try done; try lia.
      * by rewrite !first_ptr_app.
      * nodup_norm. assumption.
      * dseg_tac.
    + cbn [nodes]. rewrite dom_delete_L, dom_insert_L.
      assert (c0.1 ∈ dom (nodes m)) by (apply elem_of_dom; eauto).
      set_solver.
  - (* an interior node *)
    destruct Hsuf as [Hc1 Hsuf]. nodup_norm.
    assert (last_ptr None (pre ++ c0 :: c :: c1 :: suf) ≠ Some c.1).
    { rewrite last_ptr_app. list_simpl.
      intros Heq. assert (last_ptr (Some c1.1) suf ≠ Some c.1); [|done].
      destruct suf as [|c2 suf _] using rev_ind; list_simpl.
      - intros [=]. set_solver.
      - intros [=]. set_solver. }
    rewrite bool_decide_false by done.
    assert (c.1 ≠ c1.1) by set_solver.
    assert (c0.1 ≠ c1.1) by set_solver.
    run. eexists. split; [done|]. split.
    + dll_intro. rewrite wrap64_small by lia.
      split_and!; try done; try lia.
      * by rewrite !first_ptr_app.
      * by rewrite !last_ptr_app, !last_ptr_cons.
      * nodup_norm. assumption.
      * dseg_tac.
    + cbn [nodes]. rewrite dom_delete_L, !dom_insert_L.
      assert (c0.1 ∈ dom (nodes m)) by (apply elem_of_dom; eauto).
      assert (c1.1 ∈ dom (nodes m)) by (apply elem_of_dom; eauto).
      set_solver.
Qed.

End InsertEraseFacts.

(** ** Reversal *)

Section ReverseFacts.
Context {T : Type}.
Implicit Types (h : gmap loc (_node T)) (m : mem T) (p n : ptr)
  (c : loc * T) (cs : list (loc * T)) (this : ref).

Lemma swap_links_involutive (nd : _node T) :
  swap_links (swap_links nd) = nd.
Proof. by destruct nd. Qed.

Lemma last_ptr_rev cs n : last_ptr n (rev cs) = first_ptr cs n.
Proof.
  destruct cs as [|c cs]; [done|]. simpl rev. by rewrite last_ptr_snoc.
Qed.

Lemma first_ptr_rev cs p : first_ptr (rev cs) p = last_ptr p cs.
Proof.
  destruct cs as [|c cs _] using rev_ind; [done|].
  by rewrite rev_unit, last_ptr_snoc.
Qed.

Lemma fmap_fst_rev cs : (rev cs).*1 = rev cs.*1.
Proof.
  induction cs as [|c cs IH]; [done|]. simpl. by rewrite fmap_app, IH.
Qed.

Lemma dseg_swapped h h' p cs n :
  dseg h p cs n →
  (∀ a, a ∈ cs.*1 → h' !! a = swap_links <$> h !! a) →
  dseg h' n (rev cs) p.
Proof.
  revert p. induction cs as [|c cs IH]; intros p Hseg Hsw; [done|].
  list_simpl. destruct Hseg as [Hc Hseg]. simpl rev.
  apply dseg_snoc. split.
  - apply IH; [done|]. intros a Ha. apply Hsw. set_solver.
  - rewrite Hsw, Hc by set_solver. by rewrite last_ptr_rev.
Qed.

Lemma swapped_on_dom cs h h' : swapped_on cs h h' → dom h' = dom h.
Proof.
  intros Hsw. apply set_eq. intros a. rewrite !elem_of_dom, Hsw.
  case_decide; [|done]. by rewrite fmap_is_Some.
Qed.

Lemma swapped_on_twice cs cs' h h' h'' :
  cs'.*1 ≡ₚ cs.*1 → swapped_on cs h h' → swapped_on cs' h' h'' → h'' = h.
Proof.
  intros Hp Hsw Hsw'. apply map_eq. intros a. rewrite Hsw', Hsw.
  destruct (decide (a ∈ cs'.*1)) as [Hin|Hin]; rewrite Hp in Hin.
  - rewrite decide_True by done.
    destruct (h !! a) as [nd|]; [|done]. simpl. by rewrite swap_links_involutive.
  - by rewrite decide_False by done.
Qed.

Lemma reverse_loop_run m cs n fuel :
  dseg (nodes m) None cs n → NoDup cs.*1 → (length cs < fuel)%nat →
  ∃ h', reverse_loop fuel (last_ptr None cs) m = Ok tt (Mem h' (lists m)) ∧
        swapped_on cs (nodes m) h'.
Proof.
  revert m n fuel. induction cs as [|c cs IH] using rev_ind; intros m n fuel Hseg Hnd Hf.
  - destruct fuel; [simpl in Hf; lia|]. simpl. exists (nodes m). split.
    + by destruct m.
    + intros a. rewrite decide_False; [done|]. set_solver.
  - destruct fuel; [simpl in Hf; lia|].
    apply dseg_snoc in Hseg as [Hseg Hc]. list_simpl. nodup_norm.
    assert (c.1 ∉ cs.*1) by set_solver.
    cbn [reverse_loop]. run_simpl. run.
    destruct (IH (Mem (<[c.1 := Node c.2 n (last_ptr None cs)]> (nodes m)) (lists m))
                (Some c.1) fuel) as (h' & Hrun & Hsw).
    { eapply dseg_frame; [|done]. frame_tac. }
    { tauto. }
    { lia. }
    cbn [nodes lists] in *. 
    rewrite insert_insert_eq. rewrite Hrun.
    eexists. split; [done|].
    intros a. rewrite Hsw. destruct (decide (a = c.1)) as [->|Hne].
    + rewrite decide_False by done. rewrite decide_True by set_solver.
      rewrite lookup_insert_eq, Hc. done.
    + rewrite lookup_insert_ne by done.
      destruct (decide (a ∈ cs.*1)).
      * rewrite decide_True by set_solver. done.
      * rewrite decide_False by set_solver. done.
Qed.

Lemma reverse_run m this cs fuel :
  dll m this cs → (length cs < fuel)%nat →
  ∃ h', reverse fuel this m
        = Ok tt (Mem h' (<[this := List (last_ptr None cs) (first_ptr cs None)
                                      (Z.of_nat (length cs))]> (lists m))) ∧
        swapped_on cs (nodes m) h' ∧
        dll (Mem h' (<[this := List (last_ptr None cs) (first_ptr cs None)
                                   (Z.of_nat (length cs))]> (lists m)))
            this (rev cs).
Proof.
  intros Hdll Hf. open_dll Hdll. unfold reverse. run.
  destruct (reverse_loop_run
              (Mem (nodes m)
                 (<[this := List (last_ptr None cs) (first_ptr cs None)
                              (Z.of_nat (length cs))]> (lists m)))
              cs None fuel) as (h' & Hrun & Hsw); [done..|].
  cbn [nodes lists] in *. rewrite insert_insert_eq. rewrite Hrun.
  exists h'. split; [done|]. split; [done|].
  dll_intro. rewrite first_ptr_rev, last_ptr_rev, length_rev.
  split_and!; try done.
  - by rewrite fmap_fst_rev, <-Permutation_rev.
  - eapply dseg_swapped; [done|]. intros a Ha. rewrite Hsw.
    by rewrite decide_True.
Qed.

Lemma reverse_twice m this cs fuel h' :
  dll m this cs → (length cs < fuel)%nat →
  swapped_on cs (nodes m) h' →
  reverse fuel this
    (Mem h' (<[this := List (last_ptr None cs) (first_ptr cs None)
                         (Z.of_nat (length cs))]> (lists m)))
  = Ok tt m.
Proof.
  intros Hdll Hf Hsw.
  destruct (reverse_run m this cs fuel Hdll Hf) as (h1 & _ & Hsw1 & Hdll').
  assert (h1 = h') as ->.
  { apply map_eq. intros a. by rewrite Hsw, Hsw1. }
  destruct (reverse_run _ this (rev cs) fuel Hdll') as (h'' & -> & Hsw' & _).
  { by rewrite length_rev. }
  cbn [nodes lists] in *.
  rewrite (swapped_on_twice cs (rev cs) (nodes m) h' h''); [|by rewrite fmap_fst_rev, <-Permutation_rev|done..].
  rewrite insert_insert_eq, first_ptr_rev, last_ptr_rev, length_rev.
  rewrite insert_id by (by apply dll_lists). by destruct m.
Qed.

End ReverseFacts.

(** ** Sorting: the order and the merge *)

Section FilterFacts.
Context {A : Type} (P : A → Prop) `{∀ x, Decision (P x)}.

Lemma filter_none (l : list A) : Forall (λ x, ¬ P x) l → filter P l = [].
Proof.
  induction 1 as [|x l Hx _ IH]; [done|]. by rewrite filter_cons_False.
Qed.

Lemma filter_sublist (l1 l2 : list A) :
  l1 `sublist_of` l2 → filter P l1 `sublist_of` filter P l2.
Proof.
  induction 1 as [|x l1 l2 _ IH|x l1 l2 _ IH]; [done| |].
  - rewrite !filter_cons. case_decide; [by apply sublist_skip|done].
  - rewrite filter_cons. case_decide; [by apply sublist_cons|done].
Qed.

End FilterFacts.

Section SortOrderFacts.
Context {T : Type}.
Variable comp : T → T → bool.
Implicit Types (x y z k : T) (c : loc * T) (cs l r : list (loc * T)).

Local Abbreviation incomparable := (incomparable comp).
Local Abbreviation strict_weak_order := (strict_weak_order comp).
Local Abbreviation ascending := (ascending comp).
Local Abbreviation stable := (stable comp).
Local Abbreviation same_key := (same_key comp).
Local Abbreviation merge := (merge comp).
Local Abbreviation sorted_of := (sorted_of comp).

Lemma merge_nil_l r : merge [] r = r.
Proof. by destruct r. Qed.

Lemma merge_nil_r l : merge l [] = l.
Proof. by destruct l. Qed.

Lemma merge_cons c1 l c2 r :
  merge (c1 :: l) (c2 :: r)
  = if comp c2.2 c1.2 then c2 :: merge (c1 :: l) r else c1 :: merge l (c2 :: r).
Proof. done. Qed.

Lemma merge_perm l r : merge l r ≡ₚ l ++ r.
Proof.
  revert r. induction l as [|c1 l IHl]; intros r; [by rewrite merge_nil_l|].
  induction r as [|c2 r IHr]; [by rewrite merge_nil_r, app_nil_r|].
  rewrite merge_cons. destruct (comp c2.2 c1.2).
  - rewrite IHr. by rewrite <-Permutation_middle.
  - by rewrite IHl.
Qed.

Section Order.

Hypothesis Hswo : strict_weak_order.

Lemma swo_asym x y : comp x y = true → comp y x = false.
Proof.
  intros Hxy. destruct (comp y x) eqn:Hyx; [|done].
  by rewrite <-(swo_irrefl Hswo x), (swo_trans Hswo x y x).
Qed.

Lemma incomparable_refl x : incomparable x x.
Proof. split; apply (swo_irrefl Hswo). Qed.

Lemma incomparable_sym x y : incomparable x y → incomparable y x.
Proof. intros []. by split. Qed.

(** Incomparable values are interchangeable on the left of [comp]. *)
Lemma incomparable_comp_l x y z :
  incomparable x y → comp y z = true → comp x z = true.
Proof.
  intros Hxy Hyz. destruct (comp x z) eqn:Hxz; [done|].
  destruct (comp z x) eqn:Hzx.
  - destruct Hxy as [_ Hyx]. by rewrite (swo_trans Hswo y z x) in Hyx.
  - assert (incomparable y z) as [Hyz' _].
    { apply (swo_incomp_trans Hswo) with x; [by apply incomparable_sym|by split]. }
    congruence.
Qed.

Lemma incomparable_comp_r x y z :
  incomparable x y → comp z y = true → comp z x = true.
Proof.
  intros Hxy Hzy. destruct (comp z x) eqn:Hzx; [done|].
  destruct (comp x z) eqn:Hxz.
  - destruct Hxy as [Hxy _]. by rewrite (swo_trans Hswo x z y) in Hxy.
  - assert (incomparable z y) as [Hzy' _].
    { apply (swo_incomp_trans Hswo) with x; [by split|done]. }
    congruence.
Qed.

(** "Not greater" is transitive. *)
Lemma not_greater_trans x y z :
  comp y x = false → comp z y = false → comp z x = false.
Proof.
  intros Hyx Hzy. destruct (comp z x) eqn:Hzx; [|done].
  destruct (comp x y) eqn:Hxy.
  - by rewrite (swo_trans Hswo z x y) in Hzy.
  - by rewrite (incomparable_comp_r y x z) in Hzy.
Qed.

Lemma ascending_cons c cs :
  ascending (c :: cs) ↔ Forall (λ c', comp c'.2 c.2 = false) cs ∧ ascending cs.
Proof. apply StronglySorted_cons. Qed.

Lemma merge_ascending l r : ascending l → ascending r → ascending (merge l r).
Proof.
  revert r. induction l as [|c1 l IHl]; intros r Hl Hr; [by rewrite merge_nil_l|].
  induction r as [|c2 r IHr]; [by rewrite merge_nil_r|].
  apply ascending_cons in Hl as [Hc1 Hl'].
  apply ascending_cons in Hr as [Hc2 Hr'].
  rewrite merge_cons. destruct (comp c2.2 c1.2) eqn:Hc.
  - apply ascending_cons. split; [|by apply IHr].
    rewrite merge_perm. apply Forall_app. split; [|done].
    apply swo_asym in Hc. apply Forall_cons. split; [done|].
    eapply Forall_impl; [exact Hc1|]. intros c' Hc'. simpl in Hc'.
    by apply not_greater_trans with c1.2.
  - apply ascending_cons. split; [|by apply IHl; [|apply ascending_cons]].
    rewrite merge_perm. apply Forall_app. split; [done|].
    apply Forall_cons. split; [done|].
    eapply Forall_impl; [exact Hc2|]. intros c' Hc'. simpl in Hc'.
    by apply not_greater_trans with c2.2.
Qed.

(** The merge keeps, for every key, the left cells before the right ones. *)
Lemma merge_filter k l r :
  ascending l → ascending r →
  filter (same_key k) (merge l r) = filter (same_key k) l ++ filter (same_key k) r.
Proof.
  revert r. induction l as [|c1 l IHl]; intros r Hl Hr; [by rewrite merge_nil_l|].
  induction r as [|c2 r IHr]; [by rewrite merge_nil_r, app_nil_r|].
  rewrite merge_cons. destruct (comp c2.2 c1.2) eqn:Hc.
  - pose proof Hr as [Hc2 Hr']%ascending_cons.
    rewrite !(filter_cons _ c2), IHr by done. case_decide as Hk; [|done].
    (* [c2] has key [k] and is less than every left cell *)
    assert (filter (same_key k) (c1 :: l) = []) as ->; [|done].
    apply ascending_cons in Hl as [Hc1 _].
    assert (comp k c1.2 = true) as Hk1 by (by apply incomparable_comp_l with c2.2).
    apply filter_none, Forall_cons. split.
    + intros [Hk1' _]. congruence.
    + eapply Forall_impl; [exact Hc1|]. intros c' Hc' Hk'. simpl in Hc'.
      rewrite (incomparable_comp_l c'.2 k c1.2) in Hc'; [done| |done].
      by apply incomparable_sym.
  - pose proof Hl as [Hc1 Hl']%ascending_cons.
    rewrite !(filter_cons _ c1), IHl by done. by case_decide.
Qed.

Lemma sorted_of_singleton c : sorted_of [c] [c].
Proof.
  split_and!; [done| |done]. apply ascending_cons. split; [done|constructor].
Qed.

Lemma sorted_of_merge l r l' r' :
  sorted_of l l' → sorted_of r r' → sorted_of (l ++ r) (merge l' r').
Proof.
  intros (Hpl & Hal & Hfl) (Hpr & Har & Hfr). split_and!.
  - by rewrite merge_perm, Hpl, Hpr.
  - by apply merge_ascending.
  - intros k. by rewrite merge_filter, filter_app, Hfl, Hfr.
Qed.

Lemma before_filter (P : loc * T → Prop) `{∀ c, Decision (P c)} cs c1 c2 :
  P c1 → P c2 → before cs c1 c2 ↔ before (filter P cs) c1 c2.
Proof.
  intros H1 H2. unfold before. split.
  - intros Hsub. apply (filter_sublist P) in Hsub.
    by rewrite !filter_cons, !decide_True in Hsub by done.
  - intros Hsub. etrans; [exact Hsub|]. apply sublist_filter.
Qed.

(** Stability in the words of the claim follows from the per-key form. *)
Lemma sorted_of_stable cs cs' : sorted_of cs cs' → stable cs cs'.
Proof.
  intros (_ & _ & Hf) c1 c2 Hinc Hbefore.
  assert (same_key c1.2 c1) by apply incomparable_refl.
  destruct (before_filter (same_key c1.2) cs c1 c2) as [H1 _]; [done..|].
  destruct (before_filter (same_key c1.2) cs' c1 c2) as [_ H2]; [done..|].
  apply H2. rewrite Hf. by apply H1.
Qed.

End Order.
End SortOrderFacts.

(** ** Sorting: the pointer manipulation of [_sort] *)

Section SortRun.
Context {T : Type}.
Variable comp : T → T → bool.
Implicit Types (h : gmap loc (_node T)) (m : mem T) (p n : ptr)
  (c t : loc * T) (cs l r acc : list (loc * T)) (this : ref).

Local Abbreviation merge := (merge comp).
Local Abbreviation sorted_of := (sorted_of comp).

Lemma pos_at_fmap cs k : pos_at cs k = cs.*1 !! k.
Proof. unfold pos_at. by rewrite list_lookup_fmap. Qed.

Lemma pos_at_inj cs i j :
  NoDup cs.*1 → (i < length cs)%nat → pos_at cs i = pos_at cs j → i = j.
Proof.
  intros Hnd Hi. rewrite !pos_at_fmap. intros Heq.
  destruct (lookup_lt_is_Some_2 cs.*1 i) as [a Ha]; [by rewrite length_fmap|].
  apply (NoDup_lookup _ _ _ a Hnd Ha). congruence.
Qed.

(** The two pointers stop on adjacent nodes, somewhere inside the chain. *)
Lemma _sort_split_run m cs fuel (i j : nat) :
  dseg (nodes m) None cs None → NoDup cs.*1 →
  (i < j < length cs)%nat → (j - i ≤ fuel)%nat →
  ∃ k, (i ≤ k < j)%nat ∧
       _sort_split fuel (pos_at cs i) (pos_at cs j) m
       = Ok (pos_at cs k, pos_at cs (S k)) m.
Proof.
  intros Hseg Hnd. revert i j. induction fuel as [|fuel IH]; intros i j Hij Hf; [lia|].
  destruct (lookup_lt_is_Some_2 cs i) as [ci Hci]; [lia|].
  destruct (lookup_lt_is_Some_2 cs j) as [cj Hcj]; [lia|].
  pose proof (node_at _ _ _ _ Hseg Hci) as Hni.
  pose proof (node_at _ _ _ _ Hseg Hcj) as Hnj.
  pose proof (pos_at_Some _ _ _ Hci) as Ei.
  pose proof (pos_at_Some _ _ _ Hcj) as Ej.
  cbn [_sort_split]. rewrite Ei, Ej. run.
  destruct (decide (S i = j)) as [<-|Hne1].
  { rewrite bool_decide_true by done. exists i. split; [lia|]. by rewrite Ei, Ej. }
  rewrite bool_decide_false.
  2:{ rewrite <-Ej. intros Heq. apply pos_at_inj in Heq; [done..|lia]. }
  run. destruct j as [|j]; [lia|]. cbn [prev_pos].
  destruct (decide (j = S i)) as [->|Hne2].
  { rewrite bool_decide_true by done. exists (S i). split; [lia|]. by rewrite Ej. }
  rewrite bool_decide_false.
  2:{ intros Heq. apply pos_at_inj in Heq; [done..|lia]. }
  destruct (IH (S i) j) as (k & Hk & Hrun); [lia..|].
  exists k. split; [lia|done].
Qed.

Lemma merge_inv_take_right h acc t l y r1 nx pl pr :
  dseg h None acc (Some t.1) →
  h !! t.1 = Some (Node t.2 (last_ptr None acc) nx) →
  dseg h pl l None → dseg h pr (y :: r1) None →
  NoDup (acc ++ t :: l ++ y :: r1).*1 →
  merge_inv
    (<[t.1 := Node t.2 (last_ptr None acc) (Some y.1)]>
       (<[y.1 := Node y.2 (Some t.1) (first_ptr r1 None)]> h))
    (acc ++ [t]) y l r1.
Proof.
  intros Hacc Ht Hl Hr Hnd.
  assert (NoDup ((acc ++ [t]) ++ y :: l ++ r1).*1) as Hnd'.
  { assert (((acc ++ [t]) ++ y :: l ++ r1).*1 ≡ₚ (acc ++ t :: l ++ y :: r1).*1)
      as ->; [|done].
    apply fmap_Permutation. rewrite <-app_assoc. simpl.
    by rewrite (Permutation_middle l r1 y). }
  exists (first_ptr r1 None), pl, (Some y.1).
  split_and!; [| | | |done]; list_simpl; destruct Hr as [Hy Hr]; nodup_norm.
  - apply dseg_snoc. split; [|lookup_tac]. dseg_tac.
  - lookup_tac.
  - dseg_tac.
  - dseg_tac.
Qed.

Lemma merge_inv_take_left h acc t x l1 r nx pl pr :
  dseg h None acc (Some t.1) →
  h !! t.1 = Some (Node t.2 (last_ptr None acc) nx) →
  dseg h pl (x :: l1) None → dseg h pr r None →
  NoDup (acc ++ t :: (x :: l1) ++ r).*1 →
  merge_inv
    (<[t.1 := Node t.2 (last_ptr None acc) (Some x.1)]>
       (<[x.1 := Node x.2 (Some t.1) (first_ptr l1 None)]> h))
    (acc ++ [t]) x l1 r.
Proof.
  intros Hacc Ht Hl Hr Hnd.
  assert (NoDup ((acc ++ [t]) ++ x :: l1 ++ r).*1) as Hnd'.
  { by rewrite <-app_assoc. }
  exists (first_ptr l1 None), (Some x.1), pr.
  split_and!; [| | | |done]; list_simpl; destruct Hl as [Hx Hl]; nodup_norm.
  - apply dseg_snoc. split; [|lookup_tac]. dseg_tac.
  - lookup_tac.
  - dseg_tac.
  - dseg_tac.
Qed.

Lemma _sort_merge_run fuel m acc t l r :
  merge_inv (nodes m) acc t l r → (length l + length r < fuel)%nat →
  ∃ h' acc' t' l' r',
    _sort_merge comp fuel (first_ptr l None) (first_ptr r None) (Some t.1) m
    = Ok (first_ptr l' None, first_ptr r' None, Some t'.1) (Mem h' (lists m)) ∧
    merge_inv h' acc' t' l' r' ∧
    (l' = [] ∨ r' = []) ∧
    (l ++ r ≠ [] → l' ++ r' ≠ []) ∧
    acc' ++ t' :: merge l' r' = acc ++ t :: merge l r ∧
    l' `suffix_of` l ∧ r' `suffix_of` r ∧
    (∀ a, a ∉ (acc ++ t :: l ++ r).*1 → h' !! a = nodes m !! a) ∧
    dom h' = dom (nodes m).
Proof.
  revert m acc t l r. induction fuel as [|fuel IH]; intros m acc t l r Hinv Hf; [lia|].
  cbn [_sort_merge].
  destruct l as [|x l1].
  { exists (nodes m), acc, t, [], r. destruct m. split_and!; try done. by left. }
  destruct r as [|y r1].
  { exists (nodes m), acc, t, (x :: l1), []. destruct m. split_and!; try done. by right. }
  destruct Hinv as (nx & pl & pr & Hacc & Ht & Hl & Hr & Hnd).
  pose proof Hl as [Hx _]. pose proof Hr as [Hy _].
  assert (t.1 ≠ x.1 ∧ t.1 ≠ y.1 ∧ x.1 ≠ y.1) as (Htx & Hty & Hxy).
  { clear -Hnd. nodup_norm. set_solver. }
  pose proof (merge_inv_take_right _ _ _ _ _ _ _ _ _ Hacc Ht Hl Hr Hnd) as Hinv_r.
  pose proof (merge_inv_take_left _ _ _ _ _ _ _ _ _ Hacc Ht Hl Hr Hnd) as Hinv_l.
  list_simpl. run_simpl. cbn [andb]. run. rewrite merge_cons.
  destruct (comp y.2 x.2).
  - run.
    destruct (IH (Mem (<[t.1 := Node t.2 (last_ptr None acc) (Some y.1)]>
                         (<[y.1 := Node y.2 (Some t.1) (first_ptr r1 None)]> (nodes m)))
                      (lists m))
                (acc ++ [t]) y (x :: l1) r1)
      as (h' & acc' & t' & l' & r' & Hrun & Hinv' & Hor & Hne & Heq & Hsl & Hsr & Hfr & Hdom).
    { done. }
    { simpl in *. lia. }
    cbn [nodes lists first_ptr] in *. rewrite Hrun.
    exists h', acc', t', l', r'. split_and!; try done.
    + intros _. apply Hne. by destruct l1, r1.
    + by rewrite Heq, <-app_assoc.
    + by apply suffix_cons_r.
    + intros a Ha. rewrite Hfr.
      * assert (a ≠ t.1 ∧ a ≠ y.1) as [? ?].
        { split; intros ->; apply Ha; rewrite !fmap_cons, ?fmap_app, ?fmap_cons;
            set_solver. }
        by rewrite !lookup_insert_ne by done.
      * intros Ha'. apply Ha. revert Ha'.
        rewrite !fmap_app, !fmap_cons, fmap_nil, ?fmap_app, ?fmap_cons. set_solver.
    + rewrite Hdom, !dom_insert_L.
      assert (t.1 ∈ dom (nodes m)) by (apply elem_of_dom; eauto).
      assert (y.1 ∈ dom (nodes m)) by (apply elem_of_dom; eauto).
      set_solver.
  - run.
    destruct (IH (Mem (<[t.1 := Node t.2 (last_ptr None acc) (Some x.1)]>
                         (<[x.1 := Node x.2 (Some t.1) (first_ptr l1 None)]> (nodes m)))
                      (lists m))
                (acc ++ [t]) x l1 (y :: r1))
      as (h' & acc' & t' & l' & r' & Hrun & Hinv' & Hor & Hne & Heq & Hsl & Hsr & Hfr & Hdom).
    { done. }
    { simpl in *. lia. }
    cbn [nodes lists first_ptr] in *. rewrite Hrun.
    exists h', acc', t', l', r'. split_and!; try done.
    + intros _. apply Hne. by destruct l1, r1.
    + by rewrite Heq, <-app_assoc.
    + by apply suffix_cons_r.
    + intros a Ha. rewrite Hfr.
      * assert (a ≠ t.1 ∧ a ≠ x.1) as [? ?].
        { split; intros ->; apply Ha; rewrite !fmap_cons, ?fmap_app, ?fmap_cons;
            set_solver. }
        by rewrite !lookup_insert_ne by done.
      * intros Ha'. apply Ha. revert Ha'.
        rewrite !fmap_app, !fmap_cons, fmap_nil, ?fmap_app, ?fmap_cons. set_solver.
    + rewrite Hdom, !dom_insert_L.
      assert (t.1 ∈ dom (nodes m)) by (apply elem_of_dom; eauto).
      assert (x.1 ∈ dom (nodes m)) by (apply elem_of_dom; eauto).
      set_solver.
Qed.

Lemma NoDup_fst_mid l c r :
  NoDup (l ++ c :: r).*1 → (c.1 ∉ l.*1) ∧ (c.1 ∉ r.*1) ∧ NoDup (l ++ r).*1.
Proof.
  intros Hnd.
  assert ((l ++ c :: r).*1 ≡ₚ c.1 :: (l ++ r).*1) as Hp.
  { rewrite <-fmap_cons. apply fmap_Permutation. by rewrite Permutation_middle. }
  rewrite Hp in Hnd. apply NoDup_cons in Hnd as [Hc Hnd].
  rewrite fmap_app, not_elem_of_app in Hc. tauto.
Qed.

(** Cutting the chain between the two halves. *)
Lemma _sort_cut_run m l r :
  l ≠ [] → r ≠ [] →
  dseg (nodes m) None (l ++ r) None → NoDup (l ++ r).*1 →
  ∃ h', (∀ B (k : unit → M T B),
           (set_next (last_ptr None l) None ≫= λ _,
            set_prev (first_ptr r None) None ≫= k) m
           = k tt (Mem h' (lists m))) ∧
        dseg h' None l None ∧ dseg h' None r None ∧
        (∀ a, a ∉ (l ++ r).*1 → h' !! a = nodes m !! a) ∧
        dom h' = dom (nodes m).
Proof.
  intros Hl Hr Hseg Hnd.
  destruct l as [|x l _] using rev_ind; [done|]. destruct r as [|y r]; [done|].
  apply dseg_app in Hseg as [[Hsl Hx]%dseg_snoc Hsr].
  assert ((x.1 ∉ l.*1) ∧ x.1 ≠ y.1 ∧ (x.1 ∉ r.*1) ∧ (y.1 ∉ l.*1) ∧ (y.1 ∉ r.*1))
    as (Hxl & Hxy & Hxr & Hyl & Hyr).
  { rewrite <-app_assoc in Hnd. simpl in Hnd.
    pose proof Hnd as (Hxl & Hxr & Hnd')%NoDup_fst_mid.
    pose proof Hnd' as (Hyl & Hyr & _)%NoDup_fst_mid.
    rewrite fmap_cons in Hxr. apply not_elem_of_cons in Hxr as [Hxy Hxr]. done. }
  list_simpl. destruct Hsr as [Hy Hsr].
  eexists. split; [intros B k; run; done|]. cbn [nodes]. split_and!.
  - clear Hnd. apply dseg_snoc. split; [dseg_tac|lookup_tac].
  - clear Hnd. dseg_tac.
  - clear Hnd. dseg_tac.
  - intros a Ha. rewrite !lookup_insert_ne; [done|..]; intros <-; apply Ha;
      clear; set_solver.
  - rewrite !dom_insert_L.
    assert (x.1 ∈ dom (nodes m)) by (apply elem_of_dom; eauto).
    assert (y.1 ∈ dom (nodes m)) by (apply elem_of_dom; eauto).
    set_solver.
Qed.

(** Splicing the rest [s] of one half behind the merged cells. *)
Lemma _sort_splice_run m acc t s nx ps :
  s ≠ [] →
  dseg (nodes m) None acc (Some t.1) →
  nodes m !! t.1 = Some (Node t.2 (last_ptr None acc) nx) →
  dseg (nodes m) ps s None →
  NoDup (acc ++ t :: s).*1 →
  ∃ h', (∀ B (k : unit → M T B),
           (set_prev (first_ptr s None) (Some t.1) ≫= λ _,
            set_next (Some t.1) (first_ptr s None) ≫= k) m
           = k tt (Mem h' (lists m))) ∧
        dseg h' None (acc ++ t :: s) None ∧
        (∀ a, a ∉ (acc ++ t :: s).*1 → h' !! a = nodes m !! a) ∧
        dom h' = dom (nodes m).
Proof.
  intros Hs Hacc Ht Hseg Hnd. destruct s as [|z s]; [done|].
  pose proof Hnd as (Htl & Hts & Hnd')%NoDup_fst_mid.
  pose proof Hnd' as (Hzl & Hzs & _)%NoDup_fst_mid.
  rewrite fmap_cons in Hts. apply not_elem_of_cons in Hts as [Htz Hts].
  list_simpl. destruct Hseg as [Hz Hseg].
  eexists. split; [intros B k; run; done|]. cbn [nodes]. split_and!.
  - clear Hnd. dseg_tac.
  - intros a Ha. rewrite !lookup_insert_ne; [done|..]; intros <-; apply Ha;
      clear; set_solver.
  - rewrite !dom_insert_L.
    assert (t.1 ∈ dom (nodes m)) by (apply elem_of_dom; eauto).
    assert (z.1 ∈ dom (nodes m)) by (apply elem_of_dom; eauto).
    set_solver.
Qed.

Lemma last_ptr_suffix p q s cs : s ≠ [] → s `suffix_of` cs → last_ptr p s = last_ptr q cs.
Proof.
  intros Hs [k ->]. rewrite last_ptr_app.
  destruct s as [|c s _] using rev_ind; [done|]. by rewrite !last_ptr_snoc.
Qed.

Lemma first_ptr_nonnull cs n : cs ≠ [] → nonnull (first_ptr cs n) = true.
Proof. by destruct cs. Qed.

(** The merge loop followed by the splice of the remainder. *)
Lemma _sort_finish_run fuel m t l r ll rr (rh : ptr) :
  merge_inv (nodes m) [] t l r → l ++ r ≠ [] →
  l `suffix_of` ll → r `suffix_of` rr →
  (length l + length r < fuel)%nat →
  ∃ h',
    (_sort_merge comp fuel (first_ptr l None) (first_ptr r None) (Some t.1)
     ≫= λ '(lf, rg, ret_tail),
          if nonnull lf then
            set_prev lf ret_tail;;
            set_next ret_tail lf;;
            mret (rh, last_ptr None ll)
          else
            set_prev rg ret_tail;;
            set_next ret_tail rg;;
            mret (rh, last_ptr None rr)) m
    = Ok (rh, last_ptr None (t :: merge l r)) (Mem h' (lists m)) ∧
    dseg h' None (t :: merge l r) None ∧
    (∀ a, a ∉ (t :: l ++ r).*1 → h' !! a = nodes m !! a) ∧
    dom h' = dom (nodes m).
Proof.
  intros Hinv Hne Hsl Hsr Hf.
  destruct (_sort_merge_run fuel m [] t l r Hinv Hf)
    as (h1 & acc & t' & l' & r' & Hrun & Hinv' & Hor & Hne' & Heq & Hsl' & Hsr' & Hfr & Hdom).
  rewrite (bind_Ok _ _ _ _ _ Hrun). clear Hrun.
  specialize (Hne' Hne). simpl in Heq. rewrite <-Heq.
  destruct Hinv' as (nx & pl & pr & Hacc & Ht & Hl & Hr & Hnd).
  destruct l' as [|x l'].
  - (* the left half is exhausted *)
    destruct r' as [|y r']; [done|]. rewrite merge_nil_l. cbn [nonnull first_ptr].
    destruct (_sort_splice_run (Mem h1 (lists m)) acc t' (y :: r') nx pr)
      as (h2 & Hrun & Hseg & Hfr2 & Hdom2); [done..|].
    cbn [nodes lists first_ptr] in *. rewrite Hrun. exists h2. split_and!.
    + do 2 f_equal. rewrite last_ptr_app, last_ptr_cons.
      symmetry. apply last_ptr_suffix; [done|]. by etrans.
    + done.
    + intros a Ha. rewrite Hfr2, Hfr; [done|done|].
      intros Ha'. apply Ha.
      assert ((t :: l ++ r) ≡ₚ acc ++ t' :: y :: r') as ->; [|done].
      by rewrite <-(merge_perm comp l r), <-Heq, merge_nil_l.
    + by rewrite Hdom2.
  - (* the right half is exhausted *)
    destruct Hor as [Hor|Hor]; [done|subst r']. rewrite merge_nil_r, app_nil_r in *.
    cbn [nonnull first_ptr].
    destruct (_sort_splice_run (Mem h1 (lists m)) acc t' (x :: l') nx pl)
      as (h2 & Hrun & Hseg & Hfr2 & Hdom2); [done..|].
    cbn [nodes lists first_ptr] in *. rewrite Hrun. exists h2. split_and!.
    + do 2 f_equal. rewrite last_ptr_app, last_ptr_cons.
      symmetry. apply last_ptr_suffix; [done|]. by etrans.
    + done.
    + intros a Ha. rewrite Hfr2, Hfr; [done|done|].
      intros Ha'. apply Ha.
      assert ((t :: l ++ r) ≡ₚ acc ++ t' :: x :: l') as ->; [|done].
      by rewrite <-(merge_perm comp l r), <-Heq.
    + by rewrite Hdom2.
Qed.

(** The recursion of [_sort], for any relation between the cells given and
    the cells returned that holds of a single cell, is kept by the merge
    of the two sorted halves, and only relates permutations. *)
Section AnyOutcome.

Variable R : list (loc * T) → list (loc * T) → Prop.
Hypothesis R_single : ∀ c, R [c] [c].
Hypothesis R_merge :
  ∀ l r l' r', R l l' → R r r' → R (l ++ r) (merge l' r').
Hypothesis R_perm : ∀ cs cs', R cs cs' → cs' ≡ₚ cs.

Lemma _sort_run_rel fuel m cs :
  cs ≠ [] → dseg (nodes m) None cs None → NoDup cs.*1 →
  (length cs ≤ fuel)%nat →
  ∃ h' cs',
    _sort comp fuel (first_ptr cs None) (last_ptr None cs) m
    = Ok (first_ptr cs' None, last_ptr None cs') (Mem h' (lists m)) ∧
    dseg h' None cs' None ∧ R cs cs' ∧
    (∀ a, a ∉ cs.*1 → h' !! a = nodes m !! a) ∧
    dom h' = dom (nodes m).
Proof.
  revert m cs. induction fuel as [|fuel IH]; intros m cs Hne Hseg Hnd Hf.
  { destruct cs; [done|simpl in Hf; lia]. }
  cbn [_sort].
  destruct (decide (length cs = 1%nat)) as [Hlen|Hlen].
  { (* a single node *)
    destruct cs as [|c [|??]]; try done. list_simpl.
    rewrite bool_decide_true by done.
    exists (nodes m), [c]. destruct m. by split_and!. }
  assert (2 ≤ length cs)%nat as Hlen2 by (destruct cs; [done|simpl in *; lia]).
  rewrite <-pos_at_0, <-pos_at_last.
  rewrite bool_decide_false.
  2:{ intros Heq. apply pos_at_inj in Heq; [lia|done|lia]. }
  (* the middle *)
  destruct (_sort_split_run m cs (S fuel) 0 (pred (length cs)) Hseg Hnd)
    as (k & Hk & Hsplit); [lia..|].
  rewrite (bind_Ok _ _ _ _ _ Hsplit). clear Hsplit.
  pose proof (take_drop (S k) cs) as Hcs.
  set (l := take (S k) cs) in *. set (r := drop (S k) cs) in *.
  assert (length l = S k) as Hll by (unfold l; rewrite length_take; lia).
  assert (length r = (length cs - S k)%nat) as Hlr by (unfold r; by rewrite length_drop).
  assert (l ≠ []) as Hlne by (intros E; rewrite E in Hll; done).
  assert (r ≠ []) as Hrne by (intros E; rewrite E in Hlr; simpl in Hlr; lia).
  assert (pos_at cs k = last_ptr None l) as -> by (symmetry; apply last_ptr_take_S; lia).
  assert (pos_at cs (S k) = first_ptr r None) as -> by (symmetry; apply first_ptr_drop).
  assert (pos_at cs 0 = first_ptr l None) as ->.
  { rewrite pos_at_0, <-Hcs, first_ptr_app. by destruct l. }
  assert (pos_at cs (pred (length cs)) = last_ptr None r) as ->.
  { rewrite pos_at_last, <-Hcs, last_ptr_app. symmetry. by apply last_ptr_suffix. }
  clearbody l r. subst cs. clear k Hk Hll Hlr Hne Hlen.
  assert (∀ a, a ∈ l.*1 → a ∉ r.*1) as Hdisj.
  { rewrite fmap_app in Hnd. by apply NoDup_app in Hnd as (_ & ? & _). }
  assert (NoDup l.*1 ∧ NoDup r.*1) as [Hndl Hndr].
  { rewrite fmap_app in Hnd. by apply NoDup_app in Hnd as (? & _ & ?). }
  rewrite length_app in Hf, Hlen2.
  assert (0 < length l ∧ 0 < length r)%nat as [Hl0 Hr0].
  { by destruct l, r; simpl; try lia. }
  (* cut the chain *)
  destruct (_sort_cut_run m l r) as (h1 & Hrun & Hsl & Hsr & Hfr1 & Hdom1); [done..|].
  rewrite Hrun. clear Hrun.
  (* sort the left half *)
  destruct (IH (Mem h1 (lists m)) l) as (h2 & l' & Hrun & Hsl' & Hsol & Hfr2 & Hdom2);
    [done..|lia|].
  rewrite (bind_Ok _ _ _ _ _ Hrun). clear Hrun. cbn [nodes lists] in *.
  (* sort the right half *)
  destruct (IH (Mem h2 (lists m)) r) as (h3 & r' & Hrun & Hsr' & Hsor & Hfr3 & Hdom3);
    [done| |done|lia|].
  { eapply dseg_frame; [|done]. intros a Ha. apply Hfr2. intros Ha'. by eapply Hdisj. }
  rewrite (bind_Ok _ _ _ _ _ Hrun). clear Hrun. cbn [nodes lists fst snd] in *.
  pose proof (R_perm _ _ Hsol) as Hpl. pose proof (R_perm _ _ Hsor) as Hpr.
  assert (dseg h3 None l' None) as Hsl3.
  { eapply dseg_frame; [|done]. intros a Ha. apply Hfr3. intros Ha'.
    apply (Hdisj a); [|done]. by rewrite <-Hpl. }
  assert (NoDup (l' ++ r').*1) as Hnd'.
  { by rewrite fmap_app, Hpl, Hpr, <-fmap_app. }
  assert (∀ a, a ∉ (l ++ r).*1 → h3 !! a = nodes m !! a) as Hfr.
  { intros a Ha. rewrite fmap_app, not_elem_of_app in Ha. destruct Ha.
    rewrite Hfr3, Hfr2, Hfr1; [done| |done..]. rewrite fmap_app, not_elem_of_app. done. }
  assert (dom h3 = dom (nodes m)) as Hdom by congruence.
  clear Hfr1 Hfr2 Hfr3 Hdom1 Hdom2 Hdom3 Hsl Hsr Hsl' IH Hseg h1 h2.
  assert (∀ a, a ∉ (l ++ r).*1 → a ∉ (l' ++ r').*1) as Hsub.
  { intros a Ha. by rewrite fmap_app, Hpl, Hpr, <-fmap_app. }
  pose proof (Permutation_length Hpl) as Hll.
  pose proof (Permutation_length Hpr) as Hlr.
  destruct l' as [|x l1]; [by apply Permutation_nil_l in Hpl|].
  destruct r' as [|y r1]; [by apply Permutation_nil_l in Hpr|].
  pose proof Hsl3 as [Hx Hsl1]. pose proof Hsr' as [Hy Hsr1].
  cbn [first_ptr] in *. run.
  assert (R (l ++ r) (merge (x :: l1) (y :: r1))) as Hso
    by (by apply R_merge).
  rewrite merge_cons in *.
  destruct (comp y.2 x.2) eqn:Hc; run.
  - (* the first node comes from the right half *)
    destruct (_sort_finish_run (S fuel) (Mem h3 (lists m)) y (x :: l1) r1
                (x :: l1) (y :: r1) (Some y.1))
      as (h4 & Hrun & Hseg4 & Hfr4 & Hdom4).
    { exists (first_ptr r1 None), None, (Some y.1). split_and!; try done.
      assert (([] ++ y :: (x :: l1) ++ r1).*1 ≡ₚ ((x :: l1) ++ y :: r1).*1) as ->;
        [|done].
      apply fmap_Permutation. simpl. by rewrite (Permutation_middle (x :: l1) r1 y). }
    { done. }
    { done. }
    { by apply suffix_cons_r. }
    { simpl in *. lia. }
    cbn [nodes lists first_ptr] in *. rewrite Hrun.
    exists h4, (y :: merge (x :: l1) r1). split_and!; try done.
    + intros a Ha. rewrite Hfr4, Hfr; [done..|].
      intros Ha'. apply (Hsub a Ha).
      assert ((x :: l1) ++ y :: r1 ≡ₚ y :: (x :: l1) ++ r1) as ->; [|done].
      by rewrite (Permutation_middle (x :: l1) r1 y).
    + congruence.
  - (* the first node comes from the left half *)
    destruct (_sort_finish_run (S fuel) (Mem h3 (lists m)) x l1 (y :: r1)
                (x :: l1) (y :: r1) (Some x.1))
      as (h4 & Hrun & Hseg4 & Hfr4 & Hdom4).
    { exists (first_ptr l1 None), (Some x.1), None. split_and!; done. }
    { by destruct l1. }
    { by apply suffix_cons_r. }
    { done. }
    { simpl in *. lia. }
    cbn [nodes lists first_ptr] in *. rewrite Hrun.
    exists h4, (x :: merge l1 (y :: r1)). split_and!; try done.
    + intros a Ha. rewrite Hfr4, Hfr; [done..|]. by apply Hsub.
    + congruence.
Qed.

End AnyOutcome.

(** For an arbitrary [comp] the cells returned are a permutation of the
    cells given. *)
Lemma _sort_run_perm fuel m cs :
  cs ≠ [] → dseg (nodes m) None cs None → NoDup cs.*1 →
  (length cs ≤ fuel)%nat →
  ∃ h' cs',
    _sort comp fuel (first_ptr cs None) (last_ptr None cs) m
    = Ok (first_ptr cs' None, last_ptr None cs') (Mem h' (lists m)) ∧
    dseg h' None cs' None ∧ cs' ≡ₚ cs ∧
    (∀ a, a ∉ cs.*1 → h' !! a = nodes m !! a) ∧
    dom h' = dom (nodes m).
Proof.
  apply (_sort_run_rel (λ cs cs', cs' ≡ₚ cs)); [done| |done].
  intros l r l' r' Hl Hr. by rewrite (merge_perm comp l' r'), Hl, Hr.
Qed.

Hypothesis Hswo : strict_weak_order comp.

Lemma _sort_run fuel m cs :
  cs ≠ [] → dseg (nodes m) None cs None → NoDup cs.*1 →
  (length cs ≤ fuel)%nat →
  ∃ h' cs',
    _sort comp fuel (first_ptr cs None) (last_ptr None cs) m
    = Ok (first_ptr cs' None, last_ptr None cs') (Mem h' (lists m)) ∧
    dseg h' None cs' None ∧ sorted_of cs cs' ∧
    (∀ a, a ∉ cs.*1 → h' !! a = nodes m !! a) ∧
    dom h' = dom (nodes m).
Proof.
  apply (_sort_run_rel sorted_of).
  - intros c. by apply sorted_of_singleton.
  - intros l r l' r' Hl Hr. by apply sorted_of_merge.
  - by intros cs0 cs' (? & _).
Qed.

Lemma sort_run fuel m this cs :
  dll m this cs → (length cs ≤ fuel)%nat →
  ∃ m' cs',
    sort comp fuel this m = Ok tt m' ∧
    dll m' this cs' ∧ sorted_of cs cs' ∧
    dom (nodes m') = dom (nodes m) ∧
    (∀ a, a ∉ cs.*1 → nodes m' !! a = nodes m !! a) ∧
    (cs = [] → m' = m).
Proof.
  intros Hdll Hf. open_dll Hdll. unfold sort, _sort_init. run.
  destruct cs as [|c cs].
  { cbn [first_ptr nonnull]. exists m, []. split_and!; try done.
    - by dll_intro.
    - split_and!; [done|constructor|done]. }
  rewrite first_ptr_nonnull by done. run.
  destruct (_sort_run fuel m (c :: cs)) as (h' & cs' & Hrun & Hseg' & Hso & Hfr & Hdom);
    [done..|].
  rewrite (bind_Ok _ _ _ _ _ Hrun). clear Hrun. run.
  pose proof Hso as (Hp & _).
  eexists _, cs'. split; [done|]. split_and!; try done.
  dll_intro. rewrite (Permutation_length Hp). split_and!; try done.
  by rewrite Hp.
Qed.

End SortRun.

(** ** Rejected operations *)

Section NoThrow.
Context {T : Type}.
Implicit Types (m : mem T) (p q : ptr) (this : ref).

Lemma no_throw_ret {A} (x : A) : no_throw (mret x : M T A).
Proof. by intros m e m'. Qed.

Lemma no_throw_bind {A B} (c : M T A) (k : A → M T B) :
  no_throw c → (∀ x, no_throw (k x)) → no_throw (c ≫= k).
Proof.
  intros Hc Hk m e m'. unfold mbind, M_bind, bind.
  destruct (c m) as [x m1|e1 m1| |] eqn:E; try done.
  - apply Hk.
  - by apply Hc in E.
Qed.

Lemma no_throw_if {A} (b : bool) (c1 c2 : M T A) :
  no_throw c1 → no_throw c2 → no_throw (if b then c1 else c2).
Proof. by destruct b. Qed.

Lemma no_throw_timeout {A} : no_throw (timeout : M T A).
Proof. by intros m e m'. Qed.

Lemma no_throw_load p : no_throw (load p : M T _).
Proof. intros m e m'. unfold load. by repeat case_match. Qed.

Lemma no_throw_store p nd : no_throw (store p nd : M T _).
Proof. intros m e m'. unfold store. by repeat case_match. Qed.

Lemma no_throw_new_node v p q : no_throw (new_node v p q : M T _).
Proof. by intros m e m'. Qed.

Lemma no_throw_delete_node p : no_throw (delete_node p : M T _).
Proof. intros m e m'. unfold delete_node. by repeat case_match. Qed.

Lemma no_throw_ref_val p : no_throw (ref_val p : M T _).
Proof. intros m e m'. unfold ref_val. by repeat case_match. Qed.

Lemma no_throw_obj this : no_throw (obj this : M T _).
Proof. intros m e m'. unfold obj. by repeat case_match. Qed.

Lemma no_throw_set_obj this L : no_throw (set_obj this L : M T _).
Proof. by intros m e m'. Qed.

End NoThrow.

Ltac no_throw_tac :=
  repeat first
    [ assumption
    | apply no_throw_ret | apply no_throw_timeout | apply no_throw_load
    | apply no_throw_store | apply no_throw_new_node | apply no_throw_delete_node
    | apply no_throw_ref_val | apply no_throw_obj | apply no_throw_set_obj
    | apply no_throw_bind; [|intros ?]
    | apply no_throw_if
    | progress unfold get_val, get_prev, get_next, set_prev, set_next,
        get_head, get_tail, get_size, set_head, set_tail, set_size, storage
    | progress cbv zeta
    | match goal with IH : context [no_throw _] |- _ => apply IH end ].

Section Rejected.
Context {T : Type}.
Implicit Types (m : mem T) (p q : ptr) (this : ref).

Lemma no_throw_get_back fuel j sz p : no_throw (get_back fuel j sz p : M T _).
Proof.
  revert j p. induction fuel as [|fuel IH]; intros j p; simpl; no_throw_tac.
Qed.

Lemma no_throw_get_fwd fuel j p : no_throw (get_fwd fuel j p : M T _).
Proof.
  revert j p. induction fuel as [|fuel IH]; intros j p; simpl; no_throw_tac.
Qed.

Lemma no_throw_fill_loop fuel this siz (val : T) :
  no_throw (DLList_fill_loop fuel this siz val).
Proof.
  revert siz. induction fuel as [|fuel IH]; intros siz; simpl; no_throw_tac.
Qed.

Lemma bind_Throw_inv {A B} (c : M T A) (k : A → M T B) m e m' :
  (c ≫= k) m = Throw e m' →
  c m = Throw e m' ∨ ∃ x m1, c m = Ok x m1 ∧ k x m1 = Throw e m'.
Proof.
  unfold mbind, M_bind, bind. destruct (c m) as [x m1|e1 m1| |]; try done.
  - right. eauto.
  - intros [= -> ->]. by left.
Qed.

Lemma obj_Ok_inv this m L m1 : obj this m = Ok L m1 → m1 = m.
Proof. unfold obj. destruct (lists m !! this); [|done]. by intros [= _ ->]. Qed.

(** Reading a field of the list object leaves the memory alone. *)
Lemma read_field_inv {A} (f : DLList → A) this m x m1 :
  (L ← obj this; mret (f L)) m = Ok x m1 → m1 = m.
Proof.
  unfold mbind, M_bind, bind, obj. destruct (lists m !! this); [|done].
  by intros [= _ ->].
Qed.

Lemma CHECK_THROW_Ok_inv s b m x m1 :
  CHECK_THROW s b m = Ok x m1 → m1 = m ∧ b = true.
Proof. destruct b; [|done]. by intros [= _ ->]. Qed.

Lemma CHECK_THROW_Throw_inv s b m e m1 :
  CHECK_THROW s b m = Throw e m1 → m1 = m ∧ e = runtime_error s ∧ b = false.
Proof. destruct b; [done|]. by intros [= -> ->]. Qed.

Lemma read_field_Ok_inv {A} (f : DLList → A) this m x m1 :
  (L ← obj this; mret (f L)) m = Ok x m1 →
  m1 = m ∧ ∃ L, lists m !! this = Some L ∧ x = f L.
Proof.
  unfold mbind, M_bind, bind, obj. destruct (lists m !! this) as [L|]; [|done].
  intros [= <- <-]. eauto.
Qed.

(** A check that follows reads only, with nothing that throws behind it. *)
Lemma checked_unchanged {A C} (f : DLList → A) (chk : A → bool) s
    (k : A → M T C) this m e m' :
  (∀ x, no_throw (k x)) →
  (x ← (L ← obj this; mret (f L)); CHECK_THROW s (chk x);; k x) m = Throw e m' →
  m' = m ∧ e = runtime_error s ∧
  ∃ L, lists m !! this = Some L ∧ chk (f L) = false.
Proof.
  intros Hk [H|(x & m1 & Hx & H)]%bind_Throw_inv.
  { exfalso. revert H. by apply no_throw_bind; [apply no_throw_obj|intros; apply no_throw_ret]. }
  apply read_field_Ok_inv in Hx as (-> & L & HL & ->).
  apply bind_Throw_inv in H as [H|(? & m1 & Hc & H)].
  - apply CHECK_THROW_Throw_inv in H. naive_solver.
  - by apply Hk in H.
Qed.

Lemma get_Throw_inv fuel this i m e m' :
  get fuel this i m = Throw e m' → m' = m ∧ e = runtime_error chk_index.
Proof.
  unfold get, get_size. intros H.
  apply (checked_unchanged _size
           (λ sz, (i <? to_int64 sz) && (i >=? neg64 (to_int64 sz)))) in H.
  - naive_solver.
  - intros sz. pose proof no_throw_get_back. pose proof no_throw_get_fwd.
    no_throw_tac.
Qed.

Lemma pop_front_Throw_inv this m e m' :
  pop_front this m = Throw e m' →
  m' = m ∧ e = runtime_error chk_head ∧
  ∃ L, lists m !! this = Some L ∧ _head L = None.
Proof.
  unfold pop_front, get_head. intros H.
  apply (checked_unchanged _head nonnull) in H.
  - destruct H as (? & ? & L & ? & Hn). split_and!; [done..|].
    exists L. split; [done|]. by destruct (_head L).
  - intros hd. no_throw_tac.
Qed.

Lemma pop_back_Throw_inv this m e m' :
  pop_back this m = Throw e m' →
  m' = m ∧ e = runtime_error chk_tail ∧
  ∃ L, lists m !! this = Some L ∧ _tail L = None.
Proof.
  unfold pop_back, get_tail. intros H.
  apply (checked_unchanged _tail nonnull) in H.
  - destruct H as (? & ? & L & ? & Hn). split_and!; [done..|].
    exists L. split; [done|]. by destruct (_tail L).
  - intros tl. no_throw_tac.
Qed.

Lemma erase_Throw_inv this itr m e m' :
  erase this itr m = Throw e m' →
  m' = m ∧ e = runtime_error chk_not_end ∧ _ptr itr = None.
Proof.
  unfold erase, end_, begin, iter_eq, get_head. cbn [_ptr].
  intros [H|(x & m1 & [= <- <-] & H)]%bind_Throw_inv; [done|].
  apply bind_Throw_inv in H as [H|(? & m1 & Hc & H)].
  { apply CHECK_THROW_Throw_inv in H as (-> & -> & Hb). split_and!; [done..|].
    apply negb_false_iff, bool_decide_eq_true in Hb. done. }
  exfalso. apply CHECK_THROW_Ok_inv in Hc as (-> & Hb).
  apply negb_true_iff, bool_decide_eq_false in Hb.
  apply bind_Throw_inv in H as [H|(b & m1 & Hbeg & H)].
  { revert H. no_throw_tac. }
  rewrite bind_assoc in Hbeg.
  apply (read_field_Ok_inv (λ L, Iter (_head L) this)) in Hbeg as (-> & L & HL & ->).
  cbn [_ptr] in H. case_bool_decide as Hhd.
  - apply bind_Throw_inv in H as [H|(? & m1 & _ & H)].
    + apply pop_front_Throw_inv in H as (_ & _ & L' & HL' & Hnone).
      cbn [_ptr] in Hb. congruence.
    + revert H. no_throw_tac.
  - revert H. no_throw_tac.
Qed.

Lemma DLList_fill_Throw_inv fuel this siz (val : T) m e m' :
  DLList_fill fuel this siz val m = Throw e m' →
  m' = m ∧ (siz < 0 ∨ 2 ^ 48 ≤ siz) ∧
  (e = runtime_error chk_siz_nonneg ∨ e = runtime_error chk_siz_bound).
Proof.
  unfold DLList_fill.
  intros [H|(? & m1 & Hc & H)]%bind_Throw_inv.
  { apply CHECK_THROW_Throw_inv in H as (-> & -> & Hb).
    apply bool_decide_eq_false in Hb. split_and!; [done|lia|by left]. }
  apply CHECK_THROW_Ok_inv in Hc as (-> & _).
  apply bind_Throw_inv in H as [H|(? & m1 & Hc & H)].
  { apply CHECK_THROW_Throw_inv in H as (-> & -> & Hb).
    apply bool_decide_eq_false in Hb. split_and!; [done| |by right].
    right. change (1 ≪ 48) with (2 ^ 48) in Hb. lia. }
  exfalso. revert H. pose proof no_throw_fill_loop. no_throw_tac.
Qed.

Lemma get_out_of_range fuel this cs i m :
  dll m this cs →
  i < - Z.of_nat (length cs) ∨ Z.of_nat (length cs) ≤ i →
  get fuel this i m = Throw (runtime_error chk_index) m.
Proof.
  intros Hdll Hi. open_dll Hdll. unfold get. run.
  rewrite to_int64_small, neg64_small by lia.
  replace ((i <? Z.of_nat (length cs)) && (i >=? - Z.of_nat (length cs)))
    with false; [done|].
  symmetry. apply andb_false_iff.
  destruct Hi; [right; rewrite Z.geb_leb; apply Z.leb_gt|left; apply Z.ltb_ge]; lia.
Qed.

Lemma pop_front_empty this m :
  dll m this [] → pop_front this m = Throw (runtime_error chk_head) m.
Proof. intros Hdll. open_dll Hdll. unfold pop_front. by run. Qed.

Lemma pop_back_empty this m :
  dll m this [] → pop_back this m = Throw (runtime_error chk_tail) m.
Proof. intros Hdll. open_dll Hdll. unfold pop_back. by run. Qed.

Lemma iter_deref_sentinel this m :
  iter_deref (Iter None this) m = Throw (runtime_error chk_ptr) m.
Proof. done. Qed.

Lemma erase_sentinel this m :
  erase this (Iter None this) m = Throw (runtime_error chk_not_end) m.
Proof. done. Qed.

Lemma DLList_fill_negative fuel this siz (val : T) m :
  siz < 0 →
  DLList_fill fuel this siz val m = Throw (runtime_error chk_siz_nonneg) m.
Proof.
  intros. unfold DLList_fill. rewrite (bool_decide_false (siz >= 0)) by lia.
  by rewrite (bind_Throw _ _ _ _ _ (check_false_run _ _)).
Qed.

Lemma DLList_fill_too_large fuel this siz (val : T) m :
  2 ^ 48 ≤ siz →
  DLList_fill fuel this siz val m = Throw (runtime_error chk_siz_bound) m.
Proof.
  intros. unfold DLList_fill. rewrite (bool_decide_true (siz >= 0)) by lia.
  rewrite (bind_Ok _ _ _ _ _ (check_true_run _ _)).
  rewrite (bool_decide_false (siz < 1 ≪ 48))
    by (change (1 ≪ 48) with (2 ^ 48); lia).
  by rewrite (bind_Throw _ _ _ _ _ (check_false_run _ _)).
Qed.

End Rejected.

(** ** Checking well-formedness by computation *)

Section CheckFacts.
Context {T : Type} `{EqDecision T}.
Implicit Types (h : gmap loc (_node T)) (m : mem T) (p n : ptr)
  (c : loc * T) (cs : list (loc * T)) (this : ref).

Lemma dseg_check_sound h p cs n : dseg_check h p cs n = true → dseg h p cs n.
Proof.
  revert p. induction cs as [|c cs IH]; intros p; [done|]. simpl.
  intros [Hc Hcs]%andb_true_iff. split; [by apply bool_decide_eq_true in Hc|auto].
Qed.

Lemma dll_check_sound m this cs : dll_check m this cs = true → dll m this cs.
Proof.
  unfold dll_check. rewrite !andb_true_iff, !bool_decide_eq_true.
  intros [[[HL Hb] Hnd] Hseg]. eexists. split; [exact HL|].
  split_and!; try done. by apply dseg_check_sound.
Qed.

End CheckFacts.

Example demo_mem_dll : dll_check demo_mem 1%positive demo_cells = true.
Proof. vm_compute. reflexivity. Qed.

Example demo_init :
  result_of ((DLList_init 1%positive [30; 10; 20];; snapshot) empty_mem)
  = Some demo_mem.
Proof. vm_compute. reflexivity. Qed.

(** ** Clearing, moving and assigning *)

Section MoveFacts.
Context {T : Type}.
Implicit Types (h : gmap loc (_node T)) (m : mem T) (p n : ptr)
  (c : loc * T) (cs : list (loc * T)) (this other : ref).

Lemma _clear_loop_run fuel m this cs p tl sz :
  lists m !! this = Some (List (first_ptr cs None) tl sz) →
  dseg (nodes m) p cs None → NoDup cs.*1 → (length cs < fuel)%nat →
  ∃ h', _clear_loop fuel this m
        = Ok tt (Mem h' (<[this := List None tl sz]> (lists m))) ∧
        ∀ a, h' !! a = if decide (a ∈ cs.*1) then None else nodes m !! a.
Proof.
  revert m cs p. induction fuel as [|fuel IH]; intros m cs p HL Hseg Hnd Hf; [lia|].
  cbn [_clear_loop]. run. destruct cs as [|c cs]; list_simpl.
  - run_simpl. exists (nodes m). split.
    + rewrite insert_id by done. by destruct m.
    + intros a. rewrite decide_False; [done|]. set_solver.
  - destruct Hseg as [Hc Hseg]. apply NoDup_cons in Hnd as [Hc' Hnd].
    run_simpl. run.
    destruct (IH (Mem (delete c.1 (nodes m))
                    (<[this := List (first_ptr cs None) tl sz]> (lists m)))
                cs (Some c.1)) as (h' & Hrun & Hh'); cbn [nodes lists].
    + by rewrite lookup_insert_eq.
    + eapply dseg_frame; [|done]. frame_tac.
    + done.
    + simpl in Hf. lia.
    + rewrite Hrun. cbn [lists]. rewrite insert_insert_eq. exists h'. split; [done|].
      intros a. rewrite Hh'. cbn [nodes]. destruct (decide (a = c.1)) as [->|Hne].
      * rewrite decide_False by done. rewrite decide_True by set_solver.
        by rewrite lookup_delete_eq.
      * rewrite lookup_delete_ne by done.
        destruct (decide (a ∈ cs.*1)).
        -- by rewrite decide_True by set_solver.
        -- by rewrite decide_False by set_solver.
Qed.

(** [_clear] frees every node and leaves the stale [_size] behind. *)
Lemma _clear_run fuel m this cs :
  dll m this cs → (length cs < fuel)%nat →
  ∃ h', _clear fuel this m
        = Ok tt (Mem h' (<[this := List None None (Z.of_nat (length cs))]> (lists m))) ∧
        ∀ a, h' !! a = if decide (a ∈ cs.*1) then None else nodes m !! a.
Proof.
  intros Hdll Hf. open_dll Hdll. unfold _clear.
  destruct (_clear_loop_run fuel m this cs None _ _ HL Hseg Hnd Hf) as (h' & Hrun & Hh').
  rewrite (bind_Ok _ _ _ _ _ Hrun). run. rewrite insert_insert_eq. eauto.
Qed.

(** Copy-assignment of a list to itself: the nodes are freed before the
    (now empty) source is copied, and the old [_size] is written back. *)
Lemma assign_copy_self fuel m this cs :
  dll m this cs → (length cs < fuel)%nat →
  ∃ h', assign_copy fuel this this m
        = Ok tt (Mem h' (<[this := List None None (Z.of_nat (length cs))]> (lists m))) ∧
        ∀ a, h' !! a = if decide (a ∈ cs.*1) then None else nodes m !! a.
Proof.
  intros Hdll Hf. unfold assign_copy.
  destruct (_clear_run fuel m this cs Hdll Hf) as (h' & Hrun & Hh').
  rewrite (bind_Ok _ _ _ _ _ Hrun). run. unfold _copy_ll. run_simpl. run.
  rewrite !insert_insert_eq. eauto.
Qed.

(** The moved-from list of the move constructor. *)
Lemma DLList_move_run m this other cs :
  dll m other cs → this ≠ other →
  ∃ m', DLList_move this other m = Ok tt m' ∧
        nodes m' = nodes m ∧
        dll m' this cs ∧
        lists m' !! other = Some (List None None (Z.of_nat (length cs))).
Proof.
  intros Hdll Hne. open_dll Hdll. unfold DLList_move. run.
  eexists. split; [done|]. cbn [nodes lists]. split_and!; [done| |lookup_tac].
  by dll_intro.
Qed.

(** The moved-from list of the move assignment. *)
Lemma assign_move_run fuel m this other cs0 cs :
  dll m this cs0 → dll m other cs → this ≠ other →
  (length cs0 < fuel)%nat → (∀ a, a ∈ cs0.*1 → a ∉ cs.*1) →
  ∃ m', assign_move fuel this other m = Ok tt m' ∧
        dll m' this cs ∧
        lists m' !! other = Some (List None None (Z.of_nat (length cs))).
Proof.
  intros Hthis Hother Hne Hf Hdisj. unfold assign_move.
  destruct (_clear_run fuel m this cs0 Hthis Hf) as (h' & Hrun & Hh').
  rewrite (bind_Ok _ _ _ _ _ Hrun). clear Hrun Hthis. open_dll Hother. run.
  eexists. split; [done|]. cbn [nodes lists]. split; [|lookup_tac].
  dll_intro. split_and!; try done.
  eapply dseg_frame; [|done]. intros a Ha. rewrite Hh'.
  rewrite decide_False; [done|]. intros Ha'. by eapply Hdisj.
Qed.

(** The moved-from list of the move concatenation, in its two branches. *)
Lemma append_move_run m this other cs0 cs :
  dll m this cs0 → dll m other cs → this ≠ other →
  NoDup (cs0 ++ cs).*1 → Z.of_nat (length (cs0 ++ cs)) < 2 ^ 63 →
  cs0 = [] ∨ cs ≠ [] →
  ∃ m', append_move this other m = Ok tt m' ∧
        dll m' this (cs0 ++ cs) ∧
        lists m' !! other = Some (List None None (Z.of_nat (length cs))).
Proof.
  intros Hthis Hother Hne Hnd' Hlen Hcase. unfold append_move.
  destruct Hthis as ([hd0 tl0 sz0] & HL0 & Hh0 & Ht0 & Hs0 & Hb0 & Hnd0 & Hseg0).
  cbn [_head _tail _size] in *. subst hd0 tl0 sz0. open_dll Hother.
  destruct cs0 as [|x cs0 _] using rev_ind.
  { (* this is empty so move *)
    list_simpl. run. eexists. split; [done|]. cbn [nodes lists].
    split; [|lookup_tac]. by dll_intro. }
  destruct Hcase as [Hcase|Hcase]; [by destruct cs0|].
  destruct cs as [|y cs]; [done|].
  (* both nonempty *)
  rewrite length_app in Hlen.
  assert (x.1 ≠ y.1 ∧ (x.1 ∉ cs0.*1) ∧ (y.1 ∉ cs0.*1) ∧ (x.1 ∉ cs.*1) ∧ (y.1 ∉ cs.*1))
    as (Hxy & Hx0 & Hy0 & Hx1 & Hy1).
  { clear -Hnd'. rewrite <-app_assoc in Hnd'. simpl in Hnd'.
    pose proof Hnd' as (? & Hxr & Hnd'')%NoDup_fst_mid.
    pose proof Hnd'' as (? & ? & _)%NoDup_fst_mid.
    rewrite fmap_cons in Hxr. apply not_elem_of_cons in Hxr as [? ?]. done. }
  apply dseg_snoc in Hseg0 as [Hseg0 Hx].
  run. rewrite first_ptr_snoc_nonnull. run_simpl. list_simpl.
  destruct Hseg as [Hy Hseg]. run.
  eexists. split; [done|]. cbn [nodes lists]. split; [|lookup_tac].
  dll_intro. rewrite wrap64_small by lia. split_and!; try done; try lia.
  - by rewrite !first_ptr_app.
  - by rewrite last_ptr_app, !last_ptr_cons.
  - clear Hnd Hnd0 Hnd'. rewrite <-app_assoc. dseg_tac.
Qed.

End MoveFacts.

(** * The claims *)

Section Claims.
Context {T : Type}.
Implicit Types (h : gmap loc (_node T)) (m : mem T) (p n : ptr)
  (c : loc * T) (cs : list (loc * T)) (this other : ref).

(** C1. For every list and every strict weak ordering [comp], [sort(comp)]
    returns with the same nodes relinked in an order that is ascending for
    [comp]; the cells are a permutation of the original ones, cells with
    incomparable values keep their relative order, nothing is allocated,
    sorting the empty list changes nothing, and [sort()] is [sort] with
    the less-than of the element type. *)
Theorem sort_is_stable_sort (comp T_lt : T → T → bool) fuel m this cs :
  strict_weak_order comp → dll m this cs → (length cs ≤ fuel)%nat →
  ∃ m' cs',
    sort comp fuel this m = Ok tt m' ∧
    dll m' this cs' ∧
    ascending comp cs' ∧
    cs' ≡ₚ cs ∧
    stable comp cs cs' ∧
    dom (nodes m') = dom (nodes m) ∧
    (cs = [] → m' = m) ∧
    sort_default T_lt fuel this m = sort T_lt fuel this m.
Proof.
  intros Hswo Hdll Hf.
  destruct (sort_run comp Hswo fuel m this cs Hdll Hf)
    as (m' & cs' & Hrun & Hdll' & Hso & Hdom & _ & Hnil).
  exists m', cs'. split_and!; try done.
  - by destruct Hso as (_ & ? & _).
  - by destruct Hso as (? & _).
  - by apply sorted_of_stable.
Qed.

(** C3. [erase] is rejected with [InvalidIterator] exactly at the sentinel;
    at the node of index [k] it removes that node and only that one, the
    count drops by one, the other cells keep their order, and the iterator
    returned is the position that follows: the new head after erasing the
    head, the sentinel after erasing the tail, the former successor
    otherwise. *)
Theorem erase_removes_one_node m this cs it :
  dll m this cs → valid_pos this cs it →
  ((∃ e m', erase this it m = Throw e m') ↔ _ptr it = None) ∧
  (_ptr it = None →
   ∃ e, erase this it m = Throw e m ∧ kind_of e = Some InvalidIterator) ∧
  (_ptr it ≠ None →
   ∃ k c m',
     cs !! k = Some c ∧ _ptr it = Some c.1 ∧
     erase this it m = Ok (Iter (pos_at cs (S k)) this) m' ∧
     dll m' this (delete k cs) ∧
     pos_at cs (S k) = pos_at (delete k cs) k ∧
     nodes m' !! c.1 = None ∧
     dom (nodes m') = dom (nodes m) ∖ {[c.1]} ∧
     size this m' = Ok (Z.of_nat (length cs) - 1) m').
Proof.
  intros Hdll (Hlist & k & Hk & Hptr). destruct it as [ip il]. cbn [_ptr _list] in *.
  subst il. split_and!.
  - split.
    + intros (e & m' & H). by apply erase_Throw_inv in H as (_ & _ & ?).
    + intros ->. eauto using erase_sentinel.
  - intros ->. exists (runtime_error chk_not_end). by rewrite erase_sentinel.
  - intros Hnn.
    destruct (cs !! k) as [c|] eqn:Hc; [|by rewrite Hptr in Hnn; unfold pos_at in Hnn; rewrite Hc in Hnn].
    rewrite (pos_at_Some _ _ _ Hc) in Hptr. subst ip.
    pose proof (take_drop_middle cs k c Hc) as Hcs.
    pose proof Hdll as Hdll0. rewrite <-Hcs in Hdll.
    destruct (erase_run _ _ _ _ _ Hdll) as (m' & Hrun & Hdll' & Hdom).
    rewrite <-delete_take_drop in Hdll'. rewrite first_ptr_drop in Hrun.
    exists k, c, m'. split_and!; try done.
    + unfold pos_at. rewrite delete_take_drop, lookup_app_r, length_take.
      * apply lookup_lt_Some in Hc.
        replace (k - k `min` length cs)%nat with 0%nat by lia.
        by rewrite lookup_drop, Nat.add_0_r.
      * rewrite length_take. lia.
    + apply not_elem_of_dom. rewrite Hdom. set_solver.
    + unfold size. rewrite (get_size_run _ _ _ (dll_lists _ _ _ Hdll')). cbn [_size].
      do 2 f_equal. rewrite length_delete by eauto.
      apply lookup_lt_Some in Hc. lia.
Qed.

(** C4. At every position of the list (the node of index [k], or the
    sentinel for [k] the length), [insert] allocates exactly one node, puts
    it immediately before that position, raises the count by one, keeps
    the other cells in their order and returns an iterator to the new
    node; before the head the memory is the one [push_front] leaves, at
    the sentinel the one [push_back] leaves. *)
Theorem insert_adds_one_node m this cs (k : nat) (v : T) :
  dll m this cs → (k ≤ length cs)%nat →
  Z.of_nat (length cs) + 1 < 2 ^ 63 →
  ∃ a m',
    (a ∉ dom (nodes m)) ∧
    insert this (Iter (pos_at cs k) this) v m = Ok (Iter (Some a) this) m' ∧
    dll m' this (take k cs ++ (a, v) :: drop k cs) ∧
    dom (nodes m') = {[a]} ∪ dom (nodes m) ∧
    size this m' = Ok (Z.of_nat (length cs) + 1) m' ∧
    (k = 0%nat → push_front this v m = Ok tt m') ∧
    (k = length cs → push_back this v m = Ok tt m').
Proof.
  intros Hdll Hk Hlen.
  pose proof (take_drop k cs) as Hcs.
  pose proof Hdll as Hdll0. rewrite <-Hcs in Hdll.
  destruct (insert_run m this (take k cs) (drop k cs) v Hdll)
    as (m' & Hrun & Hdll' & Hdom & Hfront & Hback).
  { by rewrite Hcs. }
  rewrite first_ptr_drop in Hrun.
  exists (fresh (dom (nodes m))), m'. split_and!; try done.
  - apply is_fresh.
  - unfold size. rewrite (get_size_run _ _ _ (dll_lists _ _ _ Hdll')). cbn [_size].
    do 2 f_equal. rewrite length_app. cbn [length].
    rewrite length_take, length_drop. lia.
  - intros ->. by apply Hfront.
  - intros ->. apply Hback. by rewrite drop_all.
Qed.

(** C5. For every valid index [k], [get(k)] and [get(k - count)] return the
    same element, the cell of index [k] from the front. *)
Theorem get_index_symmetry m this cs fuel (k : nat) c :
  dll m this cs → (length cs < fuel)%nat → cs !! k = Some c →
  get fuel this (Z.of_nat k) m = Ok c m ∧
  get fuel this (Z.of_nat k - Z.of_nat (length cs)) m = Ok c m.
Proof.
  intros Hdll Hf Hk. split; eapply get_run; eauto.
Qed.

(** C6. [get(count)] and [get(-count-1)] fail with [OutOfRange], the pops
    of an empty list with [EmptyContainerError], and dereferencing the
    sentinel with [DereferenceError]. *)
Theorem boundary_violations_raise m this cs fuel :
  dll m this cs →
  (∃ e, get fuel this (Z.of_nat (length cs)) m = Throw e m ∧
        kind_of e = Some OutOfRange) ∧
  (∃ e, get fuel this (- Z.of_nat (length cs) - 1) m = Throw e m ∧
        kind_of e = Some OutOfRange) ∧
  (cs = [] →
   (∃ e, pop_front this m = Throw e m ∧ kind_of e = Some EmptyContainerError) ∧
   (∃ e, pop_back this m = Throw e m ∧ kind_of e = Some EmptyContainerError)) ∧
  (∃ e, iter_deref (Iter None this) m = Throw e m ∧
        kind_of e = Some DereferenceError).
Proof.
  intros Hdll. split_and!.
  - exists (runtime_error chk_index). split; [|done].
    apply get_out_of_range with cs; [done|lia].
  - exists (runtime_error chk_index). split; [|done].
    apply get_out_of_range with cs; [done|lia].
  - intros ->. split.
    + exists (runtime_error chk_head). by rewrite pop_front_empty.
    + exists (runtime_error chk_tail). by rewrite pop_back_empty.
  - exists (runtime_error chk_ptr). by rewrite iter_deref_sentinel.
Qed.

(** C7. The rejecting inputs (a negative or over-large size, an index out
    of range, a pop of the empty list, an erase at the sentinel) make the
    operation throw in the memory it was called in, and no throw of these
    operations ever comes after a mutation. *)
Theorem rejected_operation_changes_nothing m this cs fuel :
  dll m this cs →
  (∀ that siz (val : T), siz < 0 ∨ 2 ^ 48 ≤ siz →
     ∃ e, DLList_fill fuel that siz val m = Throw e m) ∧
  (∀ i, i < - Z.of_nat (length cs) ∨ Z.of_nat (length cs) ≤ i →
     ∃ e, get fuel this i m = Throw e m) ∧
  (cs = [] →
     (∃ e, pop_front this m = Throw e m) ∧ (∃ e, pop_back this m = Throw e m)) ∧
  (∃ e, erase this (Iter None this) m = Throw e m) ∧
  (∀ e m',
     (∀ that siz (val : T), DLList_fill fuel that siz val m = Throw e m' → m' = m) ∧
     (∀ i, get fuel this i m = Throw e m' → m' = m) ∧
     (pop_front this m = Throw e m' → m' = m) ∧
     (pop_back this m = Throw e m' → m' = m) ∧
     (∀ it, erase this it m = Throw e m' → m' = m)).
Proof.
  intros Hdll. split_and!.
  - intros that siz val [?|?].
    + eexists. by apply DLList_fill_negative.
    + eexists. by apply DLList_fill_too_large.
  - intros i Hi. eexists. by eapply get_out_of_range.
  - intros ->. split; eexists; [by apply pop_front_empty|by apply pop_back_empty].
  - eexists. apply erase_sentinel.
  - intros e m'. split_and!.
    + intros that siz val H. by apply DLList_fill_Throw_inv in H as (? & _).
    + intros i H. by apply get_Throw_inv in H as (? & _).
    + intros H. by apply pop_front_Throw_inv in H as (? & _).
    + intros H. by apply pop_back_Throw_inv in H as (? & _).
    + intros it H. by apply erase_Throw_inv in H as (? & _).
Qed.

(** C8. Iteration is cyclic and symmetric: from every position, [n] steps
    forward and then [n] steps back (or back and then forward) return to
    it; the last node is followed by the sentinel and the sentinel by the
    head, and symmetrically backwards; [count + 1] steps forward from the
    head return to the head. *)
Theorem iteration_is_cyclic m this cs it (n : nat) :
  dll m this cs → valid_pos this cs it →
  (it' ← iter_times n iter_incr it; iter_times n iter_decr it') m = Ok it m ∧
  (it' ← iter_times n iter_decr it; iter_times n iter_incr it') m = Ok it m ∧
  iter_incr (Iter (last_ptr None cs) this) m = Ok (Iter None this) m ∧
  iter_incr (Iter None this) m = Ok (Iter (first_ptr cs None) this) m ∧
  iter_decr (Iter (first_ptr cs None) this) m = Ok (Iter None this) m ∧
  iter_decr (Iter None this) m = Ok (Iter (last_ptr None cs) this) m ∧
  (b ← begin this; iter_times (S (length cs)) iter_incr b) m = begin this m.
Proof.
  intros Hdll (Hlist & k & Hk & Hptr). destruct it as [ip il].
  cbn [_ptr _list] in *. subst ip il.
  pose proof (iter_times_run m this cs iter_incr (next_idx (length cs))) as Hinc.
  pose proof (iter_times_run m this cs iter_decr (prev_idx (length cs))) as Hdec.
  assert (∀ j i, (i ≤ length cs)%nat →
    iter_times j iter_incr (Iter (pos_at cs i) this) m
    = Ok (Iter (pos_at cs (Nat.iter j (next_idx (length cs)) i)) this) m) as Hinc'.
  { intros j i Hi. apply Hinc; [apply next_idx_le| |done].
    intros. by apply iter_incr_run. }
  assert (∀ j i, (i ≤ length cs)%nat →
    iter_times j iter_decr (Iter (pos_at cs i) this) m
    = Ok (Iter (pos_at cs (Nat.iter j (prev_idx (length cs)) i)) this) m) as Hdec'.
  { intros j i Hi. apply Hdec; [apply prev_idx_le| |done].
    intros. by apply iter_decr_run. }
  clear Hinc Hdec. split_and!.
  - rewrite (bind_Ok _ _ _ _ _ (Hinc' n k Hk)).
    rewrite Hdec' by (apply iter_idx_le; [apply next_idx_le|done]).
    rewrite (iter_idx_round_trip _ _ (length cs));
      [done|apply next_idx_le|apply prev_next_idx|done].
  - rewrite (bind_Ok _ _ _ _ _ (Hdec' n k Hk)).
    rewrite Hinc' by (apply iter_idx_le; [apply prev_idx_le|done]).
    rewrite (iter_idx_round_trip _ _ (length cs));
      [done|apply prev_idx_le|apply next_prev_idx|done].
  - rewrite <-pos_at_last, iter_incr_run by (done || lia).
    destruct (decide (cs = [])) as [->|Hne]; [done|].
    assert (0 < length cs)%nat by (destruct cs; [done|simpl; lia]).
    unfold next_idx. rewrite decide_False by lia.
    replace (S (pred (length cs))) with (length cs) by lia.
    by rewrite pos_at_length.
  - pose proof (iter_incr_run m this cs (length cs) Hdll (le_n _)) as H.
    rewrite pos_at_length in H. rewrite H.
    unfold next_idx. rewrite decide_True by done. by rewrite pos_at_0.
  - rewrite <-pos_at_0, iter_decr_run by (done || lia).
    cbn [prev_idx]. by rewrite pos_at_length.
  - pose proof (iter_decr_run m this cs (length cs) Hdll (le_n _)) as H.
    rewrite pos_at_length in H. rewrite H.
    rewrite <-pos_at_last. unfold prev_idx. by destruct (length cs).
  - unfold begin. pose proof (dll_lists _ _ _ Hdll) as HL. run.
    rewrite <-pos_at_0, Hinc' by lia.
    rewrite Nat.iter_succ, iter_next_idx_from_0 by done.
    unfold next_idx. by rewrite decide_True.
Qed.

(** C9. [reverse] returns with the cells in reversed order, relinked in
    place (no node is allocated or freed) and with the count unchanged;
    a second [reverse] restores the memory it started from. *)
Theorem reverse_twice_restores m this cs fuel :
  dll m this cs → (length cs < fuel)%nat →
  ∃ m',
    reverse fuel this m = Ok tt m' ∧
    dll m' this (rev cs) ∧
    dom (nodes m') = dom (nodes m) ∧
    (∃ sz, size this m = Ok sz m ∧ size this m' = Ok sz m') ∧
    reverse fuel this m' = Ok tt m.
Proof.
  intros Hdll Hf.
  destruct (reverse_run m this cs fuel Hdll Hf) as (h' & Hrun & Hsw & Hdll').
  eexists. split; [exact Hrun|]. split_and!.
  - done.
  - by eapply swapped_on_dom.
  - exists (Z.of_nat (length cs)). unfold size.
    rewrite (get_size_run _ _ _ (dll_lists _ _ _ Hdll')).
    rewrite (get_size_run _ _ _ (dll_lists _ _ _ Hdll)).
    cbn [_size]. by rewrite length_rev.
  - by apply reverse_twice.
Qed.

End Claims.

(** ** The two defects, at concrete inputs *)

(** C2. The sources of the three moves, observed after the move: head and
    tail are null, but [_size] still holds the old count, so the source is
    not [empty()] and differs from a default-constructed list. *)
Theorem moved_from_list_keeps_its_size :
  let src := 1%positive in
  let dst := 2%positive in
  let fresh_list := 3%positive in
  let observe : M Z (DLList * Z * bool * bool) :=
    (L ← obj src; sz ← size src; e ← empty src;
     DLList_default fresh_list;;
     q ← eq_op Z_ne 5 src fresh_list;
     mret (L, sz, e, q)) in
  result_of ((DLList_init src [5; 6];; DLList_move dst src;; observe) empty_mem)
  = Some (List None None 2, 2, false, false) ∧
  result_of ((DLList_init src [5; 6];; DLList_init dst [7];;
              assign_move 5 dst src;; observe) empty_mem)
  = Some (List None None 2, 2, false, false) ∧
  result_of ((DLList_init src [5; 6];; DLList_init dst [7];;
              append_move dst src;; observe) empty_mem)
  = Some (List None None 2, 2, false, false) ∧
  result_of ((DLList_init src [5; 6];; DLList_init dst [];;
              append_move dst src;; observe) empty_mem)
  = Some (List None None 2, 2, false, false).
Proof. vm_compute. done. Qed.

(** C10. [a = a] on the list [{5, 6}]: every node is freed, head and tail
    are null, [_size] is still 2, and [get(0)] dereferences a null
    pointer. *)
Theorem self_assignment_loses_the_elements :
  let a := 1%positive in
  result_of ((DLList_init a [5; 6];; assign_copy 5 a a;;
              L ← obj a; mm ← snapshot; mret (L, nodes mm)) empty_mem)
  = Some (List None None 2, ∅) ∧
  (DLList_init a [5; 6];; assign_copy 5 a a;; get 5 a 0) empty_mem = Undefined ∧
  result_of ((DLList_init a [5; 6];; get 5 a 0) empty_mem) = Some (1%positive, 5).
Proof. vm_compute. done. Qed.

(** ** The claims at concrete lists *)

Lemma Z_lt_strict_weak_order : strict_weak_order Z_lt.
Proof.
  unfold Z_lt. split.
  - intros x. lia.
  - intros x y z. lia.
  - intros x y z [??] [??]. split; lia.
Qed.

Lemma demo_dll : dll demo_mem 1%positive demo_cells.
Proof. apply dll_check_sound. vm_compute. reflexivity. Qed.

Lemma nil_dll : dll nil_mem 1%positive [].
Proof. apply dll_check_sound. vm_compute. reflexivity. Qed.

Lemma sort_is_stable_sort_witness :
  ∃ m' cs',
    sort Z_lt 3 1%positive demo_mem = Ok tt m' ∧
    dll m' 1%positive cs' ∧
    ascending Z_lt cs' ∧
    cs' ≡ₚ demo_cells ∧
    stable Z_lt demo_cells cs' ∧
    dom (nodes m') = dom (nodes demo_mem) ∧
    (demo_cells = [] → m' = demo_mem) ∧
    sort_default Z_lt 3 1%positive demo_mem = sort Z_lt 3 1%positive demo_mem.
Proof.
  apply (sort_is_stable_sort Z_lt Z_lt 3 demo_mem 1%positive demo_cells).
  - exact Z_lt_strict_weak_order.
  - exact demo_dll.
  - simpl. lia.
Defined.

Lemma erase_removes_one_node_witness :
  let m := demo_mem in
  let this := 1%positive in
  let cs := demo_cells in
  let it := Iter (Some 2%positive) this in
  ((∃ e m', erase this it m = Throw e m') ↔ _ptr it = None) ∧
  (_ptr it = None →
   ∃ e, erase this it m = Throw e m ∧ kind_of e = Some InvalidIterator) ∧
  (_ptr it ≠ None →
   ∃ k c m',
     cs !! k = Some c ∧ _ptr it = Some c.1 ∧
     erase this it m = Ok (Iter (pos_at cs (S k)) this) m' ∧
     dll m' this (delete k cs) ∧
     pos_at cs (S k) = pos_at (delete k cs) k ∧
     nodes m' !! c.1 = None ∧
     dom (nodes m') = dom (nodes m) ∖ {[c.1]} ∧
     size this m' = Ok (Z.of_nat (length cs) - 1) m').
Proof.
  apply (erase_removes_one_node demo_mem 1%positive demo_cells
           (Iter (Some 2%positive) 1%positive)).
  - exact demo_dll.
  - split; [reflexivity|]. exists 1%nat. split; [simpl; lia|reflexivity].
Defined.

Lemma insert_adds_one_node_witness :
  let m := demo_mem in
  let this := 1%positive in
  let cs := demo_cells in
  ∃ a m',
    (a ∉ dom (nodes m)) ∧
    insert this (Iter (pos_at cs 1) this) 15 m = Ok (Iter (Some a) this) m' ∧
    dll m' this (take 1 cs ++ (a, 15) :: drop 1 cs) ∧
    dom (nodes m') = {[a]} ∪ dom (nodes m) ∧
    size this m' = Ok (Z.of_nat (length cs) + 1) m' ∧
    (1%nat = 0%nat → push_front this 15 m = Ok tt m') ∧
    (1%nat = length cs → push_back this 15 m = Ok tt m').
Proof.
  apply (insert_adds_one_node demo_mem 1%positive demo_cells 1 15).
  - exact demo_dll.
  - simpl. lia.
  - vm_compute. reflexivity.
Defined.

Lemma get_index_symmetry_witness :
  get 5 1%positive 1 demo_mem = Ok (2%positive, 10) demo_mem ∧
  get 5 1%positive (1 - 3) demo_mem = Ok (2%positive, 10) demo_mem.
Proof.
  apply (get_index_symmetry demo_mem 1%positive demo_cells 5 1 (2%positive, 10)).
  - exact demo_dll.
  - simpl. lia.
  - reflexivity.
Defined.

Lemma boundary_violations_raise_witness :
  let m := nil_mem in
  let this := 1%positive in
  (∃ e, get 5 this 0 m = Throw e m ∧ kind_of e = Some OutOfRange) ∧
  (∃ e, get 5 this (- 0 - 1) m = Throw e m ∧ kind_of e = Some OutOfRange) ∧
  (@nil (loc * Z) = [] →
   (∃ e, pop_front this m = Throw e m ∧ kind_of e = Some EmptyContainerError) ∧
   (∃ e, pop_back this m = Throw e m ∧ kind_of e = Some EmptyContainerError)) ∧
  (∃ e, iter_deref (Iter None this) m = Throw e m ∧
        kind_of e = Some DereferenceError).
Proof.
  apply (boundary_violations_raise nil_mem 1%positive [] 5).
  exact nil_dll.
Defined.

Lemma rejected_operation_changes_nothing_witness :
  let m := nil_mem in
  let this := 1%positive in
  let cs : list (loc * Z) := [] in
  let fuel := 5%nat in
  (∀ that siz (val : Z), siz < 0 ∨ 2 ^ 48 ≤ siz →
     ∃ e, DLList_fill fuel that siz val m = Throw e m) ∧
  (∀ i, i < - Z.of_nat (length cs) ∨ Z.of_nat (length cs) ≤ i →
     ∃ e, get fuel this i m = Throw e m) ∧
  (cs = [] →
     (∃ e, pop_front this m = Throw e m) ∧ (∃ e, pop_back this m = Throw e m)) ∧
  (∃ e, erase this (Iter None this) m = Throw e m) ∧
  (∀ e m',
     (∀ that siz (val : Z), DLList_fill fuel that siz val m = Throw e m' → m' = m) ∧
     (∀ i, get fuel this i m = Throw e m' → m' = m) ∧
     (pop_front this m = Throw e m' → m' = m) ∧
     (pop_back this m = Throw e m' → m' = m) ∧
     (∀ it, erase this it m = Throw e m' → m' = m)).
Proof.
  apply (rejected_operation_changes_nothing nil_mem 1%positive [] 5).
  exact nil_dll.
Defined.

Lemma iteration_is_cyclic_witness :
  let m := demo_mem in
  let this := 1%positive in
  let cs := demo_cells in
  let it := Iter (Some 2%positive) this in
  let n := 5%nat in
  (it' ← iter_times n iter_incr it; iter_times n iter_decr it') m = Ok it m ∧
  (it' ← iter_times n iter_decr it; iter_times n iter_incr it') m = Ok it m ∧
  iter_incr (Iter (last_ptr None cs) this) m = Ok (Iter None this) m ∧
  iter_incr (Iter None this) m = Ok (Iter (first_ptr cs None) this) m ∧
  iter_decr (Iter (first_ptr cs None) this) m = Ok (Iter None this) m ∧
  iter_decr (Iter None this) m = Ok (Iter (last_ptr None cs) this) m ∧
  (b ← begin this; iter_times (S (length cs)) iter_incr b) m = begin this m.
Proof.
  apply (iteration_is_cyclic demo_mem 1%positive demo_cells
           (Iter (Some 2%positive) 1%positive) 5).
  - exact demo_dll.
  - split; [reflexivity|]. exists 1%nat. split; [simpl; lia|reflexivity].
Defined.

Lemma reverse_twice_restores_witness :
  let m := demo_mem in
  let this := 1%positive in
  ∃ m',
    reverse 5 this m = Ok tt m' ∧
    dll m' this (rev demo_cells) ∧
    dom (nodes m') = dom (nodes m) ∧
    (∃ sz, size this m = Ok sz m ∧ size this m' = Ok sz m') ∧
    reverse 5 this m' = Ok tt m.
Proof.
  apply (reverse_twice_restores demo_mem 1%positive demo_cells 5).
  - exact demo_dll.
  - simpl. lia.
Defined.

(** * Further properties of the member functions *)

(** ** Which objects a computation writes *)

Section ObjectFrames.
Context {T : Type}.
Implicit Types (m : mem T) (p q : ptr) (this : ref).

Lemma keeps_ret this {A} (x : A) : keeps_objects_but this (mret x : M T A).
Proof. intros m a m' H. by injection H as <- <-. Qed.

Lemma keeps_bind this {A B} (c : M T A) (k : A → M T B) :
  keeps_objects_but this c → (∀ x, keeps_objects_but this (k x)) →
  keeps_objects_but this (c ≫= k).
Proof.
  intros Hc Hk m b m' H r Hr. unfold mbind, M_bind, bind in H.
  destruct (c m) as [x m1|e1 m1| |] eqn:E; try done.
  rewrite (Hk _ _ _ _ H r Hr). by eapply Hc.
Qed.

Lemma keeps_if this {A} (b : bool) (c1 c2 : M T A) :
  keeps_objects_but this c1 → keeps_objects_but this c2 →
  keeps_objects_but this (if b then c1 else c2).
Proof. by destruct b. Qed.

Lemma keeps_timeout this {A} : keeps_objects_but this (timeout : M T A).
Proof. by intros m a m'. Qed.

Lemma keeps_check this s b : keeps_objects_but this (CHECK_THROW s b : M T _).
Proof. intros m a m' H. destruct b; [|done]. by injection H as <- <-. Qed.

Lemma keeps_load this p : keeps_objects_but this (load p : M T _).
Proof.
  intros m a m' H. unfold load in H. repeat case_match; try done.
  by injection H as <- <-.
Qed.

Lemma keeps_store this p nd : keeps_objects_but this (store p nd : M T _).
Proof.
  intros m a m' H. unfold store in H. repeat case_match; try done.
  by injection H as <- <-.
Qed.

Lemma keeps_new_node this v p q : keeps_objects_but this (new_node v p q : M T _).
Proof. intros m a m' H. by injection H as <- <-. Qed.

Lemma keeps_delete_node this p : keeps_objects_but this (delete_node p : M T _).
Proof.
  intros m a m' H. unfold delete_node in H. repeat case_match; try done;
  by injection H as <- <-.
Qed.

Lemma keeps_ref_val this p : keeps_objects_but this (ref_val p : M T _).
Proof.
  intros m a m' H. unfold ref_val in H. repeat case_match; try done.
  by injection H as <- <-.
Qed.

Lemma keeps_obj this r : keeps_objects_but this (obj r : M T _).
Proof.
  intros m a m' H. unfold obj in H. repeat case_match; try done.
  by injection H as <- <-.
Qed.

Lemma keeps_set_obj this L : keeps_objects_but this (set_obj this L : M T _).
Proof.
  intros m a m' H r Hr. injection H as <- <-. cbn [lists].
  by rewrite lookup_insert_ne.
Qed.

End ObjectFrames.

Ltac keeps_tac :=
  repeat first
    [ assumption
    | apply keeps_ret | apply keeps_timeout | apply keeps_check | apply keeps_load
    | apply keeps_store | apply keeps_new_node | apply keeps_delete_node
    | apply keeps_ref_val | apply keeps_obj | apply keeps_set_obj
    | apply keeps_bind; [|intros ?]
    | apply keeps_if
    | progress unfold get_val, get_prev, get_next, set_prev, set_next,
        get_head, get_tail, get_size, set_head, set_tail, set_size, storage
    | progress cbv zeta
    | match goal with |- keeps_objects_but _ (let '(_, _) := ?x in _) => destruct x end
    | match goal with IH : context [keeps_objects_but] |- _ => apply IH end ].

Section SortFrames.
Context {T : Type}.
Variable comp : T → T → bool.
Implicit Types (m : mem T) (p q : ptr) (this : ref).

Lemma keeps__sort_split this fuel p q :
  keeps_objects_but this (_sort_split fuel p q : M T _).
Proof. revert p q. induction fuel; intros; cbn [_sort_split]; keeps_tac. Qed.

Lemma keeps__sort_merge this fuel p q r :
  keeps_objects_but this (_sort_merge comp fuel p q r : M T _).
Proof. revert p q r. induction fuel; intros; cbn [_sort_merge]; keeps_tac. Qed.

Lemma keeps__sort this fuel p q :
  keeps_objects_but this (_sort comp fuel p q : M T _).
Proof.
  revert p q. induction fuel; intros; cbn [_sort]; keeps_tac;
    try apply keeps__sort_split; try apply keeps__sort_merge; keeps_tac.
Qed.

Lemma keeps_sort this fuel : keeps_objects_but this (sort comp fuel this : M T _).
Proof. unfold sort, _sort_init. keeps_tac; try apply keeps__sort; keeps_tac. Qed.

End SortFrames.

(** ** The sorted order is unique *)

Section SortedUnique.
Context {T : Type}.
Variable comp : T → T → bool.
Hypothesis Hswo : strict_weak_order comp.
Implicit Types (m : mem T) (c : loc * T) (cs : list (loc * T)) (this : ref).

Lemma ascending_head_min c cs c' :
  ascending comp (c :: cs) → c' ∈ c :: cs → comp c'.2 c.2 = false.
Proof.
  intros Hasc Hin. apply ascending_cons in Hasc as [Hall _].
  apply elem_of_cons in Hin as [->|Hin].
  - apply (swo_irrefl Hswo).
  - rewrite Forall_forall in Hall. by apply Hall.
Qed.

Lemma ascending_unique cs cs' :
  ascending comp cs → ascending comp cs' → cs' ≡ₚ cs →
  (∀ k, filter (same_key comp k) cs' = filter (same_key comp k) cs) →
  cs' = cs.
Proof.
  revert cs'. induction cs as [|x xs IH]; intros cs' Ha Ha' Hp Hf.
  { by apply Permutation_nil_r. }
  destruct cs' as [|y ys].
  { symmetry in Hp. by apply Permutation_nil_r in Hp. }
  assert (incomparable comp x.2 y.2) as Hxy.
  { split.
    - apply (ascending_head_min y ys x Ha'). rewrite Hp. left.
    - apply (ascending_head_min x xs y Ha). rewrite <-Hp. left. }
  assert (y = x) as ->.
  { specialize (Hf x.2). rewrite !filter_cons in Hf.
    rewrite decide_True in Hf by done.
    rewrite decide_True in Hf by apply (incomparable_refl comp Hswo).
    by injection Hf. }
  f_equal. apply IH.
  - by apply ascending_cons in Ha as [_ ?].
  - by apply ascending_cons in Ha' as [_ ?].
  - by apply Permutation_cons_inv in Hp.
  - intros k. specialize (Hf k). rewrite !filter_cons in Hf.
    destruct (decide (same_key comp k x)); [by injection Hf|done].
Qed.

Lemma sorted_of_unique cs cs1 cs2 :
  sorted_of comp cs cs1 → sorted_of comp cs cs2 → cs1 = cs2.
Proof.
  intros (Hp1 & Ha1 & Hf1) (Hp2 & Ha2 & Hf2). apply ascending_unique; try done.
  - by rewrite Hp1, Hp2.
  - intros k. by rewrite Hf1, Hf2.
Qed.

Lemma sorted_of_ascending cs : ascending comp cs → sorted_of comp cs cs.
Proof. intros. by repeat split. Qed.

End SortedUnique.

(** ** Two memories that hold the same list *)

Section SameMemory.
Context {T : Type}.
Implicit Types (m : mem T) (c : loc * T) (cs : list (loc * T)) (this : ref).

Lemma dseg_agree (h h' : gmap loc (_node T)) p cs n a :
  dseg h p cs n → dseg h' p cs n → a ∈ cs.*1 → h' !! a = h !! a.
Proof.
  intros Hseg Hseg' [c [-> Hc]]%list_elem_of_fmap.
  apply list_elem_of_lookup in Hc as [k Hk].
  rewrite (dseg_lookup _ _ _ _ _ _ Hseg Hk).
  by rewrite (dseg_lookup _ _ _ _ _ _ Hseg' Hk).
Qed.

Lemma dll_same_memory m m' this cs :
  dll m this cs → dll m' this cs →
  (∀ a, a ∉ cs.*1 → nodes m' !! a = nodes m !! a) →
  (∀ r, r ≠ this → lists m' !! r = lists m !! r) →
  m' = m.
Proof.
  intros Hdll Hdll' Hn Hl.
  pose proof (dll_lists _ _ _ Hdll) as HL.
  pose proof (dll_lists _ _ _ Hdll') as HL'.
  destruct Hdll as (? & _ & _ & _ & _ & _ & _ & Hseg).
  destruct Hdll' as (? & _ & _ & _ & _ & _ & _ & Hseg').
  destruct m as [h l], m' as [h' l']. cbn [nodes lists] in *. f_equal.
  - apply map_eq. intros a. destruct (decide (a ∈ cs.*1)).
    + by eapply dseg_agree.
    + by apply Hn.
  - apply map_eq. intros r. destruct (decide (r = this)) as [->|Hne].
    + by rewrite HL, HL'.
    + by apply Hl.
Qed.

End SameMemory.

Section ExtraSort.
Context {T : Type}.
Implicit Types (m : mem T) (c : loc * T) (cs : list (loc * T)) (this : ref).

(** X1.  Sorting is idempotent: after [sort(comp)] a second [sort(comp)]
    returns in the memory the first one left, and on a list that is
    already ascending for [comp] the first one changes nothing either
    (every node keeps its place and its links). *)
Theorem sort_of_sorted_list_is_identity (comp : T → T → bool) fuel m this cs :
  strict_weak_order comp → dll m this cs → (length cs ≤ fuel)%nat →
  ∃ m', sort comp fuel this m = Ok tt m' ∧
        sort comp fuel this m' = Ok tt m' ∧
        (ascending comp cs → m' = m).
Proof.
  intros Hswo Hdll Hf.
  assert (∀ m0 cs0 m1, dll m0 this cs0 → (length cs0 ≤ fuel)%nat →
            ascending comp cs0 → sort comp fuel this m0 = Ok tt m1 → m1 = m0) as Hfix.
  { intros m0 cs0 m1 Hdll0 Hf0 Hasc Hrun1.
    destruct (sort_run comp Hswo fuel m0 this cs0 Hdll0 Hf0)
      as (m' & cs' & Hrun & Hdll' & Hso & _ & Hframe & _).
    rewrite Hrun in Hrun1. injection Hrun1 as <-.
    assert (cs' = cs0) as ->.
    { eapply (sorted_of_unique comp Hswo cs0); [done|]. by apply sorted_of_ascending. }
    apply (dll_same_memory _ _ this cs0); try done.
    intros r Hr. by eapply (keeps_sort comp this fuel). }
  destruct (sort_run comp Hswo fuel m this cs Hdll Hf)
    as (m' & cs' & Hrun & Hdll' & Hso & _ & _ & _).
  exists m'. split_and!; [done| |by eauto].
  assert (length cs' ≤ fuel)%nat as Hf'.
  { destruct Hso as (Hp & _). by rewrite (Permutation_length Hp). }
  destruct (sort_run comp Hswo fuel m' this cs' Hdll' Hf') as (m'' & ? & Hrun' & _).
  rewrite Hrun'. f_equal. eapply Hfix; [done..| |done]. by destruct Hso as (_ & ? & _).
Qed.

End ExtraSort.

Lemma sort_of_sorted_list_is_identity_witness :
  ∃ m', sort Z_lt 3 1%positive demo_mem = Ok tt m' ∧
        sort Z_lt 3 1%positive m' = Ok tt m' ∧
        (ascending Z_lt demo_cells → m' = demo_mem).
Proof.
  apply (sort_of_sorted_list_is_identity Z_lt 3 demo_mem 1%positive demo_cells).
  - exact Z_lt_strict_weak_order.
  - exact demo_dll.
  - simpl. lia.
Defined.

(** ** Pushing and popping at the two ends *)

Section EndsRoundTrip.
Context {T : Type}.
Implicit Types (h : gmap loc (_node T)) (m : mem T) (p n : ptr)
  (c : loc * T) (cs : list (loc * T)) (this : ref).

Lemma wrap64_succ_pred sz : 0 ≤ sz < 2 ^ 63 → wrap64 (wrap64 (sz + 1) - 1) = sz.
Proof. intros. rewrite (wrap64_small (sz + 1)) by lia. rewrite wrap64_small; lia. Qed.

Lemma push_pop_front m this cs (v : T) :
  dll m this cs → (push_front this v;; pop_front this) m = Ok v m.
Proof.
  intros Hdll. open_dll Hdll.
  pose proof (fresh_not_in_segment _ _ _ _ Hseg) as Hfresh.
  pose proof (is_fresh (dom (nodes m))) as Hfr. apply not_elem_of_dom in Hfr.
  unfold push_front, pop_front. run.
  destruct cs as [|c0 cs]; list_simpl; run_simpl.
  - run. f_equal. destruct m as [h l]; cbn [nodes lists] in *. f_equal.
    + by apply delete_insert_id.
    + rewrite !insert_insert_eq, wrap64_succ_pred by lia. by apply insert_id.
  - destruct Hseg as [Hc0 Hseg].
    assert (fresh (dom (nodes m)) ≠ c0.1) as Hne by set_solver.
    run. f_equal. destruct m as [h l]; cbn [nodes lists] in *. f_equal.
    + apply map_eq. intros a. destruct (decide (a = c0.1)) as [->|Ha].
      * by rewrite lookup_insert_eq.
      * rewrite lookup_insert_ne by done.
        destruct (decide (a = fresh (dom h))) as [->|Ha'].
        -- by rewrite lookup_delete_eq.
        -- by rewrite lookup_delete_ne, !lookup_insert_ne by done.
    + rewrite !insert_insert_eq, wrap64_succ_pred by lia. by apply insert_id.
Qed.

Lemma push_pop_back m this cs (v : T) :
  dll m this cs → (push_back this v;; pop_back this) m = Ok v m.
Proof.
  intros Hdll. open_dll Hdll.
  pose proof (fresh_not_in_segment _ _ _ _ Hseg) as Hfresh.
  pose proof (is_fresh (dom (nodes m))) as Hfr. apply not_elem_of_dom in Hfr.
  unfold push_back, pop_back. run.
  destruct cs as [|c0 cs _] using rev_ind.
  - list_simpl; run_simpl. run. f_equal.
    destruct m as [h l]; cbn [nodes lists] in *. f_equal.
    + by apply delete_insert_id.
    + rewrite !insert_insert_eq, wrap64_succ_pred by lia. by apply insert_id.
  - rewrite first_ptr_snoc_nonnull. list_simpl.
    apply dseg_snoc in Hseg as [Hseg Hc0].
    assert (fresh (dom (nodes m)) ≠ c0.1) as Hne by set_solver.
    run. f_equal. destruct m as [h l]; cbn [nodes lists] in *. f_equal.
    + apply map_eq. intros a. destruct (decide (a = c0.1)) as [->|Ha].
      * by rewrite lookup_insert_eq.
      * rewrite lookup_insert_ne by done.
        destruct (decide (a = fresh (dom h))) as [->|Ha'].
        -- by rewrite lookup_delete_eq.
        -- by rewrite lookup_delete_ne, !lookup_insert_ne by done.
    + rewrite !insert_insert_eq, wrap64_succ_pred by lia. by apply insert_id.
Qed.

Lemma pop_back_run m this cs c :
  dll m this (cs ++ [c]) →
  ∃ m', pop_back this m = Ok c.2 m' ∧
        dll m' this cs ∧
        dom (nodes m') = dom (nodes m) ∖ {[c.1]}.
Proof.
  intros Hdll. open_dll Hdll.
  apply NoDup_fst_delete in Hnd as Hnd'. rewrite app_nil_r in Hnd'.
  assert (c.1 ∉ cs.*1) as Hc'.
  { rewrite fmap_app in Hnd. apply NoDup_app in Hnd as (_ & Hd & _).
    intros Hin. apply (Hd _ Hin). rewrite fmap_cons. left. }
  clear Hnd. list_simpl.
  apply dseg_snoc in Hseg as [Hseg Hc].
  unfold pop_back. run.
  destruct cs as [|c1 cs _] using rev_ind.
  - list_simpl; run_simpl. run. eexists. split; [done|]. split.
    + dll_intro. rewrite wrap64_small by lia.
      split_and!; try done; try lia.
    + cbn [nodes]. by rewrite dom_delete_L.
  - list_simpl. apply dseg_snoc in Hseg as [Hseg Hc1].
    assert (c.1 ≠ c1.1) as Hne.
    { intros Heq. apply Hc'. rewrite Heq. set_solver. }
    run. eexists. split; [done|]. split.
    + dll_intro. rewrite wrap64_small by lia.
      split_and!; try done; try lia.
      * by rewrite <-app_assoc, !first_ptr_app.
      * apply dseg_snoc. split; [|lookup_tac].
        eapply dseg_frame; [|done]. intros a Ha. cbn [nodes].
        apply NoDup_app in Hnd' as (_ & Hd & _).
        rewrite lookup_insert_ne, lookup_delete_ne; [done| |].
        -- intros Heq. subst a. apply Hc'. set_solver.
        -- intros Heq. subst a. apply (Hd _ Ha). left.
    + cbn [nodes]. rewrite dom_insert_L, dom_delete_L.
      assert (c1.1 ∈ dom (nodes m)) by (apply elem_of_dom; eauto).
      set_solver.
Qed.

End EndsRoundTrip.

Section ExtraEnds.
Context {T : Type}.
Implicit Types (h : gmap loc (_node T)) (m : mem T) (p n : ptr)
  (c : loc * T) (cs : list (loc * T)) (this : ref).

(** X2.  A push followed by the pop at the same end is a round trip: it returns
    the value pushed and leaves the memory exactly as it was (the node
    allocated is freed again, the links and the count are restored). *)
Theorem push_then_pop_restores m this cs (v : T) :
  dll m this cs →
  (push_front this v;; pop_front this) m = Ok v m ∧
  (push_back this v;; pop_back this) m = Ok v m ∧
  (prepend_val this v;; pop_front this) m = Ok v m ∧
  (append_val this v;; pop_back this) m = Ok v m.
Proof.
  intros Hdll. unfold prepend_val, append_val.
  split_and!; by (eapply push_pop_front || eapply push_pop_back).
Qed.

(** X3.  On a list that is not empty, [pop_front] returns the value of the
    first node and [pop_back] the value of the last one; the node is
    freed, no other node is allocated or freed, the remaining cells keep
    their order, and the count drops by one. *)
Theorem pop_removes_the_end_node m this cs :
  dll m this cs →
  (∀ c cs', cs = c :: cs' →
     ∃ m', pop_front this m = Ok c.2 m' ∧ dll m' this cs' ∧
           dom (nodes m') = dom (nodes m) ∖ {[c.1]} ∧
           size this m' = Ok (Z.of_nat (length cs) - 1) m') ∧
  (∀ c cs', cs = cs' ++ [c] →
     ∃ m', pop_back this m = Ok c.2 m' ∧ dll m' this cs' ∧
           dom (nodes m') = dom (nodes m) ∖ {[c.1]} ∧
           size this m' = Ok (Z.of_nat (length cs) - 1) m').
Proof.
  intros Hdll. split.
  - intros c cs' ->. destruct (pop_front_run _ _ _ _ Hdll) as (m' & Hrun & Hdll' & Hdom).
    exists m'. split_and!; try done.
    unfold size. rewrite (get_size_run _ _ _ (dll_lists _ _ _ Hdll')). cbn [_size length].
    do 2 f_equal. lia.
  - intros c cs' ->. destruct (pop_back_run _ _ _ _ Hdll) as (m' & Hrun & Hdll' & Hdom).
    exists m'. split_and!; try done.
    unfold size. rewrite (get_size_run _ _ _ (dll_lists _ _ _ Hdll')). cbn [_size].
    do 2 f_equal. rewrite length_app. simpl. lia.
Qed.

(** X4.  [clear()] frees exactly the nodes of the list and leaves it empty
    with count 0; the destructor frees the same nodes and ends the object.
    Neither touches another node or another list object. *)
Theorem clear_frees_every_node m this cs fuel :
  dll m this cs → (length cs < fuel)%nat →
  (∃ m', clear fuel this m = Ok tt m' ∧
         dll m' this [] ∧
         empty this m' = Ok true m' ∧
         (∀ a, nodes m' !! a = if decide (a ∈ cs.*1) then None else nodes m !! a) ∧
         (∀ r, r ≠ this → lists m' !! r = lists m !! r)) ∧
  (∃ m', destroy fuel this m = Ok tt m' ∧
         lists m' = delete this (lists m) ∧
         (∀ a, nodes m' !! a = if decide (a ∈ cs.*1) then None else nodes m !! a)).
Proof.
  intros Hdll Hf.
  destruct (_clear_run fuel m this cs Hdll Hf) as (h' & Hrun & Hh'). split.
  - unfold clear. rewrite (bind_Ok _ _ _ _ _ Hrun). run.
    eexists. split; [done|]. split_and!.
    + dll_intro. split_and!; try done. apply NoDup_nil_2.
    + unfold empty. run. by rewrite bool_decide_true.
    + done.
    + intros r Hr. cbn [lists]. by rewrite !lookup_insert_ne.
  - unfold destroy. rewrite (bind_Ok _ _ _ _ _ Hrun). unfold end_obj. cbn [nodes lists].
    eexists. split; [done|]. split; [|done]. cbn [lists].
    by rewrite delete_insert_eq.
Qed.

End ExtraEnds.

Lemma push_then_pop_restores_witness :
  let m := demo_mem in
  let this := 1%positive in
  (push_front this 7;; pop_front this) m = Ok 7 m ∧
  (push_back this 7;; pop_back this) m = Ok 7 m ∧
  (prepend_val this 7;; pop_front this) m = Ok 7 m ∧
  (append_val this 7;; pop_back this) m = Ok 7 m.
Proof.
  apply (push_then_pop_restores demo_mem 1%positive demo_cells 7).
  exact demo_dll.
Defined.

Lemma pop_removes_the_end_node_witness :
  let m := demo_mem in
  let this := 1%positive in
  let cs := demo_cells in
  (∀ c cs', cs = c :: cs' →
     ∃ m', pop_front this m = Ok c.2 m' ∧ dll m' this cs' ∧
           dom (nodes m') = dom (nodes m) ∖ {[c.1]} ∧
           size this m' = Ok (Z.of_nat (length cs) - 1) m') ∧
  (∀ c cs', cs = cs' ++ [c] →
     ∃ m', pop_back this m = Ok c.2 m' ∧ dll m' this cs' ∧
           dom (nodes m') = dom (nodes m) ∖ {[c.1]} ∧
           size this m' = Ok (Z.of_nat (length cs) - 1) m').
Proof.
  apply (pop_removes_the_end_node demo_mem 1%positive demo_cells).
  exact demo_dll.
Defined.

Lemma clear_frees_every_node_witness :
  let m := demo_mem in
  let this := 1%positive in
  let cs := demo_cells in
  let fuel := 4%nat in
  (∃ m', clear fuel this m = Ok tt m' ∧
         dll m' this [] ∧
         empty this m' = Ok true m' ∧
         (∀ a, nodes m' !! a = if decide (a ∈ cs.*1) then None else nodes m !! a) ∧
         (∀ r, r ≠ this → lists m' !! r = lists m !! r)) ∧
  (∃ m', destroy fuel this m = Ok tt m' ∧
         lists m' = delete this (lists m) ∧
         (∀ a, nodes m' !! a = if decide (a ∈ cs.*1) then None else nodes m !! a)).
Proof.
  apply (clear_frees_every_node demo_mem 1%positive demo_cells 4).
  - exact demo_dll.
  - simpl. lia.
Defined.

(** ** Iteration, indexing and reversal *)

Section ExtraTraversal.
Context {T : Type}.
Implicit Types (h : gmap loc (_node T)) (m : mem T) (p n : ptr)
  (c : loc * T) (cs : list (loc * T)) (this : ref).

Lemma rev_lookup {A} (l : list A) (i : nat) :
  (i < length l)%nat → rev l !! i = l !! (length l - S i)%nat.
Proof. intros Hi. rewrite rev_alt. exact (reverse_lookup l i Hi). Qed.

Lemma iter_prev_idx_from_end len j :
  (j ≤ len)%nat → Nat.iter j (prev_idx len) len = (len - j)%nat.
Proof.
  induction j as [|j IH]; intros Hj; [simpl; lia|].
  simpl. rewrite IH by lia. unfold prev_idx.
  destruct (len - j)%nat as [|d] eqn:E; lia.
Qed.

Lemma iter_deref_run m this cs k c :
  dll m this cs → cs !! k = Some c →
  iter_deref (Iter (pos_at cs k) this) m = Ok c m.
Proof.
  intros Hdll Hk. open_dll Hdll.
  pose proof (node_at _ _ _ _ Hseg Hk) as Hc.
  rewrite (pos_at_Some _ _ _ Hk). unfold iter_deref. run_simpl. run.
  by destruct c.
Qed.

Lemma iter_incr_from_begin m this cs (k : nat) :
  dll m this cs → (k ≤ length cs)%nat →
  (b ← begin this; iter_times k iter_incr b) m = Ok (Iter (pos_at cs k) this) m.
Proof.
  intros Hdll Hk. pose proof (dll_lists _ _ _ Hdll) as HL. unfold begin. run.
  rewrite <-pos_at_0.
  rewrite (iter_times_run m this cs iter_incr (next_idx (length cs)));
    [|apply next_idx_le|intros; by apply iter_incr_run|lia].
  by rewrite iter_next_idx_from_0.
Qed.

Lemma iter_decr_from_end m this cs (j : nat) :
  dll m this cs → (j ≤ length cs)%nat →
  (e ← end_ this; iter_times j iter_decr e) m
  = Ok (Iter (pos_at cs (length cs - j)) this) m.
Proof.
  intros Hdll Hj. unfold end_. run.
  rewrite <-(pos_at_length cs) at 1.
  rewrite (iter_times_run m this cs iter_decr (prev_idx (length cs)));
    [|apply prev_idx_le|intros; by apply iter_decr_run|lia].
  by rewrite iter_prev_idx_from_end.
Qed.

(** X5.  Iteration and indexing agree: [k] steps forward from [begin()], and
    [count - k] steps backward from [end()], both reach the node that
    [get(k)] returns, and dereferencing there gives its element. *)
Theorem iteration_agrees_with_get m this cs fuel (k : nat) c :
  dll m this cs → (length cs < fuel)%nat → cs !! k = Some c →
  (b ← begin this; it ← iter_times k iter_incr b; iter_deref it) m = Ok c m ∧
  (e ← end_ this; it ← iter_times (length cs - k) iter_decr e; iter_deref it) m
  = Ok c m ∧
  get fuel this (Z.of_nat k) m = Ok c m.
Proof.
  intros Hdll Hf Hk. pose proof (lookup_lt_Some _ _ _ Hk) as Hlt.
  assert (k ≤ length cs)%nat as Hle by lia.
  assert (length cs - k ≤ length cs)%nat as Hle' by lia.
  split_and!.
  - rewrite <-bind_assoc.
    rewrite (bind_Ok _ _ _ _ _ (iter_incr_from_begin m this cs k Hdll Hle)).
    by eapply iter_deref_run.
  - rewrite <-bind_assoc.
    rewrite (bind_Ok _ _ _ _ _ (iter_decr_from_end m this cs _ Hdll Hle')).
    replace (length cs - (length cs - k))%nat with k by lia.
    by eapply iter_deref_run.
  - eapply get_run; eauto.
Qed.

(** X6.  [reverse()] mirrors the indices: after it, the element at index
    [count - 1 - k], which is also the one at index [-1 - k], is the
    element that was at index [k]; it is still held by the same node. *)
Theorem reverse_mirrors_indices m this cs fuel (k : nat) c :
  dll m this cs → (length cs < fuel)%nat → cs !! k = Some c →
  get fuel this (Z.of_nat k) m = Ok c m ∧
  ∃ m', reverse fuel this m = Ok tt m' ∧
        get fuel this (Z.of_nat (length cs) - 1 - Z.of_nat k) m' = Ok c m' ∧
        get fuel this (- 1 - Z.of_nat k) m' = Ok c m'.
Proof.
  intros Hdll Hf Hk. pose proof (lookup_lt_Some _ _ _ Hk) as Hlt.
  split; [eapply get_run; eauto|].
  destruct (reverse_run m this cs fuel Hdll Hf) as (h' & Hrun & _ & Hdll').
  eexists. split; [exact Hrun|].
  assert (rev cs !! (length cs - 1 - k)%nat = Some c) as Hk'.
  { rewrite rev_lookup by lia. rewrite <-Hk. f_equal. lia. }
  split.
  - eapply get_run; [exact Hdll'|by rewrite length_rev|exact Hk'|]. left. lia.
  - eapply get_run; [exact Hdll'|by rewrite length_rev|exact Hk'|]. right.
    rewrite length_rev. lia.
Qed.

End ExtraTraversal.

Lemma iteration_agrees_with_get_witness :
  let m := demo_mem in
  let this := 1%positive in
  let c := (2%positive, 10) in
  (b ← begin this; it ← iter_times 1 iter_incr b; iter_deref it) m = Ok c m ∧
  (e ← end_ this; it ← iter_times (length demo_cells - 1) iter_decr e; iter_deref it) m
  = Ok c m ∧
  get 5 this 1 m = Ok c m.
Proof.
  apply (iteration_agrees_with_get demo_mem 1%positive demo_cells 5 1 (2%positive, 10)).
  - exact demo_dll.
  - simpl. lia.
  - reflexivity.
Defined.

Lemma reverse_mirrors_indices_witness :
  let m := demo_mem in
  let this := 1%positive in
  let c := (3%positive, 20) in
  get 5 this 2 m = Ok c m ∧
  ∃ m', reverse 5 this m = Ok tt m' ∧
        get 5 this (3 - 1 - 2) m' = Ok c m' ∧
        get 5 this (- 1 - 2) m' = Ok c m'.
Proof.
  apply (reverse_mirrors_indices demo_mem 1%positive demo_cells 5 2 (3%positive, 20)).
  - exact demo_dll.
  - simpl. lia.
  - reflexivity.
Defined.

(** ** Comparing two lists *)

Section ExtraEquality.
Context {T : Type}.
Variable T_ne : T → T → bool.
Implicit Types (h : gmap loc (_node T)) (m : mem T) (p n : ptr)
  (c : loc * T) (cs : list (loc * T)) (this other : ref).

Lemma eq_loop_run fuel m cs1 cs2 p1 p2 :
  dseg (nodes m) p1 cs1 None → dseg (nodes m) p2 cs2 None →
  length cs1 = length cs2 → (length cs1 < fuel)%nat →
  ∃ b, eq_loop T_ne fuel (first_ptr cs1 None) (first_ptr cs2 None) m = Ok b m ∧
       (b = true ↔ Forall2 (λ x y, T_ne x y = false) cs1.*2 cs2.*2).
Proof.
  revert fuel cs2 p1 p2.
  induction cs1 as [|c1 cs1 IH]; intros fuel cs2 p1 p2 Hs1 Hs2 Hlen Hf;
    (destruct fuel as [|fuel]; [simpl in Hf; lia|]);
    destruct cs2 as [|c2 cs2]; try done.
  { exists true. split; [done|]. split; [constructor|done]. }
  destruct Hs1 as [Hc1 Hs1], Hs2 as [Hc2 Hs2].
  cbn [eq_loop first_ptr nonnull]. run.
  destruct (T_ne c1.2 c2.2) eqn:Hne.
  - exists false. split; [done|]. split; [done|].
    rewrite !fmap_cons. intros [? _]%Forall2_cons. congruence.
  - run.
    destruct (IH fuel cs2 (Some c1.1) (Some c2.1) Hs1 Hs2) as (b & Hrun & Hb).
    { simpl in Hlen. lia. }
    { simpl in Hf. lia. }
    exists b. split; [done|]. rewrite Hb, !fmap_cons, Forall2_cons. tauto.
Qed.

Lemma eq_op_run fuel m this other cs1 cs2 :
  dll m this cs1 → dll m other cs2 → (length cs1 < fuel)%nat →
  ∃ b, eq_op T_ne fuel this other m = Ok b m ∧
       (b = true ↔ Forall2 (λ x y, T_ne x y = false) cs1.*2 cs2.*2).
Proof.
  intros H1 H2 Hf.
  pose proof (dll_lists _ _ _ H1) as HL1. pose proof (dll_lists _ _ _ H2) as HL2.
  destruct H1 as (? & _ & _ & _ & _ & Hb1 & _ & Hs1).
  destruct H2 as (? & _ & _ & _ & _ & Hb2 & _ & Hs2).
  unfold eq_op. run.
  destruct (decide (length cs1 = length cs2)) as [Hlen|Hlen].
  - rewrite bool_decide_false by lia. run. by eapply eq_loop_run.
  - rewrite bool_decide_true by lia. exists false. split; [done|].
    split; [done|]. intros Hall%Forall2_length. by rewrite !length_fmap in Hall.
Qed.

(** X7.  [operator==] returns true exactly when the two lists have the same
    count and [operator!=] of the element type holds at no position; so,
    for an element type whose [!=] is the negation of equality, exactly
    when they hold the same elements in the same order.  [operator!=] is
    its negation.  Neither changes the memory, and the two operands may
    be the same object. *)
Theorem equality_compares_elementwise fuel m this other cs1 cs2 :
  dll m this cs1 → dll m other cs2 → (length cs1 < fuel)%nat →
  ∃ b, eq_op T_ne fuel this other m = Ok b m ∧
       ne_op T_ne fuel this other m = Ok (negb b) m ∧
       (b = true ↔ Forall2 (λ x y, T_ne x y = false) cs1.*2 cs2.*2) ∧
       ((∀ x y, T_ne x y = false ↔ x = y) → (b = true ↔ cs1.*2 = cs2.*2)).
Proof.
  intros H1 H2 Hf.
  destruct (eq_op_run fuel m this other cs1 cs2 H1 H2 Hf) as (b & Hrun & Hb).
  exists b. split_and!; try done.
  - unfold ne_op. by rewrite (bind_Ok _ _ _ _ _ Hrun).
  - intros Hrefl. rewrite Hb. split.
    + intros Hall. apply list_eq_Forall2. eapply Forall2_impl; [done|].
      intros v1 v2. by rewrite Hrefl.
    + intros ->. apply Forall_Forall2_diag, Forall_forall. intros v1 _. by apply Hrefl.
Qed.

End ExtraEquality.

Lemma equality_compares_elementwise_witness :
  let m := demo_mem in
  let this := 1%positive in
  ∃ b, eq_op Z_ne 5 this this m = Ok b m ∧
       ne_op Z_ne 5 this this m = Ok (negb b) m ∧
       (b = true ↔ Forall2 (λ x y, Z_ne x y = false) demo_cells.*2 demo_cells.*2) ∧
       ((∀ x y, Z_ne x y = false ↔ x = y) → (b = true ↔ demo_cells.*2 = demo_cells.*2)).
Proof.
  apply (equality_compares_elementwise Z_ne 5 demo_mem 1%positive 1%positive
           demo_cells demo_cells).
  - exact demo_dll.
  - exact demo_dll.
  - simpl. lia.
Defined.

(** ** Growing a list at its tail *)

Section Growth.
Context {T : Type}.
Implicit Types (h : gmap loc (_node T)) (m : mem T) (p n : ptr)
  (c : loc * T) (cs new : list (loc * T)) (this other : ref).

Lemma dll_shape m this cs :
  dll m this cs ↔
  shape m this cs (Z.of_nat (length cs)) ∧ Z.of_nat (length cs) < 2 ^ 63.
Proof.
  split.
  - intros Hdll. pose proof (dll_lists _ _ _ Hdll) as HL.
    destruct Hdll as (? & _ & _ & _ & _ & Hb & Hnd & Hseg). by repeat split.
  - intros [(HL & Hnd & Hseg) Hb]. eexists. by split_and!.
Qed.

Lemma modifies_only_refl this cs m : modifies_only this cs m m.
Proof. by split. Qed.

Lemma modifies_only_dseg this cs m m' p cs' n :
  modifies_only this cs m m' → dseg (nodes m) p cs' n →
  (∀ a, a ∈ cs'.*1 → a ∉ cs.*1) → dseg (nodes m') p cs' n.
Proof.
  intros [_ Hn] Hseg Hdisj. eapply dseg_frame; [|done].
  intros a Ha. apply Hn; [|by apply Hdisj]. by eapply dseg_dom.
Qed.

(** A list whose nodes are none of [cs] is not affected. *)
Lemma modifies_only_dll this cs m m' other cs' :
  modifies_only this cs m m' → dll m other cs' → other ≠ this →
  (∀ a, a ∈ cs'.*1 → a ∉ cs.*1) → dll m' other cs'.
Proof.
  intros Hmod Hdll Hne Hdisj. pose proof Hmod as [Hl _].
  destruct Hdll as (L & HL & ? & ? & ? & ? & ? & Hseg).
  exists L. split_and!; try done.
  - by rewrite Hl.
  - by eapply modifies_only_dseg.
Qed.

Lemma grown_refl this cs sz m : shape m this cs sz → grown this cs [] sz m m.
Proof.
  intros Hs. split_and!.
  - by rewrite app_nil_r.
  - apply modifies_only_refl.
  - intros a Ha. by apply elem_of_nil in Ha.
  - simpl. set_solver.
Qed.

Lemma grown_trans this cs new1 new2 sz1 sz2 m m1 m2 :
  grown this cs new1 sz1 m m1 → grown this (cs ++ new1) new2 sz2 m1 m2 →
  grown this cs (new1 ++ new2) sz2 m m2.
Proof.
  intros (Hs1 & [Hl1 Hn1] & Hnew1 & Hdom1) (Hs2 & [Hl2 Hn2] & Hnew2 & Hdom2).
  split_and!.
  - by rewrite app_assoc.
  - split.
    + intros r Hr. by rewrite Hl2, Hl1.
    + intros a Ha Hcs. rewrite Hn2, Hn1; try done.
      * rewrite Hdom1. set_solver.
      * rewrite fmap_app. apply not_elem_of_app. split; [done|].
        intros Hin. by apply (Hnew1 _ Hin).
  - intros a. rewrite fmap_app, elem_of_app. intros [Hin|Hin]; [by apply Hnew1|].
    apply Hnew2 in Hin. rewrite Hdom1 in Hin. set_solver.
  - rewrite Hdom2, Hdom1, fmap_app, list_to_set_app_L. set_solver.
Qed.

(** The first node of a list. *)
Lemma first_grown this sz sz' (v : T) m m' :
  shape m this [] sz →
  lists m' = <[this := List (Some (fresh (dom (nodes m))))
                            (Some (fresh (dom (nodes m)))) sz']> (lists m) →
  nodes m' = <[fresh (dom (nodes m)) := Node v None None]> (nodes m) →
  grown this [] [(fresh (dom (nodes m)), v)] sz' m m'.
Proof.
  intros (HL & _ & _) Hl Hn.
  pose proof (is_fresh (dom (nodes m))) as Hfr.
  split_and!.
  - split_and!.
    + rewrite Hl. by rewrite lookup_insert_eq.
    + apply NoDup_singleton.
    + cbn [app dseg first_ptr fst snd]. split; [|done]. rewrite Hn.
      by rewrite lookup_insert_eq.
  - split.
    + intros r Hr. by rewrite Hl, lookup_insert_ne.
    + intros a Ha _. rewrite Hn, lookup_insert_ne; [done|]. by intros <-.
  - intros a Ha. apply list_elem_of_singleton in Ha. by subst a.
  - rewrite Hn, dom_insert_L. simpl. set_solver.
Qed.

(** One more node behind the tail [t]. *)
Lemma snoc_grown this cs t sz sz' (v : T) m m' :
  shape m this (cs ++ [t]) sz →
  lists m' = <[this := List (first_ptr (cs ++ [t]) None)
                            (Some (fresh (dom (nodes m)))) sz']> (lists m) →
  nodes m' = <[t.1 := Node t.2 (last_ptr None cs) (Some (fresh (dom (nodes m))))]>
               (<[fresh (dom (nodes m)) := Node v (Some t.1) None]> (nodes m)) →
  grown this (cs ++ [t]) [(fresh (dom (nodes m)), v)] sz' m m'.
Proof.
  intros (HL & Hnd & Hseg) Hl Hn.
  pose proof (is_fresh (dom (nodes m))) as Hfr.
  pose proof (fresh_not_in_segment _ _ _ _ Hseg) as Hfresh.
  apply dseg_snoc in Hseg as [Hseg Ht].
  assert (fresh (dom (nodes m)) ≠ t.1) as Hne.
  { intros Heq. apply Hfresh. rewrite fmap_app, Heq. set_solver. }
  assert (t.1 ∉ cs.*1) as Htcs.
  { rewrite fmap_app in Hnd. apply NoDup_app in Hnd as (_ & Hd & _).
    intros Hin. apply (Hd _ Hin). left. }
  split_and!.
  - split_and!.
    + rewrite Hl, lookup_insert_eq. do 2 f_equal.
      * by rewrite <-app_assoc, !first_ptr_app.
      * by rewrite last_ptr_snoc.
    + rewrite fmap_app. apply NoDup_app. split_and!; [done| |apply NoDup_singleton].
      intros a Ha Ha'. apply list_elem_of_singleton in Ha'. by subst a.
    + apply dseg_snoc. split; [apply dseg_snoc; split|].
      * eapply dseg_frame; [|done]. intros a Ha. rewrite Hn.
        rewrite !lookup_insert_ne; [done| |].
        -- intros Heq. subst a. apply Hfresh. rewrite fmap_app. set_solver.
        -- intros Heq. by subst a.
      * rewrite Hn. by rewrite lookup_insert_eq.
      * rewrite Hn, lookup_insert_ne, lookup_insert_eq by done.
        by rewrite last_ptr_snoc.
  - split.
    + intros r Hr. by rewrite Hl, lookup_insert_ne.
    + intros a Ha Hcs. rewrite Hn, !lookup_insert_ne; [done| |].
      * intros Heq. by subst a.
      * intros Heq. subst a. apply Hcs. rewrite fmap_app. set_solver.
  - intros a Ha. apply list_elem_of_singleton in Ha. by subst a.
  - rewrite Hn, !dom_insert_L. simpl.
    assert (t.1 ∈ dom (nodes m)) by (apply elem_of_dom; eauto).
    set_solver.
Qed.

End Growth.

Ltac grown_tac Hs :=
  first [ eapply first_grown; [exact Hs|..] | eapply snoc_grown; [exact Hs|..] ];
  cbn [lists nodes]; rewrite ?insert_insert_eq; reflexivity.

Section GrowthLoops.
Context {T : Type}.
Implicit Types (h : gmap loc (_node T)) (m : mem T) (p n : ptr)
  (c : loc * T) (cs new : list (loc * T)) (this other : ref).

Lemma shape_tail_node m this cs t sz :
  shape m this (cs ++ [t]) sz →
  lists m !! this = Some (List (first_ptr (cs ++ [t]) None) (Some t.1) sz) ∧
  nodes m !! t.1 = Some (Node t.2 (last_ptr None cs) None) ∧
  fresh (dom (nodes m)) ≠ t.1.
Proof.
  intros (HL & Hnd & Hseg). rewrite last_ptr_snoc in HL.
  pose proof (fresh_not_in_segment _ _ _ _ Hseg) as Hfresh.
  apply dseg_snoc in Hseg as [Hseg Ht]. split_and!; try done.
  intros Heq. apply Hfresh. rewrite fmap_app, Heq. set_solver.
Qed.

Lemma push_back_shape m this cs sz (v : T) :
  shape m this cs sz →
  ∃ m', push_back this v m = Ok tt m' ∧
        grown this cs [(fresh (dom (nodes m)), v)] (wrap64 (sz + 1)) m m'.
Proof.
  intros Hs. unfold push_back.
  destruct cs as [|t cs _] using rev_ind.
  - pose proof Hs as (HL & _ & _). cbn [first_ptr] in HL. rewrite last_ptr_nil in HL.
    run. eexists. split; [done|]. grown_tac Hs.
  - pose proof (shape_tail_node _ _ _ _ _ Hs) as (HL & Ht & Hne).
    run. rewrite first_ptr_snoc_nonnull. run.
    eexists. split; [done|]. grown_tac Hs.
Qed.

Lemma DLList_init_step_shape m this cs sz (v : T) :
  shape m this cs sz →
  ∃ m', DLList_init_step this v m = Ok tt m' ∧
        grown this cs [(fresh (dom (nodes m)), v)] sz m m'.
Proof.
  intros Hs. unfold DLList_init_step.
  destruct cs as [|t cs _] using rev_ind.
  - pose proof Hs as (HL & _ & _). cbn [first_ptr] in HL. rewrite last_ptr_nil in HL.
    run. eexists. split; [done|]. grown_tac Hs.
  - pose proof (shape_tail_node _ _ _ _ _ Hs) as (HL & Ht & Hne).
    run. eexists. split; [done|]. grown_tac Hs.
Qed.

Lemma DLList_init_loop_shape vals m this cs sz :
  shape m this cs sz →
  ∃ m' new, DLList_init_loop this vals m = Ok tt m' ∧
            grown this cs new sz m m' ∧ new.*2 = vals.
Proof.
  revert m cs. induction vals as [|v vals IH]; intros m cs Hs.
  { exists m, []. split_and!; [done|by apply grown_refl|done]. }
  cbn [DLList_init_loop].
  destruct (DLList_init_step_shape m this cs sz v Hs) as (m1 & Hrun1 & Hg1).
  rewrite (bind_Ok _ _ _ _ _ Hrun1).
  destruct (IH m1 _ (proj1 Hg1)) as (m2 & new & Hrun2 & Hg2 & Hvals).
  exists m2, ((fresh (dom (nodes m)), v) :: new). split_and!; [done| |by rewrite fmap_cons, Hvals].
  by apply (grown_trans _ _ [_] _ _ _ _ _ _ Hg1).
Qed.

Lemma fromFunc_loop_shape (func : Z → T) (k : nat) fuel m ret cs sz (i : Z) :
  shape m ret cs sz → 0 ≤ i → i + Z.of_nat k < 2 ^ 64 → (k < fuel)%nat →
  ∃ m' new, fromFunc_loop fuel ret i (i + Z.of_nat k) func m = Ok tt m' ∧
            grown ret cs new (Nat.iter k (λ z, wrap64 (z + 1)) sz) m m' ∧
            new.*2 = func <$> ((λ j : nat, i + Z.of_nat j) <$> seq 0 k).
Proof.
  revert fuel m cs sz i. induction k as [|k IH]; intros fuel m cs sz i Hs Hi Hb Hf;
    (destruct fuel as [|fuel]; [lia|]); cbn [fromFunc_loop].
  { rewrite Z.add_0_r, Z.ltb_irrefl. exists m, []. split_and!; [done|by apply grown_refl|done]. }
  destruct (Z.ltb_spec i (i + Z.of_nat (S k))); [|lia].
  unfold append_val.
  destruct (push_back_shape m ret cs sz (func i) Hs) as (m1 & Hrun1 & Hg1).
  rewrite (bind_Ok _ _ _ _ _ Hrun1). rewrite wrap64_small by lia.
  replace (i + Z.of_nat (S k)) with ((i + 1) + Z.of_nat k) by lia.
  destruct (IH fuel m1 _ (wrap64 (sz + 1)) (i + 1) (proj1 Hg1)) as (m2 & new & Hrun2 & Hg2 & Hvals);
    [lia..|].
  exists m2, ((fresh (dom (nodes m)), func i) :: new). split_and!; [done| |].
  - rewrite Nat.iter_succ_r. by apply (grown_trans _ _ [_] _ _ _ _ _ _ Hg1).
  - rewrite fmap_cons, Hvals. cbn [seq fmap list_fmap]. rewrite Z.add_0_r. f_equal.
    rewrite <-seq_shift, <-!list_fmap_compose. apply list_fmap_ext.
    intros ? j _. simpl. f_equal. lia.
Qed.

Lemma iter_wrap_succ (k : nat) sz :
  0 ≤ sz → sz + Z.of_nat k < 2 ^ 64 →
  Nat.iter k (λ z, wrap64 (z + 1)) sz = sz + Z.of_nat k.
Proof.
  induction k as [|k IH]; intros Hsz Hb; [simpl; lia|].
  rewrite Nat.iter_succ, IH by lia. rewrite wrap64_small; lia.
Qed.

Lemma DLList_fill_loop_shape (val : T) (k : nat) fuel m this cs t sz :
  shape m this (cs ++ [t]) sz → Z.of_nat (S k) < 2 ^ 63 → (k < fuel)%nat →
  ∃ m' new, DLList_fill_loop fuel this (Z.of_nat (S k)) val m = Ok tt m' ∧
            grown this (cs ++ [t]) new sz m m' ∧
            new.*2 = replicate k val.
Proof.
  revert fuel m cs t. induction k as [|k IH]; intros fuel m cs t Hs Hb Hf;
    (destruct fuel as [|fuel]; [lia|]); cbn [DLList_fill_loop].
  { change (Z.of_nat 1 - 1) with 0. rewrite to_int64_small by lia.
    rewrite bool_decide_false by lia.
    exists m, []. split_and!; [done|by apply grown_refl|done]. }
  replace (Z.of_nat (S (S k)) - 1) with (Z.of_nat (S k)) by lia.
  rewrite to_int64_small by lia. rewrite bool_decide_true by lia.
  pose proof (shape_tail_node _ _ _ _ _ Hs) as (HL & Ht & Hne).
  run.
  match goal with |- ∃ _ _, DLList_fill_loop _ _ _ _ ?m1 = _ ∧ _ =>
    assert (grown this (cs ++ [t]) [(fresh (dom (nodes m)), val)] sz m m1) as Hg1
      by grown_tac Hs;
    destruct (IH fuel m1 _ _ (proj1 Hg1)) as (m2 & new & Hrun2 & Hg2 & Hvals); [lia..|]
  end.
  exists m2, ((fresh (dom (nodes m)), val) :: new).
  split_and!; [done| |by rewrite fmap_cons, Hvals].
  by apply (grown_trans _ _ [_] _ _ _ _ _ _ Hg1).
Qed.

Lemma grown_constructed this new sz m m0 m1 m' :
  nodes m0 = nodes m → (∀ r, r ≠ this → lists m0 !! r = lists m !! r) →
  grown this [] new sz m0 m1 →
  lists m' = <[this := List (first_ptr new None) (last_ptr None new)
                            (Z.of_nat (length new))]> (lists m1) →
  nodes m' = nodes m1 →
  Z.of_nat (length new) < 2 ^ 63 →
  constructed this new m m'.
Proof.
  intros Hn0 Hl0 ((HL & Hnd & Hseg) & [Hl Hn] & Hnew & Hdom) Hl' Hn' Hb.
  split_and!.
  - eexists. split; [by rewrite Hl', lookup_insert_eq|].
    split_and!; try done. by rewrite Hn'.
  - intros a Ha. rewrite <-Hn0. by apply Hnew.
  - by rewrite Hn', Hdom, Hn0.
  - intros a Ha. rewrite Hn', Hn, Hn0; [done|by rewrite Hn0|]. intros Hin.
    by apply elem_of_nil in Hin.
  - intros r Hr. by rewrite Hl', lookup_insert_ne, Hl, Hl0.
Qed.

End GrowthLoops.

(** ** The constructors that build a list *)

Section ExtraConstructors.
Context {T : Type}.
Implicit Types (h : gmap loc (_node T)) (m : mem T) (p n : ptr)
  (c : loc * T) (cs new : list (loc * T)) (this other : ref).

Lemma shape_storage m this sz :
  shape (Mem (nodes m) (<[this := List None None sz]> (lists m))) this [] sz.
Proof.
  split_and!; [by cbn [lists]; rewrite lookup_insert_eq|apply NoDup_nil_2|done].
Qed.

(** X8.  [DLList({val0,val1,...})] builds, on new nodes, a well-formed list that
    holds exactly the given values in the given order; it changes no node
    and no other object that existed before. *)
Theorem initializer_list_constructs_the_values (vals : list T) m this :
  Z.of_nat (length vals) < 2 ^ 63 →
  ∃ m' cs, DLList_init this vals m = Ok tt m' ∧
           constructed this cs m m' ∧
           cs.*2 = vals.
Proof.
  intros Hb. unfold DLList_init. run. rewrite !insert_insert_eq.
  match goal with |- ∃ _ _, (DLList_init_loop _ _ ≫= _) ?m0 = _ ∧ _ =>
    destruct (DLList_init_loop_shape vals m0 this [] 0) as (m1 & new & Hrun & Hg & Hvals);
      [by apply (shape_storage m this _)|]
  end.
  rewrite (bind_Ok _ _ _ _ _ Hrun).
  pose proof Hg as ((HL & _) & _). rewrite app_nil_l in HL. run.
  assert (length new = length vals) as Hlen by by rewrite <-Hvals, length_fmap.
  exists (Mem (nodes m1)
            (<[this := List (first_ptr new None) (last_ptr None new)
                         (wrap64 (Z.of_nat (length vals)))]> (lists m1))), new.
  split_and!; [done| |done].
  eapply grown_constructed; [| |exact Hg| | |]; cbn [nodes lists]; try done.
  - intros r Hr. by rewrite lookup_insert_ne.
  - by rewrite wrap64_small, Hlen by lia.
  - lia.
Qed.

(** X9.  [DLList(siz,val)] with [0 <= siz < 2^48] builds, on new nodes, a
    well-formed list of [siz] copies of [val]; it changes no node and no
    other object that existed before. *)
Theorem count_constructor_fills_with_val fuel m this (siz : Z) (val : T) :
  0 ≤ siz < 2 ^ 48 → (Z.to_nat siz ≤ fuel)%nat →
  ∃ m' cs, DLList_fill fuel this siz val m = Ok tt m' ∧
           constructed this cs m m' ∧
           cs.*2 = replicate (Z.to_nat siz) val ∧
           size this m' = Ok siz m'.
Proof.
  intros Hsiz Hf. unfold DLList_fill.
  rewrite (bool_decide_true (siz >= 0)) by lia.
  rewrite (bool_decide_true (siz < 1 ≪ 48)) by (rewrite Z.shiftl_1_l; lia).
  run. rewrite wrap64_small by lia. rewrite !insert_insert_eq.
  destruct (decide (siz = 0)) as [->|Hne].
  - rewrite bool_decide_true by done. run. rewrite !insert_insert_eq.
    eexists _, []. split_and!; [done| |done|].
    + eapply grown_constructed; [| |apply grown_refl, (shape_storage m this 0)|..];
        cbn [nodes lists]; rewrite ?insert_insert_eq; try done.
      intros r Hr. by rewrite lookup_insert_ne.
    + unfold size. by run.
  - rewrite bool_decide_false by done. run. rewrite !insert_insert_eq.
    destruct (Z.to_nat siz) as [|k] eqn:Hk; [lia|].
    assert (siz = Z.of_nat (S k)) as -> by lia.
    pose (m0 := Mem (nodes m) (<[this := List None None (Z.of_nat (S k))]> (lists m))).
    pose (a := fresh (dom (nodes m))).
    match goal with |- ∃ _ _, DLList_fill_loop _ _ _ _ ?m1 = _ ∧ _ =>
      assert (grown this [] [(a, val)] (Z.of_nat (S k)) m0 m1) as Hg1
        by (apply (first_grown this (Z.of_nat (S k)) _ val m0); [apply shape_storage|..];
            unfold m0; cbn [lists nodes]; rewrite ?insert_insert_eq; reflexivity);
      destruct (DLList_fill_loop_shape val k fuel m1 this [] (a, val) (Z.of_nat (S k)))
        as (m2 & new & Hrun & Hg2 & Hvals); [exact (proj1 Hg1)|lia|lia|]
    end.
    rewrite Hrun.
    pose proof (grown_trans _ _ _ _ _ _ _ _ _ Hg1 Hg2) as Hg.
    assert (length new = k) as Hlen.
    { by rewrite <-(length_fmap snd), Hvals, length_replicate. }
    pose proof Hg as ((HL & _) & _). rewrite app_nil_l in HL.
    exists m2, ((a, val) :: new). split_and!; [done| | |].
    + eapply (grown_constructed this _ _ m m0 m2); [done| |exact Hg| | |].
      * intros r Hr. unfold m0. cbn [lists]. by rewrite lookup_insert_ne.
      * rewrite insert_id; [done|]. rewrite HL. cbn [app length]. by rewrite Hlen.
      * done.
      * cbn [app length]. lia.
    + cbn [app]. by rewrite fmap_cons, Hvals.
    + unfold size. by run.
Qed.

Lemma fmap_seq_lookup {A} (f : nat → A) (n k : nat) :
  (k < n)%nat → (f <$> seq 0 n) !! k = Some (f k).
Proof. intros. by rewrite list_lookup_fmap, lookup_seq_lt. Qed.

(** X10.  [fromFunc(n,func)] builds, on new nodes, the well-formed list of the
    values [func(0), func(1), ..., func(n-1)]; so [get(k)] on the result
    is [func(k)], and nothing that existed before is changed. *)
Theorem fromFunc_tabulates_func fuel m ret (n : nat) (func : Z → T) :
  Z.of_nat n < 2 ^ 63 → (n < fuel)%nat →
  ∃ m' cs, fromFunc fuel ret (Z.of_nat n) func m = Ok tt m' ∧
           constructed ret cs m m' ∧
           cs.*2 = (λ k : nat, func (Z.of_nat k)) <$> seq 0 n ∧
           ∀ k : nat, (k < n)%nat →
             ∃ a, get fuel ret (Z.of_nat k) m' = Ok (a, func (Z.of_nat k)) m'.
Proof.
  intros Hb Hf. unfold fromFunc, DLList_default. run.
  match goal with |- ∃ _ _, fromFunc_loop _ _ _ _ _ ?m0 = _ ∧ _ =>
    destruct (fromFunc_loop_shape func n fuel m0 ret [] 0 0)
      as (m1 & new & Hrun & Hg & Hvals);
      [by apply (shape_storage m ret _)|lia|lia|lia|]
  end.
  rewrite Z.add_0_l in Hrun. rewrite Hrun. rewrite iter_wrap_succ in Hg by lia.
  assert (new.*2 = (λ k : nat, func (Z.of_nat k)) <$> seq 0 n) as Hvals'.
  { rewrite Hvals, <-list_fmap_compose. apply list_fmap_ext. intros ? j _. simpl.
    f_equal; lia. }
  assert (length new = n) as Hlen.
  { by rewrite <-(length_fmap snd), Hvals', length_fmap, length_seq. }
  pose proof Hg as ((HL & _) & _). rewrite app_nil_l in HL.
  assert (constructed ret new m m1) as Hc.
  { eapply (grown_constructed ret _ _ m _ m1); [| |exact Hg| | |]; cbn [nodes lists]; try done.
    - intros r Hr. by rewrite lookup_insert_ne.
    - rewrite insert_id; [done|]. rewrite HL, Hlen. repeat f_equal; lia.
    - lia. }
  exists m1, new. split_and!; try done.
  intros k Hk. destruct Hc as (Hdll & _).
  assert (new.*2 !! k = Some (func (Z.of_nat k))) as Hk'.
  { rewrite Hvals'. by apply (fmap_seq_lookup (λ j : nat, func (Z.of_nat j))). }
  rewrite list_lookup_fmap in Hk'.
  destruct (new !! k) as [[a v]|] eqn:Hnk; [|done]. simpl in Hk'. injection Hk' as ->.
  exists a. eapply get_run; [done|lia|done|by left].
Qed.

End ExtraConstructors.

Lemma initializer_list_constructs_the_values_witness :
  ∃ m' cs, DLList_init 1%positive [30; 10; 20] empty_mem = Ok tt m' ∧
           constructed 1%positive cs empty_mem m' ∧
           cs.*2 = [30; 10; 20].
Proof.
  apply (initializer_list_constructs_the_values [30; 10; 20] empty_mem 1%positive).
  vm_compute. reflexivity.
Defined.

Lemma count_constructor_fills_with_val_witness :
  ∃ m' cs, DLList_fill 5 1%positive 3 7 empty_mem = Ok tt m' ∧
           constructed 1%positive cs empty_mem m' ∧
           cs.*2 = replicate (Z.to_nat 3) 7 ∧
           size 1%positive m' = Ok 3 m'.
Proof.
  apply (count_constructor_fills_with_val 5 empty_mem 1%positive 3 7).
  - lia.
  - simpl. lia.
Defined.

Lemma fromFunc_tabulates_func_witness :
  let func := λ i : Z, i * i in
  ∃ m' cs, fromFunc 5 1%positive (Z.of_nat 3) func empty_mem = Ok tt m' ∧
           constructed 1%positive cs empty_mem m' ∧
           cs.*2 = (λ k : nat, func (Z.of_nat k)) <$> seq 0 3 ∧
           ∀ k : nat, (k < 3)%nat →
             ∃ a, get 5 1%positive (Z.of_nat k) m' = Ok (a, func (Z.of_nat k)) m'.
Proof.
  apply (fromFunc_tabulates_func 5 empty_mem 1%positive 3 (λ i : Z, i * i)).
  - vm_compute. reflexivity.
  - lia.
Defined.

(** ** Copying a list *)

Section CopyLoops.
Context {T : Type}.
Implicit Types (h : gmap loc (_node T)) (m : mem T) (p n : ptr)
  (c : loc * T) (cs new src : list (loc * T)) (this other : ref).

Lemma grown_source this cs new sz m m' ps src :
  grown this cs new sz m m' → dseg (nodes m) ps src None →
  (∀ a, a ∈ src.*1 → a ∉ cs.*1) →
  dseg (nodes m') ps src None ∧ ∀ a, a ∈ src.*1 → a ∉ (cs ++ new).*1.
Proof.
  intros (_ & Hmod & Hnew & _) Hseg Hdisj. split.
  - by eapply modifies_only_dseg.
  - intros a Ha. rewrite fmap_app. apply not_elem_of_app. split; [by apply Hdisj|].
    intros Hin. apply (Hnew _ Hin). by eapply dseg_dom.
Qed.

Lemma _copy_ll_loop_shape fuel m this cs t sz s src ps :
  shape m this (cs ++ [t]) sz →
  dseg (nodes m) ps (s :: src) None →
  (∀ a, a ∈ (s :: src).*1 → a ∉ (cs ++ [t]).*1) →
  (length src < fuel)%nat →
  ∃ m' new, _copy_ll_loop fuel this (Some s.1) m = Ok tt m' ∧
            grown this (cs ++ [t]) new sz m m' ∧ new.*2 = src.*2.
Proof.
  revert fuel m cs t s ps.
  induction src as [|r src IH]; intros fuel m cs t s ps Hs Hseg Hdisj Hf;
    (destruct fuel as [|fuel]; [simpl in Hf; lia|]); cbn [_copy_ll_loop].
  { destruct Hseg as [Hs0 _]. cbn [first_ptr] in Hs0. run.
    exists m, []. split_and!; [done|by apply grown_refl|done]. }
  pose proof Hseg as [Hs0 [Hr _]]. cbn [first_ptr] in Hs0.
  pose proof (shape_tail_node _ _ _ _ _ Hs) as (HL & Ht & Hne).
  run.
  match goal with |- ∃ _ _, _copy_ll_loop _ _ _ ?m1 = _ ∧ _ =>
    assert (grown this (cs ++ [t]) [(fresh (dom (nodes m)), r.2)] sz m m1) as Hg1
      by grown_tac Hs;
    destruct (grown_source _ _ _ _ _ _ _ _ Hg1 Hseg Hdisj) as [[_ Hseg1] Hdisj1];
    destruct (IH fuel m1 _ _ r (Some s.1) (proj1 Hg1) Hseg1)
      as (m2 & new & Hrun2 & Hg2 & Hvals)
  end.
  { intros a Ha. apply Hdisj1. rewrite fmap_cons. by right. }
  { simpl in Hf. lia. }
  exists m2, ((fresh (dom (nodes m)), r.2) :: new).
  split_and!; [done| |by rewrite !fmap_cons, Hvals].
  by apply (grown_trans _ _ [_] _ _ _ _ _ _ Hg1).
Qed.

Lemma _copy_ll_shape fuel m this L src ps :
  lists m !! this = Some L →
  dseg (nodes m) ps src None → (length src ≤ fuel)%nat →
  ∃ m' new, _copy_ll fuel this (first_ptr src None) m = Ok tt m' ∧
            grown this [] new (_size L)
              (Mem (nodes m) (<[this := List None None (_size L)]> (lists m))) m' ∧
            new.*2 = src.*2.
Proof.
  intros HL Hseg Hf. unfold _copy_ll.
  pose (m0 := Mem (nodes m) (<[this := List None None (_size L)]> (lists m))).
  assert (shape m0 this [] (_size L)) as Hs0 by apply shape_storage.
  destruct src as [|s src]; cbn [first_ptr nonnull].
  { run. rewrite insert_insert_eq. exists m0, []. split_and!; [done|by apply grown_refl|done]. }
  pose proof Hseg as [Hs _]. run. rewrite insert_insert_eq.
  match goal with |- ∃ _ _, _copy_ll_loop _ _ _ ?m1 = _ ∧ _ =>
    assert (grown this [] [(fresh (dom (nodes m)), s.2)] (_size L) m0 m1) as Hg1
      by (apply (first_grown this (_size L) _ s.2 m0); [done|..];
          unfold m0; cbn [lists nodes]; rewrite ?insert_insert_eq; reflexivity);
    destruct (grown_source _ _ _ _ m0 _ _ _ Hg1 Hseg) as [Hseg1 Hdisj1];
      [intros ? _ Hin; by apply elem_of_nil in Hin|];
    destruct (_copy_ll_loop_shape fuel m1 this [] (fresh (dom (nodes m)), s.2)
                (_size L) s src ps (proj1 Hg1) Hseg1 Hdisj1)
      as (m2 & new & Hrun2 & Hg2 & Hvals); [simpl in Hf; lia|]
  end.
  exists m2, ((fresh (dom (nodes m)), s.2) :: new).
  split_and!; [done| |by rewrite !fmap_cons, Hvals].
  by apply (grown_trans _ _ [_] _ _ _ _ _ _ Hg1).
Qed.

(** The body shared by the copy constructor and the copy assignment, run
    on an object [this] whose fields may hold anything. *)
Lemma copy_from_run fuel m this other L cs :
  lists m !! this = Some L → dll m other cs → this ≠ other →
  (length cs ≤ fuel)%nat →
  ∃ m' cs',
    (hd ← get_head other; _copy_ll fuel this hd;;
     sz ← get_size other; set_size this sz) m = Ok tt m' ∧
    constructed this cs' m m' ∧ cs'.*2 = cs.*2.
Proof.
  intros HL Hdll Hne Hf. pose proof (dll_lists _ _ _ Hdll) as HLo.
  destruct Hdll as (? & _ & _ & _ & _ & Hb & _ & Hseg).
  run.
  destruct (_copy_ll_shape fuel m this L cs None HL Hseg Hf) as (m1 & new & Hrun & Hg & Hvals).
  rewrite (bind_Ok _ _ _ _ _ Hrun).
  pose proof Hg as ((HL1 & _) & [Hl1 _] & _). rewrite app_nil_l in HL1.
  assert (lists m1 !! other = lists m !! other) as HLo1.
  { rewrite Hl1 by done. cbn [lists]. by rewrite lookup_insert_ne. }
  rewrite HLo in HLo1. run.
  assert (length new = length cs) as Hlen.
  { by rewrite <-(length_fmap snd new), Hvals, length_fmap. }
  eexists _, new. split_and!; [done| |done].
  eapply (grown_constructed this _ _ m _ m1); [| |exact Hg|..]; cbn [nodes lists]; try done.
  - intros r Hr. by rewrite lookup_insert_ne.
  - by rewrite Hlen.
  - by rewrite Hlen.
Qed.

End CopyLoops.

Section ExtraCopy.
Context {T : Type}.
Implicit Types (h : gmap loc (_node T)) (m : mem T) (p n : ptr)
  (c : loc * T) (cs new src : list (loc * T)) (this other : ref).

Lemma constructed_source this cs' m m' other cs :
  constructed this cs' m m' → dll m other cs → this ≠ other → dll m' other cs.
Proof.
  intros (_ & _ & _ & Hn & Hl) Hdll Hne.
  destruct Hdll as (L & HL & ? & ? & ? & ? & ? & Hseg).
  exists L. split_and!; try done.
  - by rewrite Hl.
  - eapply dseg_frame; [|done]. intros a Ha. apply Hn. by eapply dseg_dom.
Qed.

(** X11.  The copy constructor makes a deep copy: a new well-formed list with
    the same elements in the same order, on nodes of its own; the source
    and everything else that existed are unchanged, and the copy compares
    equal to the source. *)
Theorem copy_constructor_copies_deeply (T_ne : T → T → bool) fuel m this other cs :
  dll m other cs → this ≠ other → (length cs < fuel)%nat →
  ∃ m' cs', DLList_copy fuel this other m = Ok tt m' ∧
            constructed this cs' m m' ∧
            cs'.*2 = cs.*2 ∧
            dll m' other cs ∧
            ((∀ x y, T_ne x y = false ↔ x = y) →
             eq_op T_ne fuel this other m' = Ok true m').
Proof.
  intros Hdll Hne Hf. unfold DLList_copy.
  rewrite (bind_Ok _ _ _ _ _ (storage_run m this)).
  destruct (copy_from_run fuel (Mem (nodes m) (<[this := List None None 0]> (lists m)))
              this other (List None None 0) cs)
    as (m' & cs' & Hrun & (Hdll' & Hnew & Hdom & Hn & Hl) & Hvals); cbn [lists nodes]; try done.
  { by rewrite lookup_insert_eq. }
  { destruct Hdll as (L & HL & ? & ? & ? & ? & ? & Hseg). exists L.
    split_and!; try done. cbn [lists]. by rewrite lookup_insert_ne. }
  { lia. }
  assert (constructed this cs' m m') as Hc.
  { split_and!; try done. intros r Hr. rewrite Hl by done. cbn [lists].
    by rewrite lookup_insert_ne. }
  pose proof (constructed_source _ _ _ _ _ _ Hc Hdll Hne) as Hother.
  exists m', cs'. split_and!; try done.
  intros Hrefl.
  assert (length cs' = length cs) as Hlen.
  { by rewrite <-(length_fmap snd cs'), Hvals, length_fmap. }
  destruct (eq_op_run T_ne fuel m' this other cs' cs Hdll' Hother)
    as (b & Hrun' & Hb); [lia|].
  rewrite Hrun'. do 2 f_equal. apply Hb.
  rewrite Hvals. apply Forall_Forall2_diag, Forall_forall. intros v _. by apply Hrefl.
Qed.

(** X12.  Copy assignment between two different lists frees the nodes of the
    target and gives it a deep copy of the source: the same elements in the
    same order, on nodes of its own.  The source, every other list object
    and every node outside the old target are unchanged, and the nodes in
    use afterwards are the old ones minus the old target plus the copy. *)
Theorem copy_assignment_replaces_the_target fuel m this other cs0 cs :
  dll m this cs0 → dll m other cs → this ≠ other →
  (∀ a, a ∈ cs0.*1 → a ∉ cs.*1) →
  (length cs0 < fuel)%nat → (length cs < fuel)%nat →
  ∃ m' cs', assign_copy fuel this other m = Ok tt m' ∧
            dll m' this cs' ∧
            cs'.*2 = cs.*2 ∧
            dll m' other cs ∧
            (∀ a, a ∈ cs'.*1 → a ∉ cs.*1) ∧
            dom (nodes m') = (dom (nodes m) ∖ list_to_set cs0.*1) ∪ list_to_set cs'.*1 ∧
            (∀ a, a ∈ dom (nodes m) → a ∉ cs0.*1 → nodes m' !! a = nodes m !! a) ∧
            (∀ r, r ≠ this → lists m' !! r = lists m !! r).
Proof.
  intros Hthis Hother Hne Hdisj Hf0 Hf. unfold assign_copy.
  destruct (_clear_run fuel m this cs0 Hthis Hf0) as (h' & Hrun & Hh').
  rewrite (bind_Ok _ _ _ _ _ Hrun). clear Hrun.
  set (mc := Mem h' (<[this := List None None (Z.of_nat (length cs0))]> (lists m))).
  assert (dll mc other cs) as Hother'.
  { destruct Hother as (L & HL & ? & ? & ? & ? & ? & Hseg). exists L.
    split_and!; try done.
    - unfold mc. cbn [lists]. by rewrite lookup_insert_ne.
    - eapply dseg_frame; [|done]. intros a Ha. unfold mc. cbn [nodes]. rewrite Hh'.
      rewrite decide_False; [done|]. intros Ha'. by apply (Hdisj _ Ha'). }
  assert (dom h' = dom (nodes m) ∖ list_to_set cs0.*1) as Hdomc.
  { apply set_eq. intros a. rewrite elem_of_difference, !elem_of_dom, Hh'.
    rewrite elem_of_list_to_set. case_decide; [|tauto].
    split; [by intros [? ?]|tauto]. }
  destruct (copy_from_run fuel mc this other
              (List None None (Z.of_nat (length cs0))) cs)
    as (m' & cs' & Hrun & Hc & Hvals); try done.
  { unfold mc. cbn [lists]. by rewrite lookup_insert_eq. }
  { lia. }
  rewrite Hrun.
  pose proof (constructed_source _ _ _ _ _ _ Hc Hother' Hne) as Hother''.
  destruct Hc as (Hdll' & Hnew & Hdom & Hn & Hl). unfold mc in *. cbn [nodes lists] in *.
  exists m', cs'. split_and!; try done.
  - intros a Ha Ha'. apply (Hnew _ Ha).
    destruct Hother' as (? & _ & _ & _ & _ & _ & _ & Hseg). by eapply dseg_dom.
  - by rewrite Hdom, Hdomc.
  - intros a Ha Ha0. rewrite Hn.
    + rewrite Hh'. by rewrite decide_False.
    + rewrite Hdomc. apply elem_of_difference. split; [done|].
      by rewrite elem_of_list_to_set.
  - intros r Hr. rewrite Hl by done. by rewrite lookup_insert_ne.
Qed.

End ExtraCopy.

(** ** Appending the elements of a list *)

Section AppendCopy.
Context {T : Type}.
Implicit Types (h : gmap loc (_node T)) (m : mem T) (p n : ptr)
  (c : loc * T) (cs new src : list (loc * T)) (this other : ref).

Lemma append_copy_loop_shape fuel m this other cs sz src ps :
  shape m this cs sz → dseg (nodes m) ps src None →
  (∀ a, a ∈ src.*1 → a ∉ cs.*1) → (length src < fuel)%nat →
  ∃ m' new,
    append_copy_loop fuel this (Iter (first_ptr src None) other) (Iter None other) m
    = Ok tt m' ∧
    grown this cs new (Nat.iter (length src) (λ z, wrap64 (z + 1)) sz) m m' ∧
    new.*2 = src.*2.
Proof.
  revert fuel m cs sz ps.
  induction src as [|r src IH]; intros fuel m cs sz ps Hs Hseg Hdisj Hf;
    (destruct fuel as [|fuel]; [simpl in Hf; lia|]); cbn [append_copy_loop first_ptr].
  { exists m, []. split_and!; [done|by apply grown_refl|done]. }
  unfold iter_ne. cbn [_ptr]. rewrite bool_decide_true by done.
  pose proof Hseg as [Hr Hseg']. unfold iter_deref, append_val. run_simpl. run.
  destruct (push_back_shape m this cs sz r.2 Hs) as (m1 & Hrun1 & Hg1).
  rewrite (bind_Ok _ _ _ _ _ Hrun1).
  destruct (grown_source _ _ _ _ _ _ _ _ Hg1 Hseg Hdisj) as [[Hr1 Hseg1] Hdisj1].
  unfold iter_incr. run_simpl. run.
  destruct (IH fuel m1 _ (wrap64 (sz + 1)) (Some r.1) (proj1 Hg1) Hseg1)
    as (m2 & new & Hrun2 & Hg2 & Hvals).
  { intros a Ha. apply Hdisj1. rewrite fmap_cons. by right. }
  { simpl in Hf. lia. }
  exists m2, ((fresh (dom (nodes m)), r.2) :: new).
  split_and!; [done| |by rewrite !fmap_cons, Hvals].
  cbn [length]. rewrite Nat.iter_succ_r.
  by apply (grown_trans _ _ [_] _ _ _ _ _ _ Hg1).
Qed.

Lemma append_copy_loop_self fuel m this cs sz (k : nat) :
  shape m this cs sz → (k < length cs)%nat →
  append_copy_loop fuel this (Iter (pos_at cs k) this) (Iter None this) m = Timeout.
Proof.
  revert m cs sz k. induction fuel as [|fuel IH]; intros m cs sz k Hs Hk; [done|].
  destruct (lookup_lt_is_Some_2 cs k Hk) as [c Hc].
  pose proof Hs as (_ & _ & Hseg).
  pose proof (node_at _ _ _ _ Hseg Hc) as Hnode.
  cbn [append_copy_loop]. rewrite (pos_at_Some _ _ _ Hc).
  unfold iter_ne. cbn [_ptr]. rewrite bool_decide_true by done.
  unfold iter_deref, append_val. run_simpl. run.
  destruct (push_back_shape m this cs sz c.2 Hs) as (m1 & Hrun1 & Hg1).
  rewrite (bind_Ok _ _ _ _ _ Hrun1).
  pose proof Hg1 as (Hs1 & _). pose proof Hs1 as (_ & _ & Hseg1).
  assert ((cs ++ [(fresh (dom (nodes m)), c.2)]) !! k = Some c) as Hc1.
  { by rewrite lookup_app_l. }
  pose proof (node_at _ _ _ _ Hseg1 Hc1) as Hnode1.
  unfold iter_incr. run_simpl. run.
  apply (IH m1 _ _ (S k) Hs1). rewrite length_app. simpl. lia.
Qed.

End AppendCopy.

Section ExtraAppend.
Context {T : Type}.
Implicit Types (h : gmap loc (_node T)) (m : mem T) (p n : ptr)
  (c : loc * T) (cs new src : list (loc * T)) (this other : ref).

(** X13.  [a += b] for two different lists appends copies of the elements of
    [b], in order, on new nodes behind the last node of [a]; the nodes of
    [a] keep their places, and [b] and every other object are unchanged. *)
Theorem append_copies_the_elements fuel m this other cs0 cs :
  dll m this cs0 → dll m other cs → this ≠ other →
  (∀ a, a ∈ cs.*1 → a ∉ cs0.*1) →
  Z.of_nat (length cs0 + length cs) < 2 ^ 63 → (length cs < fuel)%nat →
  ∃ m' new, append_copy fuel this other m = Ok tt m' ∧
            dll m' this (cs0 ++ new) ∧
            new.*2 = cs.*2 ∧
            dll m' other cs ∧
            (∀ a, a ∈ new.*1 → a ∉ dom (nodes m)) ∧
            dom (nodes m') = dom (nodes m) ∪ list_to_set new.*1 ∧
            (∀ r, r ≠ this → lists m' !! r = lists m !! r).
Proof.
  intros Hthis Hother Hne Hdisj Hb Hf.
  pose proof (dll_lists _ _ _ Hother) as HLo.
  apply dll_shape in Hthis as [Hs _].
  pose proof Hother as (? & _ & _ & _ & _ & _ & _ & Hseg).
  unfold append_copy, begin, end_. run.
  destruct (append_copy_loop_shape fuel m this other cs0 _ cs None Hs Hseg Hdisj Hf)
    as (m' & new & Hrun & Hg & Hvals).
  rewrite iter_wrap_succ in Hg by lia.
  assert (length new = length cs) as Hlen.
  { by rewrite <-(length_fmap snd new), Hvals, length_fmap. }
  pose proof Hg as (Hs' & Hmod & Hnew & Hdom).
  exists m', new. split_and!; try done.
  - apply dll_shape. rewrite length_app, Hlen. split; [|lia].
    by rewrite Nat2Z.inj_add.
  - by eapply modifies_only_dll.
  - by destruct Hmod.
Qed.

(** X14.  [a += a] on a list that is not empty never returns: every round of
    the loop appends one copy behind the tail and advances the iterator by
    one node, so the iterator never reaches [end()].  In the model, where
    a [new] never fails, the loop outlasts every fuel; on the empty list
    the call returns at once and changes nothing. *)
Theorem self_append_never_returns fuel m this cs :
  dll m this cs →
  (cs ≠ [] → append_copy fuel this this m = Timeout) ∧
  (cs = [] → append_copy (S fuel) this this m = Ok tt m).
Proof.
  intros Hdll. pose proof (dll_lists _ _ _ Hdll) as HL.
  apply dll_shape in Hdll as [Hs _]. unfold append_copy, begin, end_. split.
  - intros Hne. run. rewrite <-pos_at_0.
    eapply append_copy_loop_self; [done|]. destruct cs; [done|simpl; lia].
  - intros ->. by run.
Qed.

End ExtraAppend.

Lemma two_dll_1 : dll two_mem 1%positive demo_cells.
Proof. apply dll_check_sound. vm_compute. reflexivity. Qed.

Lemma two_dll_2 : dll two_mem 2%positive other_cells.
Proof. apply dll_check_sound. vm_compute. reflexivity. Qed.

Lemma two_disjoint a : a ∈ demo_cells.*1 → a ∉ other_cells.*1.
Proof. vm_compute. set_solver. Qed.

Lemma copy_constructor_copies_deeply_witness :
  let m := demo_mem in
  let this := 2%positive in
  let other := 1%positive in
  ∃ m' cs', DLList_copy 5 this other m = Ok tt m' ∧
            constructed this cs' m m' ∧
            cs'.*2 = demo_cells.*2 ∧
            dll m' other demo_cells ∧
            ((∀ x y, Z_ne x y = false ↔ x = y) →
             eq_op Z_ne 5 this other m' = Ok true m').
Proof.
  apply (copy_constructor_copies_deeply Z_ne 5 demo_mem 2%positive 1%positive demo_cells).
  - exact demo_dll.
  - done.
  - simpl. lia.
Defined.

Lemma copy_assignment_replaces_the_target_witness :
  let m := two_mem in
  let this := 1%positive in
  let other := 2%positive in
  let cs0 := demo_cells in
  let cs := other_cells in
  ∃ m' cs', assign_copy 5 this other m = Ok tt m' ∧
            dll m' this cs' ∧
            cs'.*2 = cs.*2 ∧
            dll m' other cs ∧
            (∀ a, a ∈ cs'.*1 → a ∉ cs.*1) ∧
            dom (nodes m') = (dom (nodes m) ∖ list_to_set cs0.*1) ∪ list_to_set cs'.*1 ∧
            (∀ a, a ∈ dom (nodes m) → a ∉ cs0.*1 → nodes m' !! a = nodes m !! a) ∧
            (∀ r, r ≠ this → lists m' !! r = lists m !! r).
Proof.
  apply (copy_assignment_replaces_the_target 5 two_mem 1%positive 2%positive
           demo_cells other_cells).
  - exact two_dll_1.
  - exact two_dll_2.
  - done.
  - exact two_disjoint.
  - simpl. lia.
  - simpl. lia.
Defined.

Lemma append_copies_the_elements_witness :
  let m := two_mem in
  let this := 2%positive in
  let other := 1%positive in
  ∃ m' new, append_copy 5 this other m = Ok tt m' ∧
            dll m' this (other_cells ++ new) ∧
            new.*2 = demo_cells.*2 ∧
            dll m' other demo_cells ∧
            (∀ a, a ∈ new.*1 → a ∉ dom (nodes m)) ∧
            dom (nodes m') = dom (nodes m) ∪ list_to_set new.*1 ∧
            (∀ r, r ≠ this → lists m' !! r = lists m !! r).
Proof.
  apply (append_copies_the_elements 5 two_mem 2%positive 1%positive
           other_cells demo_cells).
  - exact two_dll_2.
  - exact two_dll_1.
  - done.
  - exact two_disjoint.
  - vm_compute. reflexivity.
  - simpl. lia.
Defined.

Lemma self_append_never_returns_witness :
  (demo_cells ≠ [] → append_copy 1000 1%positive 1%positive demo_mem = Timeout) ∧
  (demo_cells = [] → append_copy 1001 1%positive 1%positive demo_mem = Ok tt demo_mem).
Proof.
  apply (self_append_never_returns 1000 demo_mem 1%positive demo_cells).
  exact demo_dll.
Defined.

(** ** Printing *)

Section ExtraPrint.
Context {T : Type}.
Variable show : T → string.
Implicit Types (h : gmap loc (_node T)) (m : mem T) (p n : ptr)
  (c : loc * T) (cs src : list (loc * T)) (this list : ref) (os : string).

Lemma string_app_assoc (s1 s2 s3 : string) :
  (s1 +:+ s2) +:+ s3 = s1 +:+ (s2 +:+ s3).
Proof.
  induction s1 as [|a s1 IH]; [done|].
  change (String a ((s1 +:+ s2) +:+ s3) = String a (s1 +:+ (s2 +:+ s3))).
  by rewrite IH.
Qed.

Lemma concat_join (sep x y : string) (rest : list string) :
  String.concat sep ((x +:+ sep +:+ y) :: rest)
  = x +:+ sep +:+ String.concat sep (y :: rest).
Proof.
  destruct rest as [|z rest]; [done|].
  cbn [String.concat]. by rewrite !string_app_assoc.
Qed.

Lemma print_loop_run fuel os x m list src ps :
  dseg (nodes m) ps src None → (length src < fuel)%nat →
  print_loop show fuel (os +:+ x) list (Iter (first_ptr src None) list) m
  = Ok (os +:+ String.concat "," (x :: (show <$> src.*2))) m.
Proof.
  revert fuel x ps. induction src as [|c src IH]; intros fuel x ps Hseg Hf;
    (destruct fuel as [|fuel]; [simpl in Hf; lia|]);
    cbn [print_loop first_ptr]; unfold end_, iter_ne; run; cbn [_ptr].
  { by rewrite bool_decide_false by (by intros ?). }
  rewrite bool_decide_true by done.
  destruct Hseg as [Hc Hseg]. unfold iter_deref, iter_incr. run_simpl. run.
  rewrite string_app_assoc.
  rewrite (IH fuel _ (Some c.1) Hseg) by (simpl in Hf; lia).
  rewrite !fmap_cons. by rewrite concat_join.
Qed.

(** X15.  [os << list] appends to the stream the text [DLList\[], the elements
    as [os << element] writes them, separated by commas and in order, and
    [\]]; an empty list prints as [DLList\[\]].  The memory is not
    changed. *)
Theorem print_writes_the_elements fuel os m list cs :
  dll m list cs → (length cs < fuel)%nat →
  print show fuel os list m
  = Ok (os +:+ "DLList[" +:+ String.concat "," (show <$> cs.*2) +:+ "]") m.
Proof.
  intros Hdll Hf. pose proof (dll_lists _ _ _ Hdll) as HL.
  destruct Hdll as (? & _ & _ & _ & _ & Hb & _ & Hseg).
  unfold print, size, begin. run.
  destruct cs as [|c cs]; cbn [length first_ptr] in *.
  { run. by rewrite !string_app_assoc. }
  destruct (Z.ltb_spec 0 (Z.of_nat (S (length cs)))); [|lia].
  destruct Hseg as [Hc Hseg]. unfold iter_deref, iter_incr.
  cbn [first_ptr]. run_simpl. run.
  assert (length cs < fuel)%nat as Hf' by (simpl in Hf; lia).
  rewrite (bind_Ok _ _ _ _ _ (print_loop_run fuel _ _ m list cs (Some c.1) Hseg Hf')).
  run. by rewrite !fmap_cons, !string_app_assoc.
Qed.

End ExtraPrint.

Lemma print_writes_the_elements_witness :
  print pretty 5 "" 1%positive demo_mem
  = Ok ("" +:+ "DLList[" +:+ String.concat "," (pretty <$> demo_cells.*2) +:+ "]")
       demo_mem.
Proof.
  apply (print_writes_the_elements pretty 5 "" demo_mem 1%positive demo_cells).
  - exact demo_dll.
  - simpl. lia.
Defined.

Example print_demo :
  result_of (print pretty 5 "" 1%positive demo_mem) = Some "DLList[30,10,20]".
Proof. vm_compute. reflexivity. Qed.

(** ** Inserting and erasing again *)

Ltac lookup_cases :=
  repeat match goal with
  | |- context [<[?i := _]> _ !! ?j] =>
      destruct (decide (i = j));
      [ subst; rewrite lookup_insert_eq | rewrite lookup_insert_ne by done ]
  | |- context [delete ?i _ !! ?j] =>
      destruct (decide (i = j));
      [ subst; rewrite lookup_delete_eq | rewrite lookup_delete_ne by done ]
  end.

Section InsertEraseRoundTrip.
Context {T : Type}.
Implicit Types (h : gmap loc (_node T)) (m : mem T) (p n : ptr)
  (c : loc * T) (cs : list (loc * T)) (this : ref).

Lemma insert_erase_front m this cs (v : T) :
  dll m this cs →
  (it ← insert this (Iter (first_ptr cs None) this) v; erase this it) m
  = Ok (Iter (first_ptr cs None) this) m.
Proof.
  intros Hdll. open_dll Hdll.
  pose proof (fresh_not_in_segment _ _ _ _ Hseg) as Hfresh.
  pose proof (is_fresh (dom (nodes m))) as Hfr. apply not_elem_of_dom in Hfr.
  unfold insert, erase, begin, end_, iter_eq, push_front, pop_front. run.
  rewrite bool_decide_true by done.
  destruct cs as [|c0 cs]; list_simpl; run_simpl.
  - run. rewrite bool_decide_true by done. run.
    f_equal. destruct m as [h l]; cbn [nodes lists] in *. f_equal.
    + by apply delete_insert_id.
    + rewrite !insert_insert_eq, wrap64_succ_pred by lia. by apply insert_id.
  - destruct Hseg as [Hc0 Hseg].
    assert (fresh (dom (nodes m)) ≠ c0.1) as Hne by set_solver.
    run. rewrite bool_decide_true by done. run.
    f_equal. destruct m as [h l]; cbn [nodes lists] in *. f_equal.
    + apply map_eq. intros b. lookup_cases; congruence.
    + rewrite !insert_insert_eq, wrap64_succ_pred by lia. by apply insert_id.
Qed.

Lemma insert_erase_back m this cs t (v : T) :
  dll m this (cs ++ [t]) →
  (it ← insert this (Iter None this) v; erase this it) m = Ok (Iter None this) m.
Proof.
  intros Hdll. open_dll Hdll.
  pose proof (fresh_not_in_segment _ _ _ _ Hseg) as Hfresh.
  pose proof (is_fresh (dom (nodes m))) as Hfr. apply not_elem_of_dom in Hfr.
  assert (fresh (dom (nodes m)) ≠ t.1) as Hne.
  { intros Heq. apply Hfresh. rewrite fmap_app, Heq. set_solver. }
  assert (first_ptr (cs ++ [t]) None ≠ Some (fresh (dom (nodes m)))) as Hhd.
  { intros Heq. apply first_ptr_in in Heq. done. }
  assert (first_ptr (cs ++ [t]) None ≠ None) as Hhd'.
  { by destruct cs. }
  clear Hnd. list_simpl. apply dseg_snoc in Hseg as [Hseg Ht].
  unfold insert, erase, begin, end_, iter_eq, push_back. run.
  rewrite bool_decide_false by done. run.
  rewrite bool_decide_true by done. run.
  rewrite first_ptr_snoc_nonnull. run.
  rewrite bool_decide_false by done. run.
  rewrite bool_decide_true by done. run.
  f_equal. destruct m as [h l]; cbn [nodes lists] in *. f_equal.
  - apply map_eq. intros b. lookup_cases; congruence.
  - rewrite !insert_insert_eq, wrap64_succ_pred by lia. by apply insert_id.
Qed.

Lemma insert_erase_middle m this pre c0 c suf (v : T) :
  dll m this (pre ++ c0 :: c :: suf) →
  (it ← insert this (Iter (Some c.1) this) v; erase this it) m
  = Ok (Iter (Some c.1) this) m.
Proof.
  intros Hdll. open_dll Hdll.
  pose proof (fresh_not_in_segment _ _ _ _ Hseg) as Hfresh.
  pose proof (is_fresh (dom (nodes m))) as Hfr. apply not_elem_of_dom in Hfr.
  set (a := fresh (dom (nodes m))) in *.
  assert (Some a ≠ first_ptr (pre ++ c0 :: c :: suf) None) as Hhd.
  { intros Heq. symmetry in Heq. by apply first_ptr_in in Heq. }
  assert (Some a ≠ last_ptr None (pre ++ c0 :: c :: suf)) as Htl.
  { intros Heq. symmetry in Heq. by apply last_ptr_in in Heq. }
  assert (c.1 ∉ (pre ++ [c0]).*1) as Hc'.
  { rewrite (cons_middle c0), app_assoc in Hnd.
    by apply NoDup_fst_mid in Hnd as (? & _). }
  assert (Some c.1 ≠ first_ptr (pre ++ c0 :: c :: suf) None) as Hhd'.
  { intros Heq. symmetry in Heq. apply Hc'.
    rewrite (cons_middle c0), app_assoc, first_ptr_app in Heq.
    destruct (pre ++ [c0]) as [|c1 l] eqn:E; [by destruct pre|].
    cbn [first_ptr] in Heq. injection Heq as Heq. rewrite fmap_cons, Heq. left. }
  assert (a ≠ c0.1 ∧ a ≠ c.1 ∧ c0.1 ≠ c.1) as (Ha0 & Ha & H0).
  { split_and!.
    - intros Heq. apply Hfresh. rewrite fmap_app, !fmap_cons, Heq. set_solver.
    - intros Heq. apply Hfresh. rewrite fmap_app, !fmap_cons, Heq. set_solver.
    - intros Heq. apply Hc'. rewrite fmap_app, fmap_cons, Heq. set_solver. }
  clear Hnd Hfresh Hc'.
  apply dseg_app in Hseg as [Hpre (Hc0 & Hc & Hsuf)]. cbn [first_ptr] in *.
  unfold insert, erase, begin, end_, iter_eq. run.
  rewrite bool_decide_false by done. run.
  rewrite bool_decide_false by done. run.
  rewrite bool_decide_false by done. run.
  rewrite bool_decide_false by done. run.
  f_equal. fold a. destruct m as [h l]; cbn [nodes lists] in *. f_equal.
  - apply map_eq. intros b. lookup_cases; congruence.
  - rewrite !insert_insert_eq, wrap64_succ_pred by lia. by apply insert_id.
Qed.

End InsertEraseRoundTrip.

Section ExtraInsertErase.
Context {T : Type}.
Implicit Types (h : gmap loc (_node T)) (m : mem T) (p n : ptr)
  (c : loc * T) (cs : list (loc * T)) (this : ref).

(** X16.  Erasing what was just inserted is a round trip: at every position of
    the list (a node or the sentinel), [insert] followed by [erase] of the
    iterator it returned gives back the position and leaves the memory
    exactly as it was. *)
Theorem insert_then_erase_restores m this cs (k : nat) (v : T) :
  dll m this cs → (k ≤ length cs)%nat →
  (it ← insert this (Iter (pos_at cs k) this) v; erase this it) m
  = Ok (Iter (pos_at cs k) this) m.
Proof.
  intros Hdll Hk.
  destruct k as [|k].
  { rewrite pos_at_0. by apply insert_erase_front. }
  destruct (decide (S k = length cs)) as [Heq|Hne].
  { rewrite Heq, pos_at_length.
    destruct cs as [|t cs _] using rev_ind; [done|]. by eapply insert_erase_back. }
  destruct (lookup_lt_is_Some_2 cs k) as [c0 Hc0]; [lia|].
  destruct (lookup_lt_is_Some_2 cs (S k)) as [c Hc]; [lia|].
  rewrite (pos_at_Some _ _ _ Hc).
  pose proof (take_drop_middle cs k c0 Hc0) as Hcs.
  rewrite (drop_S cs c (S k) Hc) in Hcs. rewrite <-Hcs in Hdll.
  by eapply insert_erase_middle.
Qed.

End ExtraInsertErase.

Lemma insert_then_erase_restores_witness :
  let m := demo_mem in
  let this := 1%positive in
  (it ← insert this (Iter (pos_at demo_cells 1) this) 15; erase this it) m
  = Ok (Iter (pos_at demo_cells 1) this) m.
Proof.
  apply (insert_then_erase_restores demo_mem 1%positive demo_cells 1 15).
  - exact demo_dll.
  - simpl. lia.
Defined.

(** ** The operations that have no check *)

Ltac no_throw_more :=
  repeat first
    [ progress no_throw_tac
    | match goal with
      | |- no_throw (let '(_, _) := ?x in _) => destruct x
      | |- no_throw (match ?x with (_, _) => _ end) => destruct x
      end ].

Section Unchecked.
Context {T : Type}.
Implicit Types (m : mem T) (p q : ptr) (this other : ref) (val : T).

Lemma no_throw__clear fuel this : no_throw (_clear fuel this : M T _).
Proof.
  unfold _clear. apply no_throw_bind; [|intros; no_throw_tac].
  induction fuel; cbn [_clear_loop]; no_throw_tac.
Qed.

Lemma no_throw__copy_ll_loop fuel this p :
  no_throw (_copy_ll_loop fuel this p : M T _).
Proof. revert p. induction fuel; intros q; cbn [_copy_ll_loop]; no_throw_tac. Qed.

Lemma no_throw_push_front this val : no_throw (push_front this val : M T _).
Proof. unfold push_front. no_throw_tac. Qed.

Lemma no_throw_push_back this val : no_throw (push_back this val : M T _).
Proof. unfold push_back. no_throw_tac. Qed.

Lemma no_throw_iter_incr (it : _iter) : no_throw (iter_incr it : M T _).
Proof. unfold iter_incr. no_throw_tac. Qed.

Lemma no_throw_iter_decr (it : _iter) : no_throw (iter_decr it : M T _).
Proof. unfold iter_decr. no_throw_tac. Qed.

Lemma no_throw_eq_op (T_ne : T → T → bool) fuel this other :
  no_throw (eq_op T_ne fuel this other : M T _).
Proof.
  assert (∀ p q, no_throw (eq_loop T_ne fuel p q : M T _)) as Hloop.
  { induction fuel; intros p q; cbn [eq_loop]; no_throw_tac. }
  unfold eq_op. no_throw_tac; try apply Hloop.
Qed.

Lemma no_throw_DLList_init this (vals : list T) :
  no_throw (DLList_init this vals : M T _).
Proof.
  assert (no_throw (DLList_init_loop this vals : M T _)) as Hloop.
  { induction vals; cbn [DLList_init_loop]; [no_throw_tac|].
    unfold DLList_init_step. no_throw_tac. }
  unfold DLList_init. no_throw_tac.
Qed.

Lemma no_throw_reverse fuel this : no_throw (reverse fuel this : M T _).
Proof.
  assert (∀ p, no_throw (reverse_loop fuel p : M T _)) as Hloop.
  { induction fuel; intros p; cbn [reverse_loop]; no_throw_tac. }
  unfold reverse. no_throw_tac; try apply Hloop.
Qed.

Lemma no_throw_sort (comp : T → T → bool) fuel this :
  no_throw (sort comp fuel this : M T _).
Proof.
  assert (∀ f p q, no_throw (_sort_split f p q : M T _)) as Hsplit.
  { induction f; intros p q; cbn [_sort_split]; no_throw_tac. }
  assert (∀ f p q r, no_throw (_sort_merge comp f p q r : M T _)) as Hmerge.
  { induction f; intros p q r; cbn [_sort_merge]; no_throw_tac. }
  assert (∀ f p q, no_throw (_sort comp f p q : M T _)) as Hsort.
  { induction f; intros p q; cbn [_sort]; no_throw_more;
      first [apply Hsplit|apply Hmerge|idtac]. }
  unfold sort, _sort_init. no_throw_tac; try apply Hsort.
Qed.

Lemma no_throw_fromFunc fuel this (n : Z) (func : Z → T) :
  no_throw (fromFunc fuel this n func : M T _).
Proof.
  assert (∀ i, no_throw (fromFunc_loop fuel this i n func : M T _)) as Hloop.
  { induction fuel; intros i; cbn [fromFunc_loop]; no_throw_tac;
      try apply no_throw_push_back; no_throw_tac. }
  unfold fromFunc, DLList_default. no_throw_tac; try apply Hloop.
Qed.

(** The dereference in the range-for is guarded by [__begin != __end]. *)
Lemma no_throw_append_copy fuel this other :
  no_throw (append_copy fuel this other : M T _).
Proof.
  assert (∀ it, no_throw (append_copy_loop fuel this it (Iter None other) : M T _))
    as Hloop.
  { induction fuel as [|fuel IH]; intros [[a|] l]; cbn [append_copy_loop];
      try apply no_throw_timeout; unfold iter_ne; cbn [_ptr].
    - rewrite bool_decide_true by done.
      no_throw_tac; first [apply no_throw_push_back|apply no_throw_iter_incr].
    - rewrite bool_decide_false by (by intros ?). apply no_throw_ret. }
  unfold append_copy. apply no_throw_bind; [unfold begin; no_throw_tac|].
  intros b m e m'. apply (Hloop b m e m').
Qed.

Lemma no_throw_insert this (it : _iter) val : no_throw (insert this it val : M T _).
Proof.
  unfold insert, begin, end_. no_throw_tac;
    first [apply no_throw_push_front|apply no_throw_push_back].
Qed.

End Unchecked.

Section ExtraUnchecked.
Context {T : Type}.
Implicit Types (m : mem T) (p q : ptr) (this other : ref) (val : T).

(** X17.  The member functions without a [CHECK_THROW] never raise its
    [runtime_error], in any memory, well-formed or not: the constructors
    other than the one with a count, the destructor, the assignments, the
    observers, the comparisons, the pushes, [clear], both [+=] on lists,
    [reverse], [fromFunc], [sort], [insert] and the iterator steps.  (The
    dereference inside the range-for of [+=] is guarded by the loop
    condition.) *)
Theorem unchecked_operations_never_throw
    (T_ne comp : T → T → bool) fuel this other val (vals : list T)
    (n : Z) (func : Z → T) (it : _iter) :
  no_throw (DLList_default this : M T _) ∧
  no_throw (DLList_init this vals : M T _) ∧
  no_throw (DLList_copy fuel this other : M T _) ∧
  no_throw (DLList_move this other : M T _) ∧
  no_throw (destroy fuel this : M T _) ∧
  no_throw (assign_copy fuel this other : M T _) ∧
  no_throw (assign_move fuel this other : M T _) ∧
  no_throw (begin this : M T _) ∧
  no_throw (end_ this : M T _) ∧
  no_throw (size this : M T _) ∧
  no_throw (empty this : M T _) ∧
  no_throw (eq_op T_ne fuel this other : M T _) ∧
  no_throw (ne_op T_ne fuel this other : M T _) ∧
  no_throw (push_front this val : M T _) ∧
  no_throw (push_back this val : M T _) ∧
  no_throw (prepend_val this val : M T _) ∧
  no_throw (append_val this val : M T _) ∧
  no_throw (clear fuel this : M T _) ∧
  no_throw (append_copy fuel this other : M T _) ∧
  no_throw (append_move this other : M T _) ∧
  no_throw (reverse fuel this : M T _) ∧
  no_throw (fromFunc fuel this n func : M T _) ∧
  no_throw (sort comp fuel this : M T _) ∧
  no_throw (insert this it val : M T _) ∧
  no_throw (iter_incr it : M T _) ∧
  no_throw (iter_decr it : M T _).
Proof.
  pose proof (no_throw__clear (T:=T) fuel this) as Hclear.
  pose proof (no_throw__copy_ll_loop (T:=T) fuel this) as Hcopy.
  pose proof (no_throw_eq_op T_ne fuel this other) as Heq.
  split_and!.
  - unfold DLList_default. no_throw_tac.
  - apply no_throw_DLList_init.
  - unfold DLList_copy. no_throw_tac.
  - unfold DLList_move. no_throw_tac.
  - unfold destroy. no_throw_tac. by intros m e m'.
  - unfold assign_copy. no_throw_tac.
  - unfold assign_move. no_throw_tac.
  - unfold begin. no_throw_tac.
  - unfold end_. no_throw_tac.
  - unfold size. no_throw_tac.
  - unfold empty. no_throw_tac.
  - done.
  - unfold ne_op. no_throw_tac.
  - apply no_throw_push_front.
  - apply no_throw_push_back.
  - apply no_throw_push_front.
  - apply no_throw_push_back.
  - unfold clear. no_throw_tac.
  - apply no_throw_append_copy.
  - unfold append_move. no_throw_tac.
  - apply no_throw_reverse.
  - apply no_throw_fromFunc.
  - apply no_throw_sort.
  - apply no_throw_insert.
  - apply no_throw_iter_incr.
  - apply no_throw_iter_decr.
Qed.

End ExtraUnchecked.

(** ** Sorting with an arbitrary comparator *)

Section ExtraSortAny.
Context {T : Type}.
Implicit Types (h : gmap loc (_node T)) (m : mem T) (p n : ptr)
  (c : loc * T) (cs : list (loc * T)) (this other : ref).

(** X18.  [sort(comp)] is safe for every [comp], a strict weak ordering or not:
    it returns, the list is well formed again and its cells are a
    permutation of the cells it had (none lost, none twice), no node is
    allocated or freed, and no node outside the list and no other list
    object is changed; so every other list is still what it was. *)
Theorem sort_is_safe_for_any_comparator (comp : T → T → bool) fuel m this cs :
  dll m this cs → (length cs ≤ fuel)%nat →
  ∃ m' cs',
    sort comp fuel this m = Ok tt m' ∧
    dll m' this cs' ∧
    cs' ≡ₚ cs ∧
    dom (nodes m') = dom (nodes m) ∧
    (∀ a, a ∉ cs.*1 → nodes m' !! a = nodes m !! a) ∧
    (∀ r, r ≠ this → lists m' !! r = lists m !! r) ∧
    (∀ other cs2, dll m other cs2 → other ≠ this →
       (∀ a, a ∈ cs2.*1 → a ∉ cs.*1) → dll m' other cs2).
Proof.
  intros Hdll Hf.
  assert (∃ m' cs', sort comp fuel this m = Ok tt m' ∧ dll m' this cs' ∧ cs' ≡ₚ cs ∧
            dom (nodes m') = dom (nodes m) ∧
            (∀ a, a ∉ cs.*1 → nodes m' !! a = nodes m !! a))
    as (m' & cs' & Hrun & Hdll' & Hp & Hdom & Hfr).
  { open_dll Hdll. unfold sort, _sort_init. run.
    destruct cs as [|c cs].
    { cbn [first_ptr nonnull]. exists m, []. split_and!; try done. by dll_intro. }
    rewrite first_ptr_nonnull by done. run.
    destruct (_sort_run_perm comp fuel m (c :: cs)) as (h' & cs' & Hrun & Hseg' & Hp & Hfr & Hdom);
      [done..|].
    rewrite (bind_Ok _ _ _ _ _ Hrun). clear Hrun. run.
    eexists _, cs'. split; [done|]. split_and!; try done.
    dll_intro. rewrite (Permutation_length Hp). split_and!; try done.
    by rewrite Hp. }
  assert (∀ r, r ≠ this → lists m' !! r = lists m !! r) as Hl.
  { intros r Hr. by eapply (keeps_sort comp this fuel). }
  exists m', cs'. split_and!; try done.
  intros other cs2 (L & HL & ? & ? & ? & ? & ? & Hseg) Hne Hdisj.
  exists L. split_and!; try done.
  - by rewrite Hl.
  - eapply dseg_frame; [|done]. intros a Ha. apply Hfr. intros Ha'. by apply (Hdisj a).
Qed.

(** X19.  [reverse()] is exactly the swap of the two links of every node of the
    list: each of its nodes keeps its value and has [_prev] and [_next]
    exchanged, head and tail are exchanged, and nothing else in the memory
    changes (no other node, no other list object, not the count). *)
Theorem reverse_swaps_the_links fuel m this cs :
  dll m this cs → (length cs < fuel)%nat →
  ∃ m', reverse fuel this m = Ok tt m' ∧
        (∀ a, nodes m' !! a
              = if decide (a ∈ cs.*1)
                then (λ nd, Node (_val nd) (_next nd) (_prev nd)) <$> nodes m !! a
                else nodes m !! a) ∧
        lists m' = <[this := List (last_ptr None cs) (first_ptr cs None)
                                  (Z.of_nat (length cs))]> (lists m) ∧
        dll m' this (rev cs).
Proof.
  intros Hdll Hf.
  destruct (reverse_run m this cs fuel Hdll Hf) as (h' & Hrun & Hsw & Hdll').
  eexists. split; [exact Hrun|]. by split_and!.
Qed.

End ExtraSortAny.

Lemma sort_is_safe_for_any_comparator_witness :
  let comp := λ _ _ : Z, true in
  let m := two_mem in
  let this := 1%positive in
  let cs := demo_cells in
  ∃ m' cs',
    sort comp 3 this m = Ok tt m' ∧
    dll m' this cs' ∧
    cs' ≡ₚ cs ∧
    dom (nodes m') = dom (nodes m) ∧
    (∀ a, a ∉ cs.*1 → nodes m' !! a = nodes m !! a) ∧
    (∀ r, r ≠ this → lists m' !! r = lists m !! r) ∧
    (∀ other cs2, dll m other cs2 → other ≠ this →
       (∀ a, a ∈ cs2.*1 → a ∉ cs.*1) → dll m' other cs2).
Proof.
  apply (sort_is_safe_for_any_comparator (λ _ _ : Z, true) 3 two_mem 1%positive demo_cells).
  - exact two_dll_1.
  - simpl. lia.
Defined.

Lemma reverse_swaps_the_links_witness :
  let m := demo_mem in
  let this := 1%positive in
  let cs := demo_cells in
  ∃ m', reverse 5 this m = Ok tt m' ∧
        (∀ a, nodes m' !! a
              = if decide (a ∈ cs.*1)
                then (λ nd, Node (_val nd) (_next nd) (_prev nd)) <$> nodes m !! a
                else nodes m !! a) ∧
        lists m' = <[this := List (last_ptr None cs) (first_ptr cs None)
                                  (Z.of_nat (length cs))]> (lists m) ∧
        dll m' this (rev cs).
Proof.
  apply (reverse_swaps_the_links 5 demo_mem 1%positive demo_cells).
  - exact demo_dll.
  - simpl. lia.
Defined.

(** ** Computations that neither allocate nor free *)

Section NodesInUse.
Context {T : Type}.
Implicit Types (m : mem T) (p q : ptr) (this : ref).

Lemma in_use_ret {A} (x : A) : keeps_nodes_in_use (mret x : M T A).
Proof. intros m a m' H. by injection H as <- <-. Qed.

Lemma in_use_bind {A B} (c : M T A) (k : A → M T B) :
  keeps_nodes_in_use c → (∀ x, keeps_nodes_in_use (k x)) →
  keeps_nodes_in_use (c ≫= k).
Proof.
  intros Hc Hk m b m' H. unfold mbind, M_bind, bind in H.
  destruct (c m) as [x m1|e1 m1| |] eqn:E; try done.
  rewrite (Hk _ _ _ _ H). by eapply Hc.
Qed.

Lemma in_use_if {A} (b : bool) (c1 c2 : M T A) :
  keeps_nodes_in_use c1 → keeps_nodes_in_use c2 →
  keeps_nodes_in_use (if b then c1 else c2).
Proof. by destruct b. Qed.

Lemma in_use_load p : keeps_nodes_in_use (load p : M T _).
Proof.
  intros m a m' H. unfold load in H. repeat case_match; try done.
  by injection H as <- <-.
Qed.

Lemma in_use_store p nd : keeps_nodes_in_use (store p nd : M T _).
Proof.
  intros m a m' H. unfold store in H. destruct p as [b|]; [|done].
  destruct (nodes m !! b) eqn:E; [|done].
  injection H as <- <-. cbn [nodes]. rewrite dom_insert_L.
  assert (b ∈ dom (nodes m)) by (apply elem_of_dom; eauto). set_solver.
Qed.

Lemma in_use_obj this : keeps_nodes_in_use (obj this : M T _).
Proof.
  intros m a m' H. unfold obj in H. repeat case_match; try done.
  by injection H as <- <-.
Qed.

Lemma in_use_set_obj this L : keeps_nodes_in_use (set_obj this L : M T _).
Proof. intros m a m' H. by injection H as <- <-. Qed.

Lemma in_use_append_move this other :
  keeps_nodes_in_use (append_move this other : M T _).
Proof.
  unfold append_move, get_head, get_tail, get_size, set_head, set_tail, set_size,
    set_next, set_prev.
  repeat first
    [ apply in_use_ret | apply in_use_load | apply in_use_store | apply in_use_obj
    | apply in_use_set_obj | apply in_use_bind; [|intros ?] | apply in_use_if ].
Qed.

End NodesInUse.

(** ** Moving a list *)

Section ExtraMove.
Context {T : Type}.
Implicit Types (h : gmap loc (_node T)) (m : mem T) (p n : ptr)
  (c : loc * T) (cs : list (loc * T)) (this other : ref).

Lemma assign_move_frees_the_target fuel m this other cs0 cs :
  dll m this cs0 → dll m other cs → this ≠ other →
  (length cs0 < fuel)%nat → (∀ a, a ∈ cs0.*1 → a ∉ cs.*1) →
  ∃ m', assign_move fuel this other m = Ok tt m' ∧
        dll m' this cs ∧
        (∀ a, nodes m' !! a = if decide (a ∈ cs0.*1) then None else nodes m !! a) ∧
        lists m' !! other = Some (List None None (Z.of_nat (length cs))).
Proof.
  intros Hthis Hother Hne Hf Hdisj. unfold assign_move.
  destruct (_clear_run fuel m this cs0 Hthis Hf) as (h' & Hrun & Hh').
  rewrite (bind_Ok _ _ _ _ _ Hrun). clear Hrun Hthis. open_dll Hother. run.
  eexists. split; [done|]. cbn [nodes lists]. split_and!; [|done|lookup_tac].
  dll_intro. split_and!; try done.
  eapply dseg_frame; [|done]. intros a Ha. rewrite Hh'.
  rewrite decide_False; [done|]. intros Ha'. by eapply Hdisj.
Qed.

(** X20.  A move transfers the chain of nodes as it is: after the move
    constructor, the move assignment and [+=] of an rvalue list, the target
    is a well-formed list made of the very nodes of the source (behind its
    own nodes for [+=]); nothing is allocated or copied, the move
    assignment frees the nodes the target had, and the source is left with
    null head and tail and the [_size] it had. *)
Theorem move_transfers_the_nodes fuel m this other that cs0 cs :
  dll m this cs0 → dll m other cs → this ≠ other → that ≠ other →
  (∀ a, a ∈ cs0.*1 → a ∉ cs.*1) →
  (length cs0 < fuel)%nat → Z.of_nat (length (cs0 ++ cs)) < 2 ^ 63 →
  (∃ m', DLList_move that other m = Ok tt m' ∧
         dll m' that cs ∧
         nodes m' = nodes m ∧
         lists m' !! other = Some (List None None (Z.of_nat (length cs)))) ∧
  (∃ m', assign_move fuel this other m = Ok tt m' ∧
         dll m' this cs ∧
         (∀ a, nodes m' !! a = if decide (a ∈ cs0.*1) then None else nodes m !! a) ∧
         lists m' !! other = Some (List None None (Z.of_nat (length cs)))) ∧
  (∃ m', append_move this other m = Ok tt m' ∧
         dll m' this (cs0 ++ cs) ∧
         dom (nodes m') = dom (nodes m) ∧
         lists m' !! other = Some (List None None (Z.of_nat (length cs)))).
Proof.
  intros Hthis Hother Hne Hne' Hdisj Hf Hb. split_and!.
  - destruct (DLList_move_run m that other cs Hother Hne') as (m' & ? & ? & ? & ?).
    by exists m'.
  - by apply assign_move_frees_the_target.
  - destruct (decide (cs0 = [] ∨ cs ≠ [])) as [Hcase|Hcase].
    + assert (NoDup (cs0 ++ cs).*1) as Hnd.
      { destruct Hthis as (? & _ & _ & _ & _ & _ & Hnd0 & _).
        destruct Hother as (? & _ & _ & _ & _ & _ & Hnd1 & _).
        rewrite fmap_app. apply NoDup_app. split_and!; try done. }
      assert (∃ m', append_move this other m = Ok tt m' ∧ dll m' this (cs0 ++ cs) ∧
                lists m' !! other = Some (List None None (Z.of_nat (length cs))))
        as (m' & Hrun & Hdll' & Ho) by by apply append_move_run.
      exists m'. split_and!; try done.
      by eapply in_use_append_move.
    + assert (cs0 ≠ [] ∧ cs = []) as [Hne0 ->].
      { destruct cs0, cs; naive_solver. }
      pose proof (dll_lists _ _ _ Hthis) as HL.
      pose proof (dll_lists _ _ _ Hother) as HLo.
      cbn [first_ptr last_ptr length] in HLo.
      exists m. rewrite app_nil_r. split_and!; try done.
      unfold append_move. run. rewrite first_ptr_nonnull by done. cbn [negb]. by run.
Qed.

End ExtraMove.

Lemma move_transfers_the_nodes_witness :
  let fuel := 5%nat in
  let m := two_mem in
  let this := 1%positive in
  let other := 2%positive in
  let that := 3%positive in
  let cs0 := demo_cells in
  let cs := other_cells in
  (∃ m', DLList_move that other m = Ok tt m' ∧
         dll m' that cs ∧
         nodes m' = nodes m ∧
         lists m' !! other = Some (List None None (Z.of_nat (length cs)))) ∧
  (∃ m', assign_move fuel this other m = Ok tt m' ∧
         dll m' this cs ∧
         (∀ a, nodes m' !! a = if decide (a ∈ cs0.*1) then None else nodes m !! a) ∧
         lists m' !! other = Some (List None None (Z.of_nat (length cs)))) ∧
  (∃ m', append_move this other m = Ok tt m' ∧
         dll m' this (cs0 ++ cs) ∧
         dom (nodes m') = dom (nodes m) ∧
         lists m' !! other = Some (List None None (Z.of_nat (length cs)))).
Proof.
  apply (move_transfers_the_nodes 5 two_mem 1%positive 2%positive 3%positive
           demo_cells other_cells).
  - exact two_dll_1.
  - exact two_dll_2.
  - done.
  - done.
  - exact two_disjoint.
  - simpl. lia.
  - vm_compute. reflexivity.
Defined.

(** ** Observers and the cost of indexing *)

Section ExtraObservers.
Context {T : Type}.
Implicit Types (h : gmap loc (_node T)) (m : mem T) (p n : ptr)
  (c : loc * T) (cs : list (loc * T)) (this : ref).

(** X21.  On a well-formed list the observers agree: [size()] is the number of
    nodes, [empty()] holds exactly when there is none, and that is exactly
    when [begin() == end()] and when [begin()] converts to false. *)
Theorem observers_agree m this cs :
  dll m this cs →
  size this m = Ok (Z.of_nat (length cs)) m ∧
  empty this m = Ok (bool_decide (length cs = 0%nat)) m ∧
  (b ← begin this; e ← end_ this; mret (iter_eq b e)) m
  = Ok (bool_decide (length cs = 0%nat)) m ∧
  (b ← begin this; e ← end_ this; mret (iter_ne b e)) m
  = Ok (negb (bool_decide (length cs = 0%nat))) m ∧
  (b ← begin this; mret (iter_bool b)) m
  = Ok (negb (bool_decide (length cs = 0%nat))) m.
Proof.
  intros Hdll. pose proof (dll_lists _ _ _ Hdll) as HL.
  unfold size, empty, begin, end_, iter_eq, iter_ne, iter_bool.
  split_and!; run; try done.
  - do 2 f_equal. apply bool_decide_ext. lia.
  - by destruct cs.
  - by destruct cs.
  - by destruct cs.
Qed.

(** X22.  [get] walks from the nearer end: on a list of [n] nodes it follows at
    most [n/2] links, that is, fuel [n/2 + 1] is enough for every valid
    index, positive or negative. *)
Theorem get_walks_at_most_half_the_list m this cs fuel (k : nat) c :
  dll m this cs → cs !! k = Some c →
  Z.of_nat (length cs) `div` 2 < Z.of_nat fuel →
  get fuel this (Z.of_nat k) m = Ok c m ∧
  get fuel this (Z.of_nat k - Z.of_nat (length cs)) m = Ok c m.
Proof.
  intros (L & HL & Hh & Ht & Hs & Hb & Hnd & Hseg) Hk Hf.
  pose proof (lookup_lt_Some _ _ _ Hk) as Hlt.
  pose proof (Z.div_mod (Z.of_nat (length cs)) 2 ltac:(lia)) as Hdiv.
  pose proof (Z.mod_pos_bound (Z.of_nat (length cs)) 2 ltac:(lia)) as Hmod.
  assert (∀ i, i = Z.of_nat k ∨ i = Z.of_nat k - Z.of_nat (length cs) →
            get fuel this i m = Ok c m) as Hget.
  { intros i Hi. unfold get. run. rewrite Hs.
    rewrite to_int64_small, neg64_small by lia.
    replace ((i <? Z.of_nat (length cs)) && (i >=? - Z.of_nat (length cs)))
      with true by (symmetry; apply andb_true_iff; split; [apply Z.ltb_lt|apply Z.geb_ge]; lia).
    run.
    replace (if i >=? 0 then wrap64 i else wrap64 (Z.of_nat (length cs) + i))
      with (Z.of_nat k).
    2:{ destruct (Z.geb_spec i 0); rewrite wrap64_small; lia. }
    pose proof (node_at _ _ _ _ Hseg Hk) as Hnode.
    destruct (Z.geb_spec (Z.of_nat k) (Z.of_nat (length cs) `div` 2)).
    - run. rewrite Ht, <-pos_at_last.
      replace (Z.of_nat k)
        with (Z.of_nat (length cs) - 1 - Z.of_nat (length cs - 1 - k)) by lia.
      erewrite bind_Ok; [|apply get_back_run; [done|lia..]].
      replace (pred (length cs) - (length cs - 1 - k))%nat with k by lia.
      rewrite (pos_at_Some _ _ _ Hk). run. by destruct c.
    - run. rewrite Hh, <-pos_at_0.
      erewrite bind_Ok; [|apply get_fwd_run; [done|lia..]].
      change (0 + k)%nat with k.
      rewrite (pos_at_Some _ _ _ Hk). run. by destruct c. }
  split; apply Hget; auto.
Qed.

End ExtraObservers.

Lemma observers_agree_witness :
  let m := demo_mem in
  let this := 1%positive in
  let cs := demo_cells in
  size this m = Ok (Z.of_nat (length cs)) m ∧
  empty this m = Ok (bool_decide (length cs = 0%nat)) m ∧
  (b ← begin this; e ← end_ this; mret (iter_eq b e)) m
  = Ok (bool_decide (length cs = 0%nat)) m ∧
  (b ← begin this; e ← end_ this; mret (iter_ne b e)) m
  = Ok (negb (bool_decide (length cs = 0%nat))) m ∧
  (b ← begin this; mret (iter_bool b)) m
  = Ok (negb (bool_decide (length cs = 0%nat))) m.
Proof.
  apply (observers_agree demo_mem 1%positive demo_cells).
  exact demo_dll.
Defined.

Lemma get_walks_at_most_half_the_list_witness :
  let m := demo_mem in
  let this := 1%positive in
  get 2 this (Z.of_nat 2) m = Ok (3%positive, 20) m ∧
  get 2 this (Z.of_nat 2 - Z.of_nat (length demo_cells)) m = Ok (3%positive, 20) m.
Proof.
  apply (get_walks_at_most_half_the_list demo_mem 1%positive demo_cells 2 2
           (3%positive, 20)).
  - exact demo_dll.
  - reflexivity.
  - vm_compute. reflexivity.
Defined.
